(** * Carrier Integration Service: token manager, transport, mapper, rate shopping

    A shallow embedding of the TypeScript sources
      - [errors]                       (CarrierError and its constructors),
      - [carriers/ups/auth]            (UpsAuthManager),
      - [carriers/ups/client]          (UpsHttpClient),
      - [carriers/ups/rating/mapper]   (mapFromUpsRatedShipment),
      - [carriers/ups/rating/operation](UpsRatingOperation),
      - [carriers/registry]            (CarrierRegistry),
      - [validation/schemas]           (RateRequestSchema),
      - [services/rate-shopping]       (RateShoppingService),
    followed by the properties proved about them.

    Conventions.
      - JavaScript numbers that hold instants, durations and HTTP statuses are
        integers ([Z]).  The numbers of a validated request (dimensions,
        weights, declared values) are rationals ([Q]).  The numbers that
        [parseFloat] and [parseInt] produce from a carrier's response are
        [JsNumber]s: NaN, an infinity or a rational.  Rounding is outside the
        model.
      - [new Date().toISOString()] is kept as the instant it renders (a [Z] of
        milliseconds), passed explicitly as [now].
      - A promise that is awaited is modelled by the value it settles to;
        the event loop of the token manager is modelled by an explicit
        step function over three kinds of events: a call, the settlement of
        the pending exchange (with the [finally] callback), and the
        resumption of the callers that awaited it.
      - The messages of the TypeErrors of the engine are those of V8. *)

From Stdlib Require Import ZArith QArith List String Ascii Bool Lia.
From Stdlib Require Import Permutation Sorted DecimalString Lqa.
Import ListNotations.
Open Scope string_scope.
Open Scope Z_scope.

Set Implicit Arguments.
#[local] Set Warnings "-register-all".

(** ** JavaScript helpers *)

(** Outcome of a computation that either returns or throws. *)
Inductive Result (A E : Type) : Type :=
| Ok (value : A)
| Err (error : E).
Arguments Ok {A E} value.
Arguments Err {A E} error.

(** [String(n)] for an integer number. *)
Definition string_of_Z (z : Z) : string := NilZero.string_of_int (Z.to_int z).

(** Truthiness of a string: only the empty string is falsy. *)
Definition truthy_string (s : string) : bool :=
  match s with EmptyString => false | String _ _ => true end.

(** The two values without properties. *)
Inductive Nullish : Type := IsUndefined | IsNull.

(** The message of the TypeError raised by reading [property] of a nullish
    value. *)
Definition typeErrorReading (n : Nullish) (property : string) : string :=
  "Cannot read properties of "
  ++ match n with IsUndefined => "undefined" | IsNull => "null" end
  ++ " (reading '" ++ property ++ "')".

(** A field that the wire types declare as required object: the object, or
    the nullish value found in its place. *)
Inductive Required (A : Type) : Type :=
| Given (object : A)
| Lacking (n : Nullish).
Arguments Given {A} object.
Arguments Lacking {A} n.

(** Sequencing of computations that may throw. *)
Definition bind (A B E : Type) (r : Result A E) (k : A -> Result B E) : Result B E :=
  match r with
  | Ok a => k a
  | Err e => Err e
  end.

Notation "x <- r ;; k" := (bind r (fun x => k))
  (at level 61, r at next level, right associativity).

(** [xs.map(f)] for an [f] that may throw: the first throw ends the map. *)
Fixpoint js_map (A B E : Type) (f : A -> Result B E) (xs : list A)
  : Result (list B) E :=
  match xs with
  | [] => Ok []
  | x :: rest =>
      y <- f x ;;
      ys <- js_map f rest ;;
      Ok (y :: ys)
  end.

(** A number as [parseFloat] and [parseInt] return it. *)
Inductive JsNumber : Type :=
| NaN
| NegInfinity
| Finite (q : Q)
| PosInfinity.

Definition Qpositive (q : Q) : bool :=
  if Qlt_le_dec 0 q then true else false.

(** [a - b]; the difference of two doubles has the sign of their exact
    difference. *)
Definition js_sub (a b : JsNumber) : JsNumber :=
  match a, b with
  | NaN, _ | _, NaN => NaN
  | Finite x, Finite y => Finite (x - y)
  | PosInfinity, PosInfinity | NegInfinity, NegInfinity => NaN
  | PosInfinity, _ | _, NegInfinity => PosInfinity
  | NegInfinity, _ | _, PosInfinity => NegInfinity
  end.

(** [v > 0] *)
Definition js_positive (v : JsNumber) : bool :=
  match v with
  | Finite q => Qpositive q
  | PosInfinity => true
  | NaN | NegInfinity => false
  end.

(** A value of unknown shape, as decoded from a JSON body.  A number is held
    as the text [String] gives for it, which determines it up to the sign of
    zero: ["9250"], ["0.5"], ["1e+21"]; zero is ["0"]. *)
Inductive JsValue : Type :=
| JsUndefined
| JsNull
| JsBool (b : bool)
| JsNum (rendering : string)
| JsStr (s : string)
| JsArr (items : list JsValue)
| JsObj (fields : list (string * JsValue)).

(** Own property of an object literal; the first binding of a key is the
    property (decoded JSON objects have distinct keys). *)
Fixpoint lookup_field (k : string) (fields : list (string * JsValue)) : JsValue :=
  match fields with
  | [] => JsUndefined
  | (k', v) :: rest => if String.eqb k k' then v else lookup_field k rest
  end.

(** [v.k] where [k] is neither an index nor the name of a member that
    objects, arrays or primitives inherit: reading a property of [null] or
    [undefined] throws a TypeError ([None]); primitives and arrays have no
    such property. *)
Definition js_get (v : JsValue) (k : string) : option JsValue :=
  match v with
  | JsUndefined | JsNull => None
  | JsObj fields => Some (lookup_field k fields)
  | _ => Some JsUndefined
  end.

Definition js_truthy (v : JsValue) : bool :=
  match v with
  | JsUndefined | JsNull => false
  | JsBool b => b
  | JsNum rendering => negb (String.eqb rendering "0")
  | JsStr s => truthy_string s
  | JsArr _ | JsObj _ => true
  end.

(** [typeof v === 'object'] *)
Definition js_is_object (v : JsValue) : bool :=
  match v with
  | JsNull | JsArr _ | JsObj _ => true
  | _ => false
  end.

(** The object has an own property [k]. *)
Definition has_own (k : string) (fields : list (string * JsValue)) : bool :=
  existsb (fun kv => String.eqb k (fst kv)) fields.

(** [String(v)], or [None] when it throws a TypeError.  Inside an array
    [null] and [undefined] render as the empty string and the elements are
    joined with a comma.  An object renders through its [toString]: the
    inherited one gives ["[object Object]"]; an own property [toString] of a
    decoded JSON object is never a function, so that neither it nor the
    inherited [valueOf] yields a primitive and the conversion throws. *)
Fixpoint js_String (v : JsValue) : option string :=
  match v with
  | JsUndefined => Some "undefined"
  | JsNull => Some "null"
  | JsBool true => Some "true"
  | JsBool false => Some "false"
  | JsNum rendering => Some rendering
  | JsStr s => Some s
  | JsArr items =>
      (fix join (l : list JsValue) : option string :=
         match l with
         | [] => Some ""
         | x :: rest =>
             match match x with
                   | JsUndefined | JsNull => Some ""
                   | _ => js_String x
                   end with
             | None => None
             | Some head =>
                 match rest with
                 | [] => Some head
                 | _ :: _ =>
                     match join rest with
                     | Some tail => Some (head ++ "," ++ tail)
                     | None => None
                     end
                 end
             end
         end) items
  | JsObj fields =>
      if has_own "toString" fields then None else Some "[object Object]"
  end.

(** [v ?? d] *)
Definition js_nullish_or (v d : JsValue) : JsValue :=
  match v with
  | JsUndefined | JsNull => d
  | _ => v
  end.

(** ** types/common *)

Inductive CarrierId : Type := UPS | FEDEX | USPS | DHL.

Definition CarrierId_eqb (a b : CarrierId) : bool :=
  match a, b with
  | UPS, UPS | FEDEX, FEDEX | USPS, USPS | DHL, DHL => true
  | _, _ => false
  end.

Definition CarrierId_to_string (c : CarrierId) : string :=
  match c with
  | UPS => "UPS" | FEDEX => "FEDEX" | USPS => "USPS" | DHL => "DHL"
  end.

Inductive ServiceLevel : Type :=
| GROUND | EXPRESS | EXPRESS_PLUS | EXPEDITED | STANDARD
| NEXT_DAY_AIR | NEXT_DAY_AIR_EARLY | NEXT_DAY_AIR_SAVER
| SECOND_DAY_AIR | SECOND_DAY_AIR_AM | THREE_DAY_SELECT | SAVER.

(** [Money]; its [number] is a [Q] in a validated request and a [JsNumber]
    in a quote. *)
Record Money (number : Type) : Type := { amount : number; currency : string }.

(** ** errors *)

Inductive CarrierErrorCode : Type :=
| AUTH_FAILED | AUTH_TOKEN_EXPIRED
| VALIDATION_ERROR
| NETWORK_ERROR | TIMEOUT | RATE_LIMITED
| CARRIER_API_ERROR | CARRIER_UNAVAILABLE | MALFORMED_RESPONSE
| BAD_REQUEST | NOT_FOUND | FORBIDDEN
| CONFIGURATION_ERROR | UNKNOWN.

(** [CarrierErrorDetails]; a [CarrierError] is its details. *)
Record CarrierError : Type := {
  code : CarrierErrorCode;
  message : string;
  carrier : option CarrierId;
  httpStatus : option Z;
  carrierErrorCode : option string;
  carrierErrorMessage : option string;
  retryable : bool;
  retryAfterMs : option Z;
  timestamp : Z
}.

Definition authError (c : CarrierId) (msg : string) (status : option Z) (now : Z)
  : CarrierError :=
  {| code := AUTH_FAILED;
     message := "[" ++ CarrierId_to_string c ++ "] Authentication failed: " ++ msg;
     carrier := Some c;
     httpStatus := status;
     carrierErrorCode := None;
     carrierErrorMessage := None;
     retryable := false;
     retryAfterMs := None;
     timestamp := now |}.

Definition validationError (msg : string) (c : option CarrierId) (now : Z)
  : CarrierError :=
  {| code := VALIDATION_ERROR;
     message := "Validation error: " ++ msg;
     carrier := c;
     httpStatus := None;
     carrierErrorCode := None;
     carrierErrorMessage := None;
     retryable := false;
     retryAfterMs := None;
     timestamp := now |}.

Definition networkError (c : CarrierId) (msg : string) (now : Z) : CarrierError :=
  {| code := NETWORK_ERROR;
     message := "[" ++ CarrierId_to_string c ++ "] Network error: " ++ msg;
     carrier := Some c;
     httpStatus := None;
     carrierErrorCode := None;
     carrierErrorMessage := None;
     retryable := true;
     retryAfterMs := None;
     timestamp := now |}.

Definition timeoutError (c : CarrierId) (timeoutMs : Z) (now : Z) : CarrierError :=
  {| code := TIMEOUT;
     message := "[" ++ CarrierId_to_string c ++ "] Request timed out after "
                ++ string_of_Z timeoutMs ++ "ms";
     carrier := Some c;
     httpStatus := None;
     carrierErrorCode := None;
     carrierErrorMessage := None;
     retryable := true;
     retryAfterMs := None;
     timestamp := now |}.

Definition rateLimitError (c : CarrierId) (retryAfter : option Z) (now : Z)
  : CarrierError :=
  {| code := RATE_LIMITED;
     message := "[" ++ CarrierId_to_string c ++ "] Rate limit exceeded";
     carrier := Some c;
     httpStatus := Some 429;
     carrierErrorCode := None;
     carrierErrorMessage := None;
     retryable := true;
     retryAfterMs := retryAfter;
     timestamp := now |}.

Definition carrierApiError (c : CarrierId) (msg : string) (status : Z)
  (upstreamCode upstreamMessage : option string) (now : Z) : CarrierError :=
  {| code := CARRIER_API_ERROR;
     message := "[" ++ CarrierId_to_string c ++ "] API error (HTTP "
                ++ string_of_Z status ++ "): " ++ msg;
     carrier := Some c;
     httpStatus := Some status;
     carrierErrorCode := upstreamCode;
     carrierErrorMessage := upstreamMessage;
     retryable := status >=? 500;
     retryAfterMs := None;
     timestamp := now |}.

Definition malformedResponseError (c : CarrierId) (msg : string) (now : Z)
  : CarrierError :=
  {| code := MALFORMED_RESPONSE;
     message := "[" ++ CarrierId_to_string c ++ "] Malformed response: " ++ msg;
     carrier := Some c;
     httpStatus := None;
     carrierErrorCode := None;
     carrierErrorMessage := None;
     retryable := false;
     retryAfterMs := None;
     timestamp := now |}.

(** ** The HTTP library as seen by the clients *)

(** [error.response] of an axios error.  The [retry-after] header is kept as
    the number of seconds it holds. *)
Record AxiosResponse : Type := {
  status : Z;
  data : JsValue;
  retryAfterHeader : option Z
}.

Record AxiosError : Type := {
  errCode : option string;
  errMessage : string;
  response : option AxiosResponse
}.

(** What a [catch] clause can receive. *)
Inductive Thrown : Type :=
| ThrownCarrier (e : CarrierError)      (* instanceof CarrierError *)
| ThrownAxios (e : AxiosError)          (* axios.isAxiosError *)
| ThrownError (msg : string)            (* any other instance of Error *)
| ThrownOther.                          (* a thrown non-Error value *)

(** How one [httpClient.post] settles: a response with a body of type [T], or
    a rejection. *)
Inductive HttpResult (T : Type) : Type :=
| HttpOk (httpStatusCode : Z) (body : T)
| HttpThrow (reason : Thrown).
Arguments HttpOk {T} httpStatusCode body.
Arguments HttpThrow {T} reason.

Definition is_timeout_code (c : option string) : bool :=
  match c with
  | Some s => String.eqb s "ECONNABORTED" || String.eqb s "ETIMEDOUT"
  | None => false
  end.

(** [retryAfter ? Number(retryAfter) * 1000 : undefined] *)
Definition retry_after_ms (h : option Z) : option Z :=
  match h with
  | Some s => Some (s * 1000)
  | None => None
  end.

(** ** carriers/ups/auth: UpsAuthManager *)

Record UpsAuthConfig : Type := {
  clientId : string;
  clientSecret : string;
  authBaseUrl : string;
  authTimeout : Z
}.

Record TokenData : Type := {
  accessToken : string;
  expiresAt : Z;            (* unix timestamp in ms *)
  tokenType : string
}.

(** The field [expires_in] as it is sent: a JSON number (a whole number of
    seconds), or a string of decimal digits (UPS sends a string).  A string
    is held as the digits it consists of; the empty string has none.
    Fractions and strings with other characters are outside the model. *)
Inductive ExpiresIn : Type :=
| SecondsNumber (n : Z)
| SecondsString (digits : Decimal.uint).

(** Body of the credential-exchange response, when it is an object.  A body
    that is a string or a number has no properties and behaves as the object
    without fields. *)
Record TokenResponse : Type := {
  access_token : option string;
  token_type : option string;
  expires_in : option ExpiresIn
}.

(** [response.data] of the credential exchange. *)
Inductive TokenBody : Type :=
| BodyObject (fields : TokenResponse)
| BodyNullish (n : Nullish).

(** The two mutable fields of the manager.  The in-flight promise is
    identified by the index of the credential exchange it waits for. *)
Record UpsAuthManager : Type := {
  token : option TokenData;
  inflightRequest : option nat
}.

Definition newUpsAuthManager : UpsAuthManager :=
  {| token := None; inflightRequest := None |}.

(** Buffer before actual expiry to proactively refresh (60 seconds). *)
Definition EXPIRY_BUFFER_MS : Z := 60000.

Definition isExpired (now : Z) (t : TokenData) : bool :=
  now >=? expiresAt t - EXPIRY_BUFFER_MS.

Definition hasValidToken (now : Z) (m : UpsAuthManager) : bool :=
  match token m with
  | Some t => negb (isExpired now t)
  | None => false
  end.

Definition invalidateToken (m : UpsAuthManager) : UpsAuthManager :=
  {| token := None; inflightRequest := inflightRequest m |}.

Definition classifyAuthError (cfg : UpsAuthConfig) (error : Thrown) (now : Z)
  : CarrierError :=
  match error with
  | ThrownAxios ae =>
      if is_timeout_code (errCode ae) then timeoutError UPS (authTimeout cfg) now
      else
        match response ae with
        | None => networkError UPS (errMessage ae) now
        | Some r =>
            let st := status r in
            if (st =? 401) || (st =? 403) then
              authError UPS "Invalid client credentials" (Some st) now
            else if st =? 429 then
              {| code := RATE_LIMITED;
                 message := "[UPS] Rate limited during authentication";
                 carrier := Some UPS;
                 httpStatus := Some 429;
                 carrierErrorCode := None;
                 carrierErrorMessage := None;
                 retryable := true;
                 retryAfterMs := retry_after_ms (retryAfterHeader r);
                 timestamp := now |}
            else
              authError UPS ("HTTP " ++ string_of_Z st ++ ": " ++ errMessage ae)
                        (Some st) now
        end
  | ThrownCarrier e => authError UPS (message e) None now
  | ThrownError msg => authError UPS msg None now
  | ThrownOther => authError UPS "Unknown auth error" None now
  end.

Definition truthy_opt_string (o : option string) : bool :=
  match o with Some s => truthy_string s | None => false end.

(** Truthiness of the raw field: a number other than zero, or a string that
    is not empty (the string ["0"] is truthy). *)
Definition truthy_expires_in (o : option ExpiresIn) : bool :=
  match o with
  | Some (SecondsNumber n) => negb (n =? 0)
  | Some (SecondsString Decimal.Nil) => false
  | Some (SecondsString _) => true
  | None => false
  end.

(** [Number(data.expires_in)] *)
Definition Number_of_expires_in (e : ExpiresIn) : Z :=
  match e with
  | SecondsNumber n => n
  | SecondsString digits => Z.of_uint digits
  end.

(** [acquireToken], from the moment the credential exchange settles with
    [reply] at instant [now]; issuing the exchange is counted by the callers
    below.  Reading a field of a nullish body throws a TypeError inside the
    [try], which the [catch] classifies. *)
Definition acquireToken (cfg : UpsAuthConfig) (reply : HttpResult TokenBody)
  (now : Z) : Result TokenData CarrierError :=
  match reply with
  | HttpOk st (BodyNullish n) =>
      Err (classifyAuthError cfg (ThrownError (typeErrorReading n "access_token")) now)
  | HttpOk st (BodyObject d) =>
      if negb (truthy_opt_string (access_token d))
         || negb (truthy_expires_in (expires_in d))
      then Err (authError UPS
                  "Token response missing required fields (access_token, expires_in)"
                  (Some st) now)
      else
        Ok {| accessToken := match access_token d with Some s => s | None => "" end;
              tokenType := match token_type d with Some s => s | None => "Bearer" end;
              expiresAt := now + match expires_in d with
                                 | Some e => Number_of_expires_in e
                                 | None => 0
                                 end * 1000 |}
  | HttpThrow (ThrownCarrier e) => Err e
  | HttpThrow other => Err (classifyAuthError cfg other now)
  end.

(** First statement of [getAccessToken]: the cached credential, when there is
    a token that is not expired. *)
Definition cachedAccessToken (now : Z) (m : UpsAuthManager) : option string :=
  match token m with
  | Some t => if isExpired now t then None else Some (accessToken t)
  | None => None
  end.

(** *** The manager under concurrent callers

    [getAccessToken] runs without interruption up to its [await].  When the
    exchange settles, the callback given to [finally] runs first and clears
    the slot; the promise the callers await settles only after it, so that
    their continuations are queued behind whatever else is ready to run by
    then.  The callers then resume one after the other, in the order they
    arrived, without anything running in between.  The model has one event
    for each of the three: a call, the settlement with the [finally]
    callback, and the resumption of the callers that awaited the settled
    exchange.  A call may fall between the last two. *)

Definition Caller : Type := nat.

Record AuthLoop : Type := {
  manager : UpsAuthManager;
  awaiting : list Caller;          (* suspended at the await, exchange pending *)
  resuming : list (Caller * Result TokenData CarrierError);
                                   (* suspended at the await, exchange settled *)
  exchanges : nat;                 (* credential exchanges posted *)
  returned : list (Caller * Result string CarrierError)
}.

Inductive AuthEvent : Type :=
| CallGetAccessToken (c : Caller) (now : Z)
| ExchangeSettles (reply : HttpResult TokenBody) (now : Z)
| AwaitersResume.

(** [getAccessToken] from its entry to its return or its [await]. *)
Definition getAccessToken_enter (c : Caller) (now : Z) (s : AuthLoop) : AuthLoop :=
  match cachedAccessToken now (manager s) with
  | Some tok =>
      {| manager := manager s;
         awaiting := awaiting s;
         resuming := resuming s;
         exchanges := exchanges s;
         returned := returned s ++ [(c, Ok tok)] |}
  | None =>
      match inflightRequest (manager s) with
      | None =>
          {| manager := {| token := token (manager s);
                           inflightRequest := Some (exchanges s) |};
             awaiting := awaiting s ++ [c];
             resuming := resuming s;
             exchanges := S (exchanges s);
             returned := returned s |}
      | Some _ =>
          {| manager := manager s;
             awaiting := awaiting s ++ [c];
             resuming := resuming s;
             exchanges := exchanges s;
             returned := returned s |}
      end
  end.

(** [getAccessToken] after its [await], for the outcome of the exchange. *)
Definition getAccessToken_resume (s : AuthLoop)
  (resumed : Caller * Result TokenData CarrierError) : AuthLoop :=
  match snd resumed with
  | Ok td =>
      {| manager := {| token := Some td;
                       inflightRequest := inflightRequest (manager s) |};
         awaiting := awaiting s;
         resuming := resuming s;
         exchanges := exchanges s;
         returned := returned s ++ [(fst resumed, Ok (accessToken td))] |}
  | Err e =>
      {| manager := manager s;
         awaiting := awaiting s;
         resuming := resuming s;
         exchanges := exchanges s;
         returned := returned s ++ [(fst resumed, Err e)] |}
  end.

(** The pending exchange settles: [acquireToken] finishes and the [finally]
    callback clears the slot.  The callers that awaited it stay suspended,
    now with the outcome they will resume with. *)
Definition exchange_settles (cfg : UpsAuthConfig) (reply : HttpResult TokenBody)
  (now : Z) (s : AuthLoop) : AuthLoop :=
  match inflightRequest (manager s) with
  | None => s
  | Some _ =>
      let outcome := acquireToken cfg reply now in
      {| manager := {| token := token (manager s); inflightRequest := None |};
         awaiting := [];
         resuming := resuming s ++ map (fun c => (c, outcome)) (awaiting s);
         exchanges := exchanges s;
         returned := returned s |}
  end.

(** The callers whose exchange has settled resume, in order. *)
Definition awaiters_resume (s : AuthLoop) : AuthLoop :=
  fold_left getAccessToken_resume (resuming s)
    {| manager := manager s;
       awaiting := awaiting s;
       resuming := [];
       exchanges := exchanges s;
       returned := returned s |}.

Definition auth_step (cfg : UpsAuthConfig) (s : AuthLoop) (ev : AuthEvent) : AuthLoop :=
  match ev with
  | CallGetAccessToken c now => getAccessToken_enter c now s
  | ExchangeSettles reply now => exchange_settles cfg reply now s
  | AwaitersResume => awaiters_resume s
  end.

Definition auth_run (cfg : UpsAuthConfig) (s : AuthLoop) (evs : list AuthEvent)
  : AuthLoop :=
  fold_left (auth_step cfg) evs s.

Definition idleLoop (m : UpsAuthManager) (n : nat) : AuthLoop :=
  {| manager := m; awaiting := []; resuming := []; exchanges := n; returned := [] |}.

(** [getAccessToken] for a caller that is alone on the event loop: the call
    and, when it had to wait, the settlement of the exchange it waited for
    and its own resumption.  [tokenEndpoint k] is the instant at which the
    [k]-th credential exchange settles and how. *)
Record AuthSession : Type := {
  auth : UpsAuthManager;
  clock : Z;
  tokenPosts : nat                 (* credential exchanges posted so far *)
}.

Definition getAccessToken (cfg : UpsAuthConfig)
  (tokenEndpoint : nat -> Z * HttpResult TokenBody) (s : AuthSession)
  : Result string CarrierError * AuthSession :=
  match cachedAccessToken (clock s) (auth s) with
  | Some tok => (Ok tok, s)
  | None =>
      let k := match inflightRequest (auth s) with
               | Some k => k
               | None => tokenPosts s
               end in
      let posts := match inflightRequest (auth s) with
                   | Some _ => tokenPosts s
                   | None => S (tokenPosts s)
                   end in
      let '(t, reply) := tokenEndpoint k in
      match acquireToken cfg reply t with
      | Ok td =>
          (Ok (accessToken td),
           {| auth := {| token := Some td; inflightRequest := None |};
              clock := t;
              tokenPosts := posts |})
      | Err e =>
          (Err e,
           {| auth := {| token := token (auth s); inflightRequest := None |};
              clock := t;
              tokenPosts := posts |})
      end
  end.

(** ** carriers/ups/client: UpsHttpClient *)

Record UpsClientConfig : Type := {
  baseUrl : string;
  defaultsTimeout : option Z;      (* httpClient.defaults.timeout *)
  transactionSource : string
}.

Definition unknownUpsError : string * string :=
  ("UNKNOWN", "Unknown UPS API error").

(** Extract error details from a UPS API response body; a TypeError raised
    on the way, by reading a property of a nullish first entry or by
    [String], is caught and gives the default. *)
Definition extractUpsError (body : JsValue) : string * string :=
  if js_truthy body && js_is_object body then
    match js_get body "response" with
    | Some r =>
        if js_truthy r && js_is_object r then
          match js_get r "errors" with
          | Some (JsArr (firstError :: _)) =>
              match js_get firstError "code", js_get firstError "message" with
              | Some c, Some m =>
                  match js_String (js_nullish_or c (JsStr "UNKNOWN")),
                        js_String (js_nullish_or m (JsStr "Unknown UPS error")) with
                  | Some upsCode, Some upsMessage => (upsCode, upsMessage)
                  | _, _ => unknownUpsError
                  end
              | _, _ => unknownUpsError
              end
          | _ => unknownUpsError
          end
        else unknownUpsError
    | None => unknownUpsError
    end
  else unknownUpsError.

(** Classify raw errors into structured CarrierErrors. *)
Definition classifyError (cfg : UpsClientConfig) (error : Thrown) (now : Z)
  : CarrierError :=
  match error with
  | ThrownCarrier e => e
  | ThrownAxios ae =>
      if is_timeout_code (errCode ae) then
        timeoutError UPS
          (match defaultsTimeout cfg with Some t => t | None => 10000 end) now
      else
        match response ae with
        | None => networkError UPS (errMessage ae) now
        | Some r =>
            let st := status r in
            if st =? 429 then
              rateLimitError UPS (retry_after_ms (retryAfterHeader r)) now
            else
              let upsError := extractUpsError (data r) in
              if st =? 401 then
                {| code := AUTH_FAILED;
                   message := "[UPS] Authentication failed: " ++ snd upsError;
                   carrier := Some UPS;
                   httpStatus := Some st;
                   carrierErrorCode := Some (fst upsError);
                   carrierErrorMessage := Some (snd upsError);
                   retryable := false;
                   retryAfterMs := None;
                   timestamp := now |}
              else if st =? 403 then
                {| code := FORBIDDEN;
                   message := "[UPS] Forbidden: " ++ snd upsError;
                   carrier := Some UPS;
                   httpStatus := Some st;
                   carrierErrorCode := Some (fst upsError);
                   carrierErrorMessage := Some (snd upsError);
                   retryable := false;
                   retryAfterMs := None;
                   timestamp := now |}
              else if (st >=? 400) && (st <? 500) then
                carrierApiError UPS (snd upsError) st
                  (Some (fst upsError)) (Some (snd upsError)) now
              else
                carrierApiError UPS (snd upsError) st
                  (Some (fst upsError)) (Some (snd upsError)) now
        end
  | ThrownError msg => malformedResponseError UPS msg now
  | ThrownOther => malformedResponseError UPS "Unknown error" now
  end.

(** The carrier as seen from the client: [tokenEndpoint k] settles the [k]-th
    credential exchange, [apiEndpoint k path payload bearer] the [k]-th API
    call, each with the instant at which it does. *)
Record Upstream (TRequest TResponse : Type) : Type := {
  tokenEndpoint : nat -> Z * HttpResult TokenBody;
  apiEndpoint : nat -> string -> TRequest -> string -> Z * HttpResult TResponse
}.

(** State threaded through a [post]: the token manager's session, the number
    of API calls sent and the number of times [makeRequest] was entered. *)
Record Wire : Type := {
  session : AuthSession;
  apiPosts : nat;
  attempts : nat
}.

Section Client.
Variables TRequest TResponse : Type.
Variable authCfg : UpsAuthConfig.
Variable cfg : UpsClientConfig.
Variable up : Upstream TRequest TResponse.

(** The closure [makeRequest] of [post]. *)
Definition makeRequest (path : string) (payload : TRequest) (w : Wire)
  : Result TResponse Thrown * Wire :=
  match getAccessToken authCfg (tokenEndpoint up) (session w) with
  | (Err e, s1) =>
      (Err (ThrownCarrier e),
       {| session := s1; apiPosts := apiPosts w; attempts := S (attempts w) |})
  | (Ok bearer, s1) =>
      let '(t, reply) := apiEndpoint up (apiPosts w) path payload bearer in
      let w2 := {| session := {| auth := auth s1; clock := t;
                                 tokenPosts := tokenPosts s1 |};
                   apiPosts := S (apiPosts w);
                   attempts := S (attempts w) |} in
      match reply with
      | HttpOk _ body => (Ok body, w2)
      | HttpThrow reason => (Err reason, w2)
      end
  end.

(** [axios.isAxiosError(error) && error.response?.status === 401] *)
Definition is_axios_401 (error : Thrown) : bool :=
  match error with
  | ThrownAxios ae =>
      match response ae with
      | Some r => status r =? 401
      | None => false
      end
  | _ => false
  end.

Definition with_auth (w : Wire) (m : UpsAuthManager) : Wire :=
  {| session := {| auth := m; clock := clock (session w);
                   tokenPosts := tokenPosts (session w) |};
     apiPosts := apiPosts w;
     attempts := attempts w |}.

(** Make an authenticated POST request to the UPS API. *)
Definition post (path : string) (payload : TRequest) (w : Wire)
  : Result TResponse CarrierError * Wire :=
  match makeRequest path payload w with
  | (Ok body, w1) => (Ok body, w1)
  | (Err error, w1) =>
      if is_axios_401 error then
        let w2 := with_auth w1 (invalidateToken (auth (session w1))) in
        match makeRequest path payload w2 with
        | (Ok body, w3) => (Ok body, w3)
        | (Err retryError, w3) =>
            (Err (classifyError cfg retryError (clock (session w3))), w3)
        end
      else (Err (classifyError cfg error (clock (session w1))), w1)
  end.
End Client.

(** ** types/address, types/package, types/rate *)

Record Address : Type := {
  name : string;
  addressLines : list string;
  city : string;
  stateCode : string;
  postalCode : string;
  countryCode : string;
  isResidential : option bool
}.

Inductive DimensionUnit : Type := IN | CM.
Inductive WeightUnit : Type := LBS | KGS.

Record PackageDimensions : Type := {
  dim_length : Q;
  dim_width : Q;
  dim_height : Q;
  dim_unit : DimensionUnit
}.

Record PackageWeight : Type := {
  weight_value : Q;
  weight_unit : WeightUnit
}.

Inductive PackagingType : Type :=
| CUSTOM | LETTER | TUBE | PAK | SMALL_BOX | MEDIUM_BOX | LARGE_BOX.

Record Package : Type := {
  dimensions : PackageDimensions;
  weight : PackageWeight;
  packagingType : option PackagingType;
  declaredValue : option (Money Q)
}.

Record RateRequest : Type := {
  origin : Address;
  destination : Address;
  packages : list Package;
  serviceLevel : option ServiceLevel;
  carriers : option (list CarrierId);
  shipperAccountNumber : option string
}.

Record Surcharge : Type := {
  surchargeCode : string;
  surchargeDescription : string;
  surchargeAmount : Money JsNumber
}.

(** What [table[key] ?? fallback] evaluates to for a table that is an object
    literal: a value of the declared type, or, when [key] names a member
    that every object inherits from [Object.prototype], that member (a
    function, or the prototype itself). *)
Inductive OrInherited (A : Type) : Type :=
| Plain (value : A)
| Inherited (member : string).
Arguments Plain {A} value.
Arguments Inherited {A} member.

Record RateQuote : Type := {
  quoteCarrier : CarrierId;
  serviceCode : string;
  serviceName : OrInherited string;
  quoteServiceLevel : OrInherited ServiceLevel;
  totalCharges : Money JsNumber;
  baseCharges : Money JsNumber;
  surcharges : list Surcharge;
  transitDays : option JsNumber;
  estimatedDelivery : option string;
  guaranteed : bool;
  billingWeight : option (JsNumber * string)
}.

Record RateResponse : Type := {
  quotes : list RateQuote;
  queriedCarriers : list CarrierId;
  requestedAt : Z
}.

(** ** Built-in functions of the platform *)

(** [parseFloat] and [parseInt(_, 10)] on the strings of the wire format;
    either gives NaN for a string that does not start with a number. *)
Class NumberParsing : Type := {
  parseFloat : string -> JsNumber;
  parseInt10 : string -> JsNumber
}.

(** [Array.prototype.sort(compareFn)]: the sort is stable, and an element
    moves behind another only when [compareFn] of the two is positive; a
    result that is NaN counts as zero.  Where [compareFn] is not a
    consistent order the language leaves the result to the engine; the model
    then gives what this insertion gives. *)
Section JsSort.
Variable A : Type.
Variable compareFn : A -> A -> JsNumber.

Fixpoint js_insert (x : A) (l : list A) : list A :=
  match l with
  | [] => [x]
  | y :: rest =>
      if js_positive (compareFn x y) then y :: js_insert x rest
      else x :: l
  end.

Fixpoint js_sort (l : list A) : list A :=
  match l with
  | [] => []
  | x :: rest => js_insert x (js_sort rest)
  end.
End JsSort.

(** ** carriers/ups/rating/types (response side; the fields the mapper reads) *)

Record UpsCharges : Type := {
  CurrencyCode : string;
  MonetaryValue : string
}.

Record UpsItemizedCharge : Type := {
  ItemizedCode : string;
  ItemizedDescription : option string;
  ItemizedCurrencyCode : string;
  ItemizedMonetaryValue : string
}.

(** A field that holds one object or an array of them, or is missing. *)
Inductive OneOrMany (A : Type) : Type :=
| Missing
| Single (x : A)
| Several (xs : list A).
Arguments Missing {A}.
Arguments Single {A} x.
Arguments Several {A} xs.

Record UpsService : Type := {
  Code : string;
  Description : option string
}.

Record UpsUnitOfMeasurement : Type := {
  UnitOfMeasurementCode : string              (* Code *)
}.

Record UpsBillingWeight : Type := {
  UnitOfMeasurement : Required UpsUnitOfMeasurement;
  Weight : string
}.

Record UpsGuaranteedDelivery : Type := {
  GuaranteedBusinessDaysInTransit : option string;
  DeliveryByTime : option string
}.

Record UpsArrival : Type := {
  ArrivalDate : option string;
  ArrivalTime : option string
}.

Record UpsEstimatedArrival : Type := {
  Arrival : option UpsArrival;
  BusinessDaysInTransit : option string
}.

Record UpsServiceSummary : Type := {
  EstimatedArrival : option UpsEstimatedArrival
}.

Record UpsTimeInTransit : Type := {
  ServiceSummary : option UpsServiceSummary
}.

(** A rated shipment as it arrives.  The objects that the mapper reads
    without a guard may be missing or null. *)
Record UpsRatedShipment : Type := {
  Service : Required UpsService;
  BillingWeight : Required UpsBillingWeight;
  TransportationCharges : Required UpsCharges;
  TotalCharges : Required UpsCharges;
  GuaranteedDelivery : option UpsGuaranteedDelivery;
  ItemizedCharges : OneOrMany UpsItemizedCharge;
  TimeInTransit : option UpsTimeInTransit
}.

Record UpsRateResponseBody : Type := {
  RatedShipment : OneOrMany UpsRatedShipment
}.

(** The top-level wrapper; its field is [RateResponse] on the wire. *)
Record UpsRateResponse : Type := {
  RateResponseBody : option UpsRateResponseBody
}.

(** ** carriers/ups/rating/mapper (response mapping) *)

Fixpoint table_lookup (A : Type) (k : string) (table : list (string * A)) : option A :=
  match table with
  | [] => None
  | (k', v) :: rest => if String.eqb k k' then Some v else table_lookup k rest
  end.

Definition UPS_SERVICE_CODE_TO_LEVEL : list (string * ServiceLevel) :=
  [ ("01", NEXT_DAY_AIR); ("02", SECOND_DAY_AIR); ("03", GROUND);
    ("07", EXPRESS); ("08", EXPEDITED); ("11", STANDARD);
    ("12", THREE_DAY_SELECT); ("13", NEXT_DAY_AIR_SAVER);
    ("14", NEXT_DAY_AIR_EARLY); ("54", EXPRESS_PLUS);
    ("59", SECOND_DAY_AIR_AM); ("65", SAVER) ].

Definition UPS_SERVICE_NAMES : list (string * string) :=
  [ ("01", "UPS Next Day Air");
    ("02", "UPS 2nd Day Air");
    ("03", "UPS Ground");
    ("07", "UPS Worldwide Express");
    ("08", "UPS Worldwide Expedited");
    ("11", "UPS Standard");
    ("12", "UPS 3 Day Select");
    ("13", "UPS Next Day Air Saver");
    ("14", "UPS Next Day Air Early");
    ("54", "UPS Worldwide Express Plus");
    ("59", "UPS 2nd Day Air A.M.");
    ("65", "UPS Worldwide Saver") ].

(** The names of the members of [Object.prototype]. *)
Definition Object_prototype_members : list string :=
  [ "constructor"; "hasOwnProperty"; "isPrototypeOf"; "propertyIsEnumerable";
    "toLocaleString"; "toString"; "valueOf"; "__proto__";
    "__defineGetter__"; "__defineSetter__"; "__lookupGetter__"; "__lookupSetter__" ].

(** [table[k] ?? fallback] for a key [k] that comes from outside: the own
    entry; else the inherited member when [k] names one; else the fallback. *)
Definition index_or (A : Type) (k : string) (table : list (string * A)) (fallback : A)
  : OrInherited A :=
  match table_lookup k table with
  | Some v => Plain v
  | None =>
      if existsb (String.eqb k) Object_prototype_members then Inherited k
      else Plain fallback
  end.

Section Mapper.
Context {np : NumberParsing}.

Definition mapUpsCharges (charges : Required UpsCharges)
  : Result (Money JsNumber) Thrown :=
  match charges with
  | Lacking n => Err (ThrownError (typeErrorReading n "MonetaryValue"))
  | Given c =>
      Ok {| amount := parseFloat (MonetaryValue c);
            currency := CurrencyCode c |}
  end.

Definition mapUpsSurcharges (itemized : OneOrMany UpsItemizedCharge)
  : list Surcharge :=
  match itemized with
  | Missing => []
  | _ =>
      let charges := match itemized with
                     | Several xs => xs
                     | Single x => [x]
                     | Missing => []
                     end in
      map (fun charge =>
             {| surchargeCode := ItemizedCode charge;
                surchargeDescription :=
                  match ItemizedDescription charge with
                  | Some d => d
                  | None => "Surcharge " ++ ItemizedCode charge
                  end;
                surchargeAmount :=
                  {| amount := parseFloat (ItemizedMonetaryValue charge);
                     currency := ItemizedCurrencyCode charge |} |})
          (filter (fun c => js_positive (parseFloat (ItemizedMonetaryValue c)))
                  charges)
  end.

(** [rated.TimeInTransit?.ServiceSummary?.EstimatedArrival] *)
Definition estimatedArrival (rated : UpsRatedShipment) : option UpsEstimatedArrival :=
  match TimeInTransit rated with
  | Some tit =>
      match ServiceSummary tit with
      | Some ss => EstimatedArrival ss
      | None => None
      end
  | None => None
  end.

Definition parseTransitDays (rated : UpsRatedShipment) : option JsNumber :=
  match match GuaranteedDelivery rated with
        | Some g => GuaranteedBusinessDaysInTransit g
        | None => None
        end with
  | Some (String _ _ as days) => Some (parseInt10 days)
  | _ =>
      match match estimatedArrival rated with
            | Some ea => BusinessDaysInTransit ea
            | None => None
            end with
      | Some (String _ _ as days) => Some (parseInt10 days)
      | _ => None
      end
  end.

Definition parseEstimatedDelivery (rated : UpsRatedShipment) : option string :=
  match estimatedArrival rated with
  | Some ea =>
      match Arrival ea with
      | Some a =>
          match ArrivalDate a with
          | Some (String _ _ as d) => Some d
          | _ => None
          end
      | None => None
      end
  | None => None
  end.

(** Map a UPS RatedShipment into a normalized RateQuote.  The fields of
    the quote are computed in the order in which they are written; reading
    a property of an object that is missing throws a TypeError. *)
Definition mapFromUpsRatedShipment (rated : UpsRatedShipment)
  : Result RateQuote Thrown :=
  match Service rated with
  | Lacking n => Err (ThrownError (typeErrorReading n "Code"))
  | Given service =>
      let serviceCode := Code service in
      total <- mapUpsCharges (TotalCharges rated) ;;
      base <- mapUpsCharges (TransportationCharges rated) ;;
      match BillingWeight rated with
      | Lacking n => Err (ThrownError (typeErrorReading n "Weight"))
      | Given billing =>
          match UnitOfMeasurement billing with
          | Lacking n => Err (ThrownError (typeErrorReading n "Code"))
          | Given unit =>
              Ok {| quoteCarrier := UPS;
                    serviceCode := serviceCode;
                    serviceName :=
                      index_or serviceCode UPS_SERVICE_NAMES
                        match Description service with
                        | Some d => d
                        | None => "UPS Service " ++ serviceCode
                        end;
                    quoteServiceLevel :=
                      index_or serviceCode UPS_SERVICE_CODE_TO_LEVEL STANDARD;
                    totalCharges := total;
                    baseCharges := base;
                    surcharges := mapUpsSurcharges (ItemizedCharges rated);
                    transitDays := parseTransitDays rated;
                    estimatedDelivery := parseEstimatedDelivery rated;
                    guaranteed := match GuaranteedDelivery rated with
                                  | Some _ => true
                                  | None => false
                                  end;
                    billingWeight :=
                      Some (parseFloat (Weight billing),
                            UnitOfMeasurementCode unit) |}
          end
      end
  end.

(** ** carriers/ups/rating/operation: UpsRatingOperation *)

(** [(a, b) => a.totalCharges.amount - b.totalCharges.amount] *)
Definition byTotalCharges (a b : RateQuote) : JsNumber :=
  js_sub (amount (totalCharges a)) (amount (totalCharges b)).

(** The [try] block of [parseResponse]. *)
Definition parseResponse_try (resp : option UpsRateResponse) (now : Z)
  : Result (list RateQuote) Thrown :=
  match match resp with
        | Some r => RateResponseBody r
        | None => None
        end with
  | None =>
      Err (ThrownCarrier
             (malformedResponseError UPS "Missing RateResponse in response body" now))
  | Some rateResponse =>
      match RatedShipment rateResponse with
      | Missing =>
          Err (ThrownCarrier
                 (malformedResponseError UPS "Missing RatedShipment in response" now))
      | ratedShipments =>
          let shipments := match ratedShipments with
                           | Several xs => xs
                           | Single x => [x]
                           | Missing => []
                           end in
          quotes <- js_map mapFromUpsRatedShipment shipments ;;
          Ok (js_sort byTotalCharges quotes)
      end
  end.

(** The [catch] clause of [parseResponse]: a CarrierError is raised again,
    anything else is reported as a malformed response. *)
Definition parseResponse_catch (error : Thrown) (now : Z) : CarrierError :=
  match error with
  | ThrownCarrier e => e
  | _ =>
      malformedResponseError UPS
        ("Failed to parse rate response: "
         ++ match error with
            | ThrownAxios ae => errMessage ae
            | ThrownError msg => msg
            | _ => "unknown error"
            end)
        now
  end.

Definition parseResponse (resp : option UpsRateResponse) (now : Z)
  : Result (list RateQuote) CarrierError :=
  match parseResponse_try resp now with
  | Ok quotes => Ok quotes
  | Err error => Err (parseResponse_catch error now)
  end.
End Mapper.

(** [UpsRatingOperation.getRates].  The wire payload is
    [mapToUpsRateRequest(request, accountNumber)]; the transport receives
    the pair it is computed from. *)
Section RatingOperation.
Context {np : NumberParsing}.
Variable authCfg : UpsAuthConfig.
Variable cfg : UpsClientConfig.
Variable up : Upstream (RateRequest * string) (option UpsRateResponse).
Variable accountNumber : string.
Variable apiVersion : string.

Definition ups_getRates (request : RateRequest) (w : Wire)
  : Result (list RateQuote) CarrierError * Wire :=
  let requestOption := match serviceLevel request with
                       | Some _ => "Rate"
                       | None => "Shop"
                       end in
  let path := "/api/rating/" ++ apiVersion ++ "/" ++ requestOption in
  let payload := (request, accountNumber) in
  match post authCfg cfg up path payload w with
  | (Err e, w1) => (Err e, w1)
  | (Ok body, w1) => (parseResponse body (clock (session w1)), w1)
  end.
End RatingOperation.

(** ** carriers/carrier.interface and carriers/registry *)

Inductive CarrierOperation : Type :=
| rate | label | tracking | address_validation.

Definition CarrierOperation_eqb (a b : CarrierOperation) : bool :=
  match a, b with
  | rate, rate | label, label | tracking, tracking
  | address_validation, address_validation => true
  | _, _ => false
  end.

(** A provider acts on a world [W] (its network, its token manager); a call
    of [getRates] settles to quotes or to a rejection. *)
Record CarrierProvider (W : Type) : Type := {
  carrierId : CarrierId;
  carrierName : string;
  supportedOperations : list CarrierOperation;
  getRates : RateRequest -> W -> Result (list RateQuote) Thrown * W
}.

(** [Map<CarrierId, CarrierProvider>], in insertion order. *)
Definition CarrierRegistry (W : Type) : Type := list (CarrierId * CarrierProvider W).

Section Registry.
Variable W : Type.

Fixpoint registry_find (id : CarrierId) (reg : CarrierRegistry W)
  : option (CarrierProvider W) :=
  match reg with
  | [] => None
  | (k, p) :: rest => if CarrierId_eqb id k then Some p else registry_find id rest
  end.

Definition registry_has (reg : CarrierRegistry W) (id : CarrierId) : bool :=
  match registry_find id reg with Some _ => true | None => false end.

Definition register (reg : CarrierRegistry W) (provider : CarrierProvider W) (now : Z)
  : Result (CarrierRegistry W) CarrierError :=
  if registry_has reg (carrierId provider) then
    Err {| code := CONFIGURATION_ERROR;
           message := "Carrier " ++ CarrierId_to_string (carrierId provider)
                      ++ " is already registered";
           carrier := None;
           httpStatus := None;
           carrierErrorCode := None;
           carrierErrorMessage := None;
           retryable := false;
           retryAfterMs := None;
           timestamp := now |}
  else Ok (reg ++ [(carrierId provider, provider)])%list.

Definition registry_get (reg : CarrierRegistry W) (id : CarrierId) (now : Z)
  : Result (CarrierProvider W) CarrierError :=
  match registry_find id reg with
  | Some provider => Ok provider
  | None =>
      Err {| code := CARRIER_UNAVAILABLE;
             message := "Carrier " ++ CarrierId_to_string id ++ " is not registered";
             carrier := Some id;
             httpStatus := None;
             carrierErrorCode := None;
             carrierErrorMessage := None;
             retryable := false;
             retryAfterMs := None;
             timestamp := now |}
  end.

Definition getAll (reg : CarrierRegistry W) : list (CarrierProvider W) :=
  map snd reg.

Definition getByOperation (reg : CarrierRegistry W) (operation : CarrierOperation)
  : list (CarrierProvider W) :=
  filter (fun c => existsb (CarrierOperation_eqb operation) (supportedOperations c))
         (getAll reg).
End Registry.

(** ** validation/schemas *)

(** An issue of a failed parse: where, and the message. *)
Record ZodIssue : Type := {
  issuePath : list string;
  issueMessage : string
}.

(** Checks of the schema that give no message of their own. *)
Inductive ZodDefaultIssue : Type :=
| StringTooSmall (minimum : nat)
| StringTooBig (maximum : nat)
| NumberTooSmall (minimum : Q).

(** The messages the validation library supplies for them. *)
Class ZodLocale : Type := {
  defaultIssueMessage : ZodDefaultIssue -> string
}.

Section Schemas.
Context {zl : ZodLocale}.
Local Open Scope list_scope.

Definition issue_if (failed : bool) (path : list string) (msg : string)
  : list ZodIssue :=
  if failed then [ {| issuePath := path; issueMessage := msg |} ] else [].

(** Issues of the elements of an array, each under its index. *)
Fixpoint each_indexed (A : Type) (check : list string -> A -> list ZodIssue)
  (path : list string) (i : nat) (l : list A) : list ZodIssue :=
  match l with
  | [] => []
  | x :: rest =>
      check (path ++ [string_of_Z (Z.of_nat i)]) x
      ++ each_indexed check path (S i) rest
  end.

Definition AddressSchema (path : list string) (a : Address) : list ZodIssue :=
  issue_if (String.length (name a) <? 1)%nat (path ++ ["name"]) "Name is required"
  ++ (issue_if (List.length (addressLines a) <? 1)%nat (path ++ ["addressLines"])
               "At least one address line is required"
      ++ issue_if (3 <? List.length (addressLines a))%nat (path ++ ["addressLines"])
                  "Maximum 3 address lines"
      ++ each_indexed
           (fun p line => issue_if (String.length line <? 1)%nat p
                                   (defaultIssueMessage (StringTooSmall 1)))
           (path ++ ["addressLines"]) 0 (addressLines a))
  ++ issue_if (String.length (city a) <? 1)%nat (path ++ ["city"]) "City is required"
  ++ (issue_if (String.length (stateCode a) <? 2)%nat (path ++ ["stateCode"])
               "State code must be at least 2 characters"
      ++ issue_if (5 <? String.length (stateCode a))%nat (path ++ ["stateCode"])
                  (defaultIssueMessage (StringTooBig 5)))
  ++ issue_if (String.length (postalCode a) <? 1)%nat (path ++ ["postalCode"])
              "Postal code is required"
  ++ issue_if (negb (String.length (countryCode a) =? 2)%nat) (path ++ ["countryCode"])
              "Country code must be ISO 3166-1 alpha-2 (2 characters)".

Definition PackageDimensionsSchema (path : list string) (d : PackageDimensions)
  : list ZodIssue :=
  issue_if (negb (Qpositive (dim_length d))) (path ++ ["length"]) "Length must be positive"
  ++ issue_if (negb (Qpositive (dim_width d))) (path ++ ["width"]) "Width must be positive"
  ++ issue_if (negb (Qpositive (dim_height d))) (path ++ ["height"]) "Height must be positive".

Definition PackageWeightSchema (path : list string) (wt : PackageWeight)
  : list ZodIssue :=
  issue_if (negb (Qpositive (weight_value wt))) (path ++ ["value"]) "Weight must be positive".

Definition DeclaredValueSchema (path : list string) (v : Money Q) : list ZodIssue :=
  issue_if (negb (Qle_bool 0 (amount v))) (path ++ ["amount"])
           (defaultIssueMessage (NumberTooSmall 0))
  ++ issue_if (negb (String.length (currency v) =? 3)%nat) (path ++ ["currency"])
              "Currency must be ISO 4217 (3 characters)".

Definition PackageSchema (path : list string) (p : Package) : list ZodIssue :=
  PackageDimensionsSchema (path ++ ["dimensions"]) (dimensions p)
  ++ PackageWeightSchema (path ++ ["weight"]) (weight p)
  ++ match declaredValue p with
     | Some v => DeclaredValueSchema (path ++ ["declaredValue"]) v
     | None => []
     end.

Definition RateRequestSchema (r : RateRequest) : list ZodIssue :=
  AddressSchema ["origin"] (origin r)
  ++ AddressSchema ["destination"] (destination r)
  ++ (issue_if (List.length (packages r) <? 1)%nat ["packages"]
               "At least one package is required"
      ++ issue_if (50 <? List.length (packages r))%nat ["packages"]
                  "Maximum 50 packages per shipment"
      ++ each_indexed PackageSchema ["packages"] 0 (packages r)).
End Schemas.

(** [xs.join(sep)] *)
Fixpoint join (sep : string) (xs : list string) : string :=
  match xs with
  | [] => ""
  | [x] => x
  | x :: rest => x ++ sep ++ join sep rest
  end.

(** ** services/rate-shopping: RateShoppingService *)

(** What [getQuotes] did: its result, the providers whose [getRates] it
    called (in call order) and the world it left. *)
Record Run (W : Type) : Type := {
  outcome : Result RateResponse CarrierError;
  invoked : list CarrierId;
  world : W
}.

Section RateShopping.
Context {zl : ZodLocale}.
Variable W : Type.
Variable registry : CarrierRegistry W.

(** Validate the rate request using the schema. *)
Definition validateRequest (request : RateRequest) (now : Z)
  : Result unit CarrierError :=
  match RateRequestSchema request with
  | [] => Ok tt
  | errors =>
      let messages :=
        map (fun e => join "." (issuePath e) ++ ": " ++ issueMessage e) errors in
      Err (validationError (join "; " messages) None now)
  end.

(** Resolve which carriers to query. *)
Definition resolveCarriers (requestedCarriers : option (list CarrierId))
  : list CarrierId :=
  match requestedCarriers with
  | Some (c :: cs) => c :: cs
  | _ => map (@carrierId W) (getByOperation registry rate)
  end.

(** [Promise.allSettled(carriers.map(...))]: every carrier is looked up
    and, when registered, asked for its rates; the outcomes are kept in the
    order of [carriers].  The calls are started in that order and the model
    lets each one finish before the next starts: how the calls of providers
    that share state (a carrier listed twice) interleave is not
    represented. *)
Fixpoint queryCarriers (request : RateRequest) (now : Z) (ids : list CarrierId)
  (w : W) : list (Result (list RateQuote) Thrown) * list CarrierId * W :=
  match ids with
  | [] => ([], [], w)
  | id :: rest =>
      match registry_get registry id now with
      | Err e =>
          let '(results, called, w') := queryCarriers request now rest w in
          (Err (ThrownCarrier e) :: results, called, w')
      | Ok provider =>
          let '(r, w1) := getRates provider request w in
          let '(results, called, w') := queryCarriers request now rest w1 in
          (r :: results, id :: called, w')
      end
  end.

(** [result.reason?.message ?? 'Unknown error'] *)
Definition reason_message (reason : Thrown) : string :=
  match reason with
  | ThrownCarrier e => message e
  | ThrownAxios ae => errMessage ae
  | ThrownError msg => msg
  | ThrownOther => "Unknown error"
  end.

(** The error pushed for a rejected carrier. *)
Definition collectedError (id : CarrierId) (reason : Thrown) (now : Z)
  : CarrierError :=
  match reason with
  | ThrownCarrier e => e
  | _ =>
      {| code := UNKNOWN;
         message := "Carrier " ++ CarrierId_to_string id ++ " failed: "
                    ++ reason_message reason;
         carrier := Some id;
         httpStatus := None;
         carrierErrorCode := None;
         carrierErrorMessage := None;
         retryable := false;
         retryAfterMs := None;
         timestamp := now |}
  end.

(** The [forEach] over the settled results: [allQuotes] and [errors]. *)
Fixpoint collect (ids : list CarrierId)
  (results : list (Result (list RateQuote) Thrown)) (now : Z)
  : list RateQuote * list CarrierError :=
  match results, ids with
  | [], _ => ([], [])
  | _ :: _, [] => ([], [])
  | Ok value :: results', _ :: ids' =>
      let '(allQuotes, errors) := collect ids' results' now in
      ((value ++ allQuotes)%list, errors)
  | Err reason :: results', id :: ids' =>
      let '(allQuotes, errors) := collect ids' results' now in
      (allQuotes, collectedError id reason now :: errors)
  end.

(** Steps 4 to 6 of [getQuotes], on the settled results. *)
Definition aggregate (ids : list CarrierId)
  (results : list (Result (list RateQuote) Thrown)) (now : Z)
  : Result RateResponse CarrierError :=
  let '(allQuotes, errors) := collect ids results now in
  match allQuotes, errors with
  | [], first :: _ => Err first
  | _, _ =>
      Ok {| quotes := js_sort byTotalCharges allQuotes;
            queriedCarriers := ids;
            requestedAt := now |}
  end.

(** Steps 2 to 6 of [getQuotes], for the carriers [ids]. *)
Definition shop (request : RateRequest) (now : Z) (ids : list CarrierId) (w : W)
  : Run W :=
  let '(results, called, w') := queryCarriers request now ids w in
  {| outcome := aggregate ids results now; invoked := called; world := w' |}.

(** Get rate quotes from one or more carriers. *)
Definition getQuotes (request : RateRequest) (now : Z) (w : W) : Run W :=
  match validateRequest request now with
  | Err e => {| outcome := Err e; invoked := []; world := w |}
  | Ok _ => shop request now (resolveCarriers (carriers request)) w
  end.
End RateShopping.

(** ** carriers/ups/index: UpsCarrier *)

Section UpsCarrier.
Context {np : NumberParsing}.
Variable authCfg : UpsAuthConfig.
Variable cfg : UpsClientConfig.
Variable up : Upstream (RateRequest * string) (option UpsRateResponse).
Variable accountNumber : string.
Variable ratingApiVersion : string.

(** The provider registered for UPS; its world is the wire of its client.
    A failure of [getRates] is a rejection with the CarrierError. *)
Definition UpsCarrier : CarrierProvider Wire :=
  {| carrierId := UPS;
     carrierName := "United Parcel Service";
     supportedOperations := [rate];
     getRates := fun request w =>
       match ups_getRates authCfg cfg up accountNumber ratingApiVersion request w with
       | (Ok found, w') => (Ok found, w')
       | (Err e, w') => (Err (ThrownCarrier e), w')
       end |}.
End UpsCarrier.

(** ** carriers/ups/rating/types (request side) *)

Record UpsAddress : Type := {
  AddressLine : list string;
  City : string;
  StateProvinceCode : string;
  PostalCode : string;
  CountryCode : string;
  ResidentialAddressIndicator : option string
}.

(** [Shipper], [ShipTo] and [ShipFrom]; on the wire their fields are [Name],
    [ShipperNumber] and [Address]. *)
Record UpsShipper : Type := {
  ShipperName : string;
  ShipperNumber : string;
  ShipperAddress : UpsAddress
}.

Record UpsShipTo : Type := {
  ShipToName : string;
  ShipToAddress : UpsAddress
}.

Record UpsShipFrom : Type := {
  ShipFromName : string;
  ShipFromAddress : UpsAddress
}.

(** [{ Code, Description }] of a packaging type or a unit of measurement. *)
Record UpsCodeDescription : Type := {
  WireCode : string;
  WireDescription : string
}.

Record UpsDimensions : Type := {
  DimensionsUnit : UpsCodeDescription;        (* UnitOfMeasurement *)
  Length : string;
  Width : string;
  Height : string
}.

Record UpsPackageWeight : Type := {
  PackageWeightUnit : UpsCodeDescription;     (* UnitOfMeasurement *)
  PackageWeightValue : string                 (* Weight *)
}.

Record UpsPackageServiceOptions : Type := {
  DeclaredValue : option UpsCharges
}.

Record UpsPackage : Type := {
  PackagingTypeOf : UpsCodeDescription;       (* PackagingType *)
  Dimensions : option UpsDimensions;
  PackageWeightOf : UpsPackageWeight;         (* PackageWeight *)
  PackageServiceOptions : option UpsPackageServiceOptions
}.

Record UpsShipmentCharge : Type := {
  ChargeType : string;                        (* Type *)
  BillShipperAccountNumber : string           (* BillShipper.AccountNumber *)
}.

Record UpsShipment : Type := {
  Shipper : UpsShipper;
  ShipTo : UpsShipTo;
  ShipFrom : UpsShipFrom;
  ShipmentService : option UpsService;        (* Service *)
  ShipmentPackage : list UpsPackage;          (* Package *)
  PaymentDetails : option (list UpsShipmentCharge)
}.

Record UpsRequestHeader : Type := {
  RequestOption : string;
  CustomerContext : option string             (* TransactionReference.CustomerContext *)
}.

(** The body under the top-level [RateRequest] field. *)
Record UpsRateRequest : Type := {
  Request : UpsRequestHeader;
  Shipment : UpsShipment
}.

(** ** carriers/ups/rating/mapper (request mapping) *)

(** [String(n)] for a number of the domain model. *)
Class NumberPrinting : Type := {
  numberToString : Q -> string
}.

Definition SERVICE_LEVEL_TO_UPS_CODE (level : ServiceLevel) : option string :=
  match level with
  | NEXT_DAY_AIR => Some "01"
  | SECOND_DAY_AIR => Some "02"
  | GROUND => Some "03"
  | EXPRESS => Some "07"
  | EXPEDITED => Some "08"
  | STANDARD => Some "11"
  | THREE_DAY_SELECT => Some "12"
  | NEXT_DAY_AIR_SAVER => Some "13"
  | NEXT_DAY_AIR_EARLY => Some "14"
  | EXPRESS_PLUS => Some "54"
  | SECOND_DAY_AIR_AM => Some "59"
  | SAVER => Some "65"
  end.

Definition PACKAGING_TYPE_TO_UPS (p : PackagingType) : string :=
  match p with
  | CUSTOM => "02"
  | LETTER => "01"
  | TUBE => "03"
  | PAK => "04"
  | SMALL_BOX => "21"
  | MEDIUM_BOX => "22"
  | LARGE_BOX => "25"
  end.

(** The string a packaging type is in the domain model. *)
Definition PackagingType_to_string (p : PackagingType) : string :=
  match p with
  | CUSTOM => "CUSTOM"
  | LETTER => "LETTER"
  | TUBE => "TUBE"
  | PAK => "PAK"
  | SMALL_BOX => "SMALL_BOX"
  | MEDIUM_BOX => "MEDIUM_BOX"
  | LARGE_BOX => "LARGE_BOX"
  end.

Definition DimensionUnit_to_string (u : DimensionUnit) : string :=
  match u with IN => "IN" | CM => "CM" end.

Definition WeightUnit_to_string (u : WeightUnit) : string :=
  match u with LBS => "LBS" | KGS => "KGS" end.

Definition mapToUpsAddress (address : Address) : UpsAddress :=
  {| AddressLine := addressLines address;
     City := city address;
     StateProvinceCode := stateCode address;
     PostalCode := postalCode address;
     CountryCode := countryCode address;
     ResidentialAddressIndicator :=
       match isResidential address with
       | Some true => Some "Y"
       | _ => None
       end |}.

Section RequestMapper.
Context {pr : NumberPrinting}.

Definition mapToUpsPackage (pkg : Package) : UpsPackage :=
  {| PackagingTypeOf :=
       {| WireCode := match packagingType pkg with
                      | Some p => PACKAGING_TYPE_TO_UPS p
                      | None => "02"
                      end;
          WireDescription := match packagingType pkg with
                             | Some p => PackagingType_to_string p
                             | None => "Customer Supplied Package"
                             end |};
     Dimensions :=
       Some {| DimensionsUnit :=
                 {| WireCode := DimensionUnit_to_string (dim_unit (dimensions pkg));
                    WireDescription := match dim_unit (dimensions pkg) with
                                       | IN => "Inches"
                                       | CM => "Centimeters"
                                       end |};
               Length := numberToString (dim_length (dimensions pkg));
               Width := numberToString (dim_width (dimensions pkg));
               Height := numberToString (dim_height (dimensions pkg)) |};
     PackageWeightOf :=
       {| PackageWeightUnit :=
            {| WireCode := WeightUnit_to_string (weight_unit (weight pkg));
               WireDescription := match weight_unit (weight pkg) with
                                  | LBS => "Pounds"
                                  | KGS => "Kilograms"
                                  end |};
          PackageWeightValue := numberToString (weight_value (weight pkg)) |};
     PackageServiceOptions :=
       match declaredValue pkg with
       | Some v =>
           Some {| DeclaredValue :=
                     Some {| CurrencyCode := currency v;
                             MonetaryValue := numberToString (amount v) |} |}
       | None => None
       end |}.

(** Map a domain RateRequest into a UPS-specific RateRequest payload. *)
Definition mapToUpsRateRequest (request : RateRequest) (accountNumber : string)
  : UpsRateRequest :=
  let requestOption := match serviceLevel request with
                       | Some _ => "Rate"
                       | None => "Shop"
                       end in
  let account := match shipperAccountNumber request with
                 | Some a => a
                 | None => accountNumber
                 end in
  {| Request := {| RequestOption := requestOption;
                   CustomerContext := Some "CybershipCIS Rating" |};
     Shipment :=
       {| Shipper := {| ShipperName := name (origin request);
                        ShipperNumber := account;
                        ShipperAddress := mapToUpsAddress (origin request) |};
          ShipTo := {| ShipToName := name (destination request);
                       ShipToAddress := mapToUpsAddress (destination request) |};
          ShipFrom := {| ShipFromName := name (origin request);
                         ShipFromAddress := mapToUpsAddress (origin request) |};
          ShipmentService :=
            match serviceLevel request with
            | Some level =>
                match SERVICE_LEVEL_TO_UPS_CODE level with
                | Some (String _ _ as serviceCode) =>
                    Some {| Code := serviceCode;
                            Description := table_lookup serviceCode UPS_SERVICE_NAMES |}
                | _ => None
                end
            | None => None
            end;
          ShipmentPackage := map mapToUpsPackage (packages request);
          PaymentDetails :=
            Some [ {| ChargeType := "01";
                      BillShipperAccountNumber := account |} ] |} |}.
End RequestMapper.

(** ** carriers/registry (the remaining lookups) *)

Section RegistryLookups.
Variable W : Type.

(** [ids.map((id) => this.get(id))]: the first unregistered id throws. *)
Fixpoint getByIds (reg : CarrierRegistry W) (ids : list CarrierId) (now : Z)
  : Result (list (CarrierProvider W)) CarrierError :=
  match ids with
  | [] => Ok []
  | id :: rest =>
      match registry_get reg id now with
      | Err e => Err e
      | Ok provider =>
          match getByIds reg rest now with
          | Err e => Err e
          | Ok providers => Ok (provider :: providers)
          end
      end
  end.

Definition listCarrierIds (reg : CarrierRegistry W) : list CarrierId :=
  map fst reg.
End RegistryLookups.

(** ** Vocabulary of the properties *)

Definition callEvent (ct : Caller * Z) : AuthEvent :=
  CallGetAccessToken (fst ct) (snd ct).

(** The body has the shape [{response: {errors: [first, ...]}}]. *)
Definition has_error_list (body first : JsValue) : Prop :=
  exists fields rfields rest,
    body = JsObj fields
    /\ lookup_field "response" fields = JsObj rfields
    /\ lookup_field "errors" rfields = JsArr (first :: rest).

(** What [extractUpsError] makes of a first entry that is an object. *)
Definition renderedUpsError (ffields : list (string * JsValue)) : string * string :=
  match js_String (js_nullish_or (lookup_field "code" ffields) (JsStr "UNKNOWN")),
        js_String (js_nullish_or (lookup_field "message" ffields)
                                 (JsStr "Unknown UPS error")) with
  | Some upsCode, Some upsMessage => (upsCode, upsMessage)
  | _, _ => unknownUpsError
  end.

(** The path that [getRates] posts to. *)
Definition ratingPath (apiVersion : string) (request : RateRequest) : string :=
  "/api/rating/" ++ apiVersion ++ "/"
  ++ match serviceLevel request with
     | Some _ => "Rate"
     | None => "Shop"
     end.

Definition totalAmount (q : RateQuote) : JsNumber := amount (totalCharges q).

(** A comparator that is the difference of a numeric key, as
    [byTotalCharges] is. *)
Definition compareBy (A : Type) (key : A -> JsNumber) (a b : A) : JsNumber :=
  js_sub (key a) (key b).

(** [a <= b]: NaN is not comparable with anything, itself included. *)
Definition js_le (a b : JsNumber) : Prop :=
  match a, b with
  | NaN, _ | _, NaN => False
  | NegInfinity, _ | _, PosInfinity => True
  | Finite x, Finite y => (x <= y)%Q
  | _, _ => False
  end.

(** [a === b] on numbers: NaN equals nothing, itself included. *)
Definition js_eqb (a b : JsNumber) : bool :=
  match a, b with
  | Finite x, Finite y => Qeq_bool x y
  | NegInfinity, NegInfinity | PosInfinity, PosInfinity => true
  | _, _ => false
  end.

(** [v > 0], as a proposition. *)
Definition greaterThanZero (v : JsNumber) : Prop :=
  match v with
  | Finite q => (0 < q)%Q
  | PosInfinity => True
  | NaN | NegInfinity => False
  end.

(** The total-charge amount is a number. *)
Definition numericTotal (q : RateQuote) : Prop := totalAmount q <> NaN.

(** Sorted by total-charge amount, ascending. *)
Definition ascending (l : list RateQuote) : Prop :=
  StronglySorted (fun a b => js_le (totalAmount a) (totalAmount b)) l.

(** Quotes with equal total-charge amounts are in the same order in [after]
    as in [before]. *)
Definition ties_keep_order (before after : list RateQuote) : Prop :=
  forall v : JsNumber,
    filter (fun q => js_eqb (totalAmount q) v) after
    = filter (fun q => js_eqb (totalAmount q) v) before.

(** The rated shipments a response reports, in the carrier's order. *)
Definition reportedShipments (resp : option UpsRateResponse) : list UpsRatedShipment :=
  match resp with
  | Some {| RateResponseBody := Some {| RatedShipment := Several xs |} |} => xs
  | Some {| RateResponseBody := Some {| RatedShipment := Single x |} |} => [x]
  | _ => []
  end.

(** The callers that enter [getAccessToken] in a trace, in order. *)
Fixpoint callers_of (evs : list AuthEvent) : list Caller :=
  match evs with
  | [] => []
  | CallGetAccessToken c _ :: rest => c :: callers_of rest
  | ExchangeSettles _ _ :: rest => callers_of rest
  | AwaitersResume :: rest => callers_of rest
  end.

(** The number of settlement events of a trace. *)
Fixpoint settlements (evs : list AuthEvent) : nat :=
  match evs with
  | [] => 0%nat
  | CallGetAccessToken _ _ :: rest => settlements rest
  | ExchangeSettles _ _ :: rest => S (settlements rest)
  | AwaitersResume :: rest => settlements rest
  end.

(** 1 while a credential exchange is pending, else 0. *)
Definition pending (m : UpsAuthManager) : nat :=
  match inflightRequest m with
  | Some _ => 1%nat
  | None => 0%nat
  end.

(** The elements of a field that holds one object or an array of them. *)
Definition elements (A : Type) (field : OneOrMany A) : list A :=
  match field with
  | Missing => []
  | Single x => [x]
  | Several xs => xs
  end.


(** The service code names a member that every object inherits. *)
Definition namesInheritedMember (c : string) : bool :=
  existsb (String.eqb c) Object_prototype_members.


(** The surcharge the mapper makes of an itemized charge. *)
Definition surchargeOf {np : NumberParsing} (charge : UpsItemizedCharge) : Surcharge :=
  {| surchargeCode := ItemizedCode charge;
     surchargeDescription := match ItemizedDescription charge with
                             | Some d => d
                             | None => "Surcharge " ++ ItemizedCode charge
                             end;
     surchargeAmount := {| amount := parseFloat (ItemizedMonetaryValue charge);
                           currency := ItemizedCurrencyCode charge |} |}.

(** A registry filled by registering the providers [ps] one after the
    other, as [createRateShoppingService] does; the first failure stops. *)
Fixpoint registerAll (W : Type) (reg : CarrierRegistry W) (ps : list (CarrierProvider W))
  (now : Z) : Result (CarrierRegistry W) CarrierError :=
  match ps with
  | [] => Ok reg
  | p :: rest =>
      match register reg p now with
      | Ok reg' => registerAll reg' rest now
      | Err e => Err e
      end
  end.

(** Every entry is stored under the id of its provider, and no id occurs
    twice. *)
Definition keyed_by_id (W : Type) (reg : CarrierRegistry W) : Prop :=
  NoDup (map fst reg) /\ Forall (fun kp => fst kp = carrierId (snd kp)) reg.

Definition supportsRate (W : Type) (p : CarrierProvider W) : bool :=
  existsb (CarrierOperation_eqb rate) (supportedOperations p).

(** The error of [get] for an id that is not registered. *)
Definition carrierUnavailable (id : CarrierId) (now : Z) : CarrierError :=
  {| code := CARRIER_UNAVAILABLE;
     message := "Carrier " ++ CarrierId_to_string id ++ " is not registered";
     carrier := Some id;
     httpStatus := None;
     carrierErrorCode := None;
     carrierErrorMessage := None;
     retryable := false;
     retryAfterMs := None;
     timestamp := now |}.

(** The constraints of the request schema, as a decision. *)
Definition validAddress (a : Address) : bool :=
  (1 <=? String.length (name a))%nat
  && (1 <=? List.length (addressLines a))%nat
  && (List.length (addressLines a) <=? 3)%nat
  && forallb (fun line => (1 <=? String.length line)%nat) (addressLines a)
  && (1 <=? String.length (city a))%nat
  && (2 <=? String.length (stateCode a))%nat
  && (String.length (stateCode a) <=? 5)%nat
  && (1 <=? String.length (postalCode a))%nat
  && (String.length (countryCode a) =? 2)%nat.

Definition validPackage (p : Package) : bool :=
  Qpositive (dim_length (dimensions p))
  && Qpositive (dim_width (dimensions p))
  && Qpositive (dim_height (dimensions p))
  && Qpositive (weight_value (weight p))
  && match declaredValue p with
     | Some v => Qle_bool 0 (amount v) && (String.length (currency v) =? 3)%nat
     | None => true
     end.

Definition validRateRequest (r : RateRequest) : bool :=
  validAddress (origin r)
  && validAddress (destination r)
  && (1 <=? List.length (packages r))%nat
  && (List.length (packages r) <=? 50)%nat
  && forallb validPackage (packages r).

(** ** Fixtures *)

Definition testAuthConfig : UpsAuthConfig :=
  {| clientId := "test_client_id";
     clientSecret := "test_client_secret";
     authBaseUrl := "https://onlinetools.ups.com";
     authTimeout := 10000 |}.

(** The digits of a string that is the decimal notation of [n]. *)
Definition digits (n : N) : Decimal.uint := N.to_uint n.

Definition upsTokenResponse : TokenResponse :=
  {| access_token := Some "test_access_token_12345";
     token_type := Some "Bearer";
     expires_in := Some (SecondsString (digits 14399)) |}.

(** The token that [upsTokenResponse] yields when it arrives at instant 1200. *)
Definition testToken : TokenData :=
  {| accessToken := "test_access_token_12345";
     expiresAt := 14400200;
     tokenType := "Bearer" |}.

Definition rejected401 : HttpResult TokenBody :=
  HttpThrow (ThrownAxios
    {| errCode := Some "ERR_BAD_REQUEST";
       errMessage := "Request failed with status code 401";
       response := Some {| status := 401; data := JsUndefined;
                           retryAfterHeader := None |} |}).

Definition testClientConfig : UpsClientConfig :=
  {| baseUrl := "https://onlinetools.ups.com";
     defaultsTimeout := Some 10000;
     transactionSource := "CybershipCIS" |}.

Definition upsError401Response : JsValue :=
  JsObj [("response",
          JsObj [("errors",
                  JsArr [JsObj [("code", JsStr "250003");
                                ("message", JsStr "Invalid Access License number")]])])].

Definition unauthorized : Thrown :=
  ThrownAxios
    {| errCode := Some "ERR_BAD_REQUEST";
       errMessage := "Request failed with status code 401";
       response := Some {| status := 401; data := upsError401Response;
                           retryAfterHeader := None |} |}.

(** A carrier that issues [token_v1], then [token_v2], and rejects the bearer
    [token_v1] with HTTP 401. *)
Definition rotatingUpstream : Upstream unit string :=
  {| tokenEndpoint := fun k =>
       (1000 + Z.of_nat k,
        HttpOk 200
          (BodyObject
             {| access_token := Some (if Nat.eqb k 0 then "token_v1" else "token_v2");
                token_type := Some "Bearer";
                expires_in := Some (SecondsString (digits 14399)) |}));
     apiEndpoint := fun k _ _ bearer =>
       (2000 + Z.of_nat k,
        if String.eqb bearer "token_v1" then HttpThrow unauthorized
        else HttpOk 200 "rates") |}.

(** A carrier that rejects every API call with HTTP 401. *)
Definition rejectingUpstream : Upstream unit string :=
  {| tokenEndpoint := tokenEndpoint rotatingUpstream;
     apiEndpoint := fun k _ _ _ => (2000 + Z.of_nat k, HttpThrow unauthorized) |}.

Definition freshWire : Wire :=
  {| session := {| auth := newUpsAuthManager; clock := 0; tokenPosts := 0 |};
     apiPosts := 0;
     attempts := 0 |}.

Definition upsError400Entry : list (string * JsValue) :=
  [("code", JsStr "111210");
   ("message",
    JsStr "The requested service is invalid for the selected shipper and consignee locations.")].

Definition upsError400Response : JsValue :=
  JsObj [("response", JsObj [("errors", JsArr [JsObj upsError400Entry])])].

Definition badRequest : AxiosError :=
  {| errCode := Some "ERR_BAD_REQUEST";
     errMessage := "Request failed with status code 400";
     response := Some {| status := 400; data := upsError400Response;
                         retryAfterHeader := None |} |}.

(** An HTTP 500 whose body is not JSON of the error shape. *)
Definition serverErrorNoBody : AxiosError :=
  {| errCode := Some "ERR_BAD_RESPONSE";
     errMessage := "Request failed with status code 500";
     response := Some {| status := 500; data := JsStr "Internal Server Error";
                         retryAfterHeader := None |} |}.

(** A reader of plain decimal notation (sign, digits, fraction), to run the
    model on the fixtures of the test suite; a string that does not start
    with such a number reads as NaN. *)
Fixpoint read_digits (s : string) (acc : Z) (count : nat) : Z * nat * string :=
  match s with
  | String c rest =>
      let n := nat_of_ascii c in
      if (48 <=? n)%nat && (n <=? 57)%nat
      then read_digits rest (acc * 10 + Z.of_nat (n - 48)) (S count)
      else (acc, count, s)
  | EmptyString => (acc, count, s)
  end.

Definition read_unsigned_decimal (s : string) : option Q :=
  let '(int_part, n, rest) := read_digits s 0 0 in
  match rest with
  | String "."%char fraction =>
      let '(frac_part, k, _) := read_digits fraction 0 0 in
      match n, k with
      | O, O => None
      | _, _ =>
          Some (Qred (Qmake (int_part * 10 ^ Z.of_nat k + frac_part)
                            (Z.to_pos (10 ^ Z.of_nat k))))
      end
  | _ =>
      match n with
      | O => None
      | S _ => Some (inject_Z int_part)
      end
  end.

Definition read_decimal (s : string) : JsNumber :=
  match s with
  | String "-"%char rest =>
      match read_unsigned_decimal rest with
      | Some q => Finite (Qopp q)
      | None => NaN
      end
  | _ =>
      match read_unsigned_decimal s with
      | Some q => Finite q
      | None => NaN
      end
  end.

Definition read_unsigned_integer (s : string) : JsNumber :=
  let '(value, n, _) := read_digits s 0 0 in
  match n with
  | O => NaN
  | S _ => Finite (inject_Z value)
  end.

Definition read_integer (s : string) : JsNumber :=
  match s with
  | String "-"%char rest =>
      match read_unsigned_integer rest with
      | Finite q => Finite (Qopp q)
      | other => other
      end
  | _ => read_unsigned_integer s
  end.

#[local] Instance decimalParsing : NumberParsing :=
  {| parseFloat := read_decimal; parseInt10 := read_integer |}.

Definition usd (value : string) : UpsCharges :=
  {| CurrencyCode := "USD"; MonetaryValue := value |}.

Definition sixPounds : UpsBillingWeight :=
  {| UnitOfMeasurement := Given {| UnitOfMeasurementCode := "LBS" |};
     Weight := "6.0" |}.

(** A rated shipment in the style of the test fixtures. *)
Definition ratedShipment (serviceCode : string) (description : option string)
  (total : string) : UpsRatedShipment :=
  {| Service := Given {| Code := serviceCode; Description := description |};
     BillingWeight := Given sixPounds;
     TransportationCharges := Given (usd total);
     TotalCharges := Given (usd total);
     GuaranteedDelivery := None;
     ItemizedCharges := Missing;
     TimeInTransit := None |}.

(** The quote of a rated shipment of the fixtures. *)
Definition quoteOf {np : NumberParsing} (rated : UpsRatedShipment) : list RateQuote :=
  match mapFromUpsRatedShipment rated with
  | Ok quote => [quote]
  | Err _ => []
  end.

(** The messages of the validation library in English. *)
#[local] Instance zodEnglish : ZodLocale :=
  {| defaultIssueMessage := fun issue =>
       match issue with
       | StringTooSmall n =>
           "String must contain at least " ++ string_of_Z (Z.of_nat n) ++ " character(s)"
       | StringTooBig n =>
           "String must contain at most " ++ string_of_Z (Z.of_nat n) ++ " character(s)"
       | NumberTooSmall _ => "Number must be greater than or equal to 0"
       end |}.

Definition sampleRateRequest : RateRequest :=
  {| origin := {| name := "Test Shipper";
                  addressLines := ["123 Main St"];
                  city := "San Francisco";
                  stateCode := "CA";
                  postalCode := "94105";
                  countryCode := "US";
                  isResidential := None |};
     destination := {| name := "Test Customer";
                       addressLines := ["456 Oak Ave"];
                       city := "New York";
                       stateCode := "NY";
                       postalCode := "10001";
                       countryCode := "US";
                       isResidential := Some true |};
     packages := [ {| dimensions := {| dim_length := 12; dim_width := 8;
                                       dim_height := 6; dim_unit := IN |};
                      weight := {| weight_value := 5.5; weight_unit := LBS |};
                      packagingType := None;
                      declaredValue := None |} ];
     serviceLevel := None;
     carriers := None;
     shipperAccountNumber := None |}.

Definition withPackages (r : RateRequest) (ps : list Package) : RateRequest :=
  {| origin := origin r; destination := destination r; packages := ps;
     serviceLevel := serviceLevel r; carriers := carriers r;
     shipperAccountNumber := shipperAccountNumber r |}.

Definition withCarriers (r : RateRequest) (cs : option (list CarrierId)) : RateRequest :=
  {| origin := origin r; destination := destination r; packages := packages r;
     serviceLevel := serviceLevel r; carriers := cs;
     shipperAccountNumber := shipperAccountNumber r |}.

(** The shop response of the test suite, in the order 28.75, 15.50, 45.00,
    followed by a second service at 15.50. *)
Definition shopShipments : list UpsRatedShipment :=
  [ ratedShipment "02" (Some "UPS 2nd Day Air") "28.75";
    ratedShipment "03" (Some "UPS Ground") "15.50";
    ratedShipment "01" (Some "UPS Next Day Air") "45.00";
    ratedShipment "93" (Some "UPS Sure Post") "15.50" ].

Definition shopResponse : option UpsRateResponse :=
  Some {| RateResponseBody := Some {| RatedShipment := Several shopShipments |} |}.

(** A carrier whose API answers every call with the shop response. *)
Definition shopUpstream : Upstream (RateRequest * string) (option UpsRateResponse) :=
  {| tokenEndpoint := fun k => (1000 + Z.of_nat k, HttpOk 200 (BodyObject upsTokenResponse));
     apiEndpoint := fun k _ _ _ => (2000 + Z.of_nat k, HttpOk 200 shopResponse) |}.

(** The quotes of the shop response, in the carrier's order. *)
Definition shopQuotes : list RateQuote := flat_map quoteOf shopShipments.

Definition testUpsCarrier : CarrierProvider Wire :=
  UpsCarrier testAuthConfig testClientConfig shopUpstream "A1B2C3" "v2409".

(** A provider that rejects every call, as the mocks of the test suite do. *)
Definition failingCarrier (id : CarrierId) (reason : Thrown) : CarrierProvider Wire :=
  {| carrierId := id;
     carrierName := "Mock";
     supportedOperations := [rate];
     getRates := fun _ w =>
       (Err reason, {| session := session w; apiPosts := S (apiPosts w);
                       attempts := attempts w |}) |}.

Definition fedexDown : CarrierError :=
  networkError FEDEX "FedEx is down" 0.

Definition upsOnly : CarrierRegistry Wire := [(UPS, testUpsCarrier)].

Definition upsAndFedex : CarrierRegistry Wire :=
  [(UPS, testUpsCarrier); (FEDEX, failingCarrier FEDEX (ThrownError "boom"))].

Definition allDown : CarrierRegistry Wire :=
  [(FEDEX, failingCarrier FEDEX (ThrownCarrier fedexDown));
   (USPS, failingCarrier USPS (ThrownError "boom"))].


(** An error body whose list has a null first entry, and one whose list has
    two entries, the first without a message. *)
Definition upsErrorNullEntry : JsValue :=
  JsObj [("response", JsObj [("errors", JsArr [JsNull; JsObj upsError400Entry])])].

Definition upsErrorTwoEntries : JsValue :=
  JsObj [("response",
          JsObj [("errors", JsArr [JsObj [("code", JsNum "9250")];
                                   JsObj upsError400Entry])])].

(** An error body whose first entry has an object as code, with a property
    named [toString]. *)
Definition upsErrorOddCode : JsValue :=
  JsObj [("response",
          JsObj [("errors",
                  JsArr [JsObj [("code", JsObj [("toString", JsNum "1")]);
                                ("message", JsStr "Invalid Access License number")]])])].

Definition badRequestOddCode : AxiosError :=
  {| errCode := Some "ERR_BAD_REQUEST";
     errMessage := "Request failed with status code 400";
     response := Some {| status := 400; data := upsErrorOddCode;
                         retryAfterHeader := None |} |}.

(** A wire whose manager holds [testToken], at instant 5000. *)
Definition warmWire : Wire :=
  {| session := {| auth := {| token := Some testToken; inflightRequest := None |};
                   clock := 5000; tokenPosts := 1 |};
     apiPosts := 0;
     attempts := 0 |}.

(** A carrier that rejects the bearer of [testToken] with HTTP 401 and
    issues [token_v2] at the next exchange. *)
Definition staleUpstream : Upstream unit string :=
  {| tokenEndpoint := fun k =>
       (6000, HttpOk 200 (BodyObject {| access_token := Some "token_v2";
                                        token_type := Some "Bearer";
                                        expires_in := Some (SecondsNumber 14399) |}));
     apiEndpoint := fun k _ _ bearer =>
       (5500 + Z.of_nat k,
        if String.eqb bearer "token_v2" then HttpOk 200 "rates"
        else HttpThrow unauthorized) |}.

(** A carrier whose credential exchange is rejected with HTTP 401. *)
Definition lockedUpstream : Upstream unit string :=
  {| tokenEndpoint := fun k => (1200, rejected401);
     apiEndpoint := fun k _ _ _ => (2000, HttpOk 200 "rates") |}.

Definition fuelSurcharge : UpsItemizedCharge :=
  {| ItemizedCode := "375"; ItemizedDescription := Some "Fuel Surcharge";
     ItemizedCurrencyCode := "USD"; ItemizedMonetaryValue := "1.50" |}.

Definition zeroSurcharge : UpsItemizedCharge :=
  {| ItemizedCode := "376"; ItemizedDescription := None;
     ItemizedCurrencyCode := "USD"; ItemizedMonetaryValue := "0.00" |}.

(** A rated shipment with an empty guaranteed transit time and a
    time-in-transit estimate of 3 days. *)
Definition estimatedShipment : UpsRatedShipment :=
  {| Service := Given {| Code := "03"; Description := None |};
     BillingWeight := Given sixPounds;
     TransportationCharges := Given (usd "15.50");
     TotalCharges := Given (usd "15.50");
     GuaranteedDelivery := Some {| GuaranteedBusinessDaysInTransit := Some "";
                                   DeliveryByTime := None |};
     ItemizedCharges := Several [zeroSurcharge; fuelSurcharge];
     TimeInTransit :=
       Some {| ServiceSummary :=
                 Some {| EstimatedArrival :=
                           Some {| Arrival := None;
                                   BusinessDaysInTransit := Some "3" |} |} |} |}.

(** [String(n)] on the numbers of the fixtures. *)
#[local] Instance fixturePrinting : NumberPrinting :=
  {| numberToString := fun q =>
       if Qeq_bool q 12 then "12"
       else if Qeq_bool q 8 then "8"
       else if Qeq_bool q 6 then "6"
       else if Qeq_bool q 5.5 then "5.5"
       else string_of_Z (Qnum q) ++ "/" ++ string_of_Z (Zpos (Qden q)) |}.

Definition withServiceLevel (r : RateRequest) (l : option ServiceLevel) : RateRequest :=
  {| origin := origin r; destination := destination r; packages := packages r;
     serviceLevel := l; carriers := carriers r;
     shipperAccountNumber := shipperAccountNumber r |}.

Definition emptyRegistry : CarrierRegistry Wire := [].

(** A provider that prints labels and tracks, and quotes no rates. *)
Definition labelCarrier (id : CarrierId) : CarrierProvider Wire :=
  {| carrierId := id;
     carrierName := "Labels only";
     supportedOperations := [label; tracking];
     getRates := fun _ w =>
       (Err (ThrownError "not supported"),
        {| session := session w; apiPosts := S (apiPosts w);
           attempts := attempts w |}) |}.

(** UPS, a provider without the rate operation, and a mock that rejects. *)
Definition mixedRegistry : CarrierRegistry Wire :=
  [(UPS, testUpsCarrier); (DHL, labelCarrier DHL);
   (FEDEX, failingCarrier FEDEX (ThrownError "boom"))].

(** A shop response whose second shipment carries an amount that is not a
    number. *)
Definition oddAmountShipments : list UpsRatedShipment :=
  [ ratedShipment "02" None "20.00";
    ratedShipment "03" None "N/A";
    ratedShipment "01" None "10.00" ].

Definition oddAmountResponse : option UpsRateResponse :=
  Some {| RateResponseBody := Some {| RatedShipment := Several oddAmountShipments |} |}.


(** The same address as the origin of [sampleRateRequest] under another
    name, marked as not residential. *)
Definition warehouse : Address :=
  {| name := "Warehouse 7";
     addressLines := ["123 Main St"];
     city := "San Francisco";
     stateCode := "CA";
     postalCode := "94105";
     countryCode := "US";
     isResidential := Some false |}.

Definition fedexMock : CarrierProvider Wire := failingCarrier FEDEX (ThrownError "boom").

Definition letterPackage : Package :=
  {| dimensions := {| dim_length := 12; dim_width := 8; dim_height := 6; dim_unit := IN |};
     weight := {| weight_value := 5.5; weight_unit := LBS |};
     packagingType := Some LETTER;
     declaredValue := None |}.

Definition customPackage : Package :=
  {| dimensions := {| dim_length := 12; dim_width := 8; dim_height := 6; dim_unit := CM |};
     weight := {| weight_value := 5.5; weight_unit := KGS |};
     packagingType := Some CUSTOM;
     declaredValue := None |}.

Definition plainPackage : Package :=
  {| dimensions := {| dim_length := 12; dim_width := 8; dim_height := 6; dim_unit := IN |};
     weight := {| weight_value := 5.5; weight_unit := LBS |};
     packagingType := None;
     declaredValue := None |}.

(** * Properties *)

(** ** Token manager *)

Lemma cachedAccessToken_valid :
  forall now m, cachedAccessToken now m = None <-> hasValidToken now m = false.
Proof.
  intros now m. unfold cachedAccessToken, hasValidToken.
  destruct (token m) as [t|]; [|tauto].
  destruct (isExpired now t); simpl; split; congruence.
Qed.

Lemma cachedAccessToken_fresh :
  forall now m tk,
    token m = Some tk ->
    now < expiresAt tk - EXPIRY_BUFFER_MS ->
    cachedAccessToken now m = Some (accessToken tk).
Proof.
  intros now m tk Htk Hfresh. unfold cachedAccessToken, isExpired.
  rewrite Htk.
  destruct (Z.geb_spec now (expiresAt tk - EXPIRY_BUFFER_MS)); [lia | reflexivity].
Qed.

(** Calls that find a fresh token return it and change nothing else. *)
Lemma run_cached_calls :
  forall cfg tk calls s,
    token (manager s) = Some tk ->
    Forall (fun ct => snd ct < expiresAt tk - EXPIRY_BUFFER_MS) calls ->
    auth_run cfg s (map callEvent calls)
    = {| manager := manager s;
         awaiting := awaiting s;
         resuming := resuming s;
         exchanges := exchanges s;
         returned := (returned s
                      ++ map (fun ct => (fst ct, Ok (accessToken tk))) calls)%list |}.
Proof.
  intros cfg tk calls. induction calls as [|[c now] calls IH]; intros s Htk Hall.
  - simpl. rewrite app_nil_r. destruct s; reflexivity.
  - inversion Hall as [|? ? Hnow Hrest]; subst. simpl in Hnow.
    simpl. unfold getAccessToken_enter.
    rewrite (cachedAccessToken_fresh _ Htk Hnow).
    rewrite IH; [|exact Htk|exact Hrest].
    simpl. rewrite <- app_assoc. reflexivity.
Qed.

(** Calls that find no valid token while an exchange is pending join it. *)
Lemma run_joining_calls :
  forall cfg calls s k,
    inflightRequest (manager s) = Some k ->
    Forall (fun ct => hasValidToken (snd ct) (manager s) = false) calls ->
    auth_run cfg s (map callEvent calls)
    = {| manager := manager s;
         awaiting := (awaiting s ++ map fst calls)%list;
         resuming := resuming s;
         exchanges := exchanges s;
         returned := returned s |}.
Proof.
  intros cfg calls. induction calls as [|[c now] calls IH]; intros s k Hin Hall.
  - simpl. rewrite app_nil_r. destruct s; reflexivity.
  - inversion Hall as [|? ? Hnow Hrest]; subst. simpl in Hnow.
    apply cachedAccessToken_valid in Hnow.
    simpl. unfold getAccessToken_enter. rewrite Hnow, Hin.
    rewrite (IH _ k); [|exact Hin|exact Hrest].
    simpl. rewrite <- app_assoc. reflexivity.
Qed.

(** Callers that resume with a token store it and return its credential. *)
Lemma resume_all_ok :
  forall td cs s,
    fold_left getAccessToken_resume (map (fun c => (c, Ok td)) cs) s
    = {| manager := match cs with
                    | [] => manager s
                    | _ :: _ => {| token := Some td;
                                   inflightRequest := inflightRequest (manager s) |}
                    end;
         awaiting := awaiting s;
         resuming := resuming s;
         exchanges := exchanges s;
         returned := (returned s ++ map (fun c => (c, Ok (accessToken td))) cs)%list |}.
Proof.
  intros td cs. induction cs as [|c cs IH]; intros s.
  - simpl. rewrite app_nil_r. destruct s; reflexivity.
  - simpl. rewrite IH. simpl. rewrite <- app_assoc. simpl.
    destruct cs; reflexivity.
Qed.

(** Callers that resume with an error raise it and store nothing. *)
Lemma resume_all_err :
  forall e cs s,
    fold_left getAccessToken_resume (map (fun c => (c, Err e)) cs) s
    = {| manager := manager s;
         awaiting := awaiting s;
         resuming := resuming s;
         exchanges := exchanges s;
         returned := (returned s ++ map (fun c => (c, Err e)) cs)%list |}.
Proof.
  intros e cs. induction cs as [|c cs IH]; intros s.
  - simpl. rewrite app_nil_r. destruct s; reflexivity.
  - simpl. rewrite IH. simpl. rewrite <- app_assoc. reflexivity.
Qed.

(** Resuming changes neither the slot nor the counters, and returns every
    resumed caller. *)
Lemma resume_all_frame :
  forall rs s,
    let s' := fold_left getAccessToken_resume rs s in
    inflightRequest (manager s') = inflightRequest (manager s)
    /\ awaiting s' = awaiting s
    /\ resuming s' = resuming s
    /\ exchanges s' = exchanges s
    /\ map fst (returned s') = (map fst (returned s) ++ map fst rs)%list.
Proof.
  induction rs as [|[c [td|e]] rs IH]; intros s; cbn [fold_left].
  - rewrite app_nil_r. repeat split.
  - destruct (IH (getAccessToken_resume s (c, Ok td))) as (H1 & H2 & H3 & H4 & H5).
    cbv zeta. rewrite H1, H2, H3, H4, H5.
    cbn [getAccessToken_resume snd fst manager inflightRequest awaiting resuming
         exchanges returned].
    rewrite map_app, <- app_assoc. repeat split.
  - destruct (IH (getAccessToken_resume s (c, Err e))) as (H1 & H2 & H3 & H4 & H5).
    cbv zeta. rewrite H1, H2, H3, H4, H5.
    cbn [getAccessToken_resume snd fst manager inflightRequest awaiting resuming
         exchanges returned].
    rewrite map_app, <- app_assoc. repeat split.
Qed.

(** The first of several callers that find no valid token and no pending
    exchange posts one; the others wait for it. *)
Lemma run_concurrent_calls :
  forall cfg m n c now calls,
    inflightRequest m = None ->
    hasValidToken now m = false ->
    Forall (fun ct => hasValidToken (snd ct) m = false) calls ->
    auth_run cfg (idleLoop m n) (map callEvent ((c, now) :: calls))
    = {| manager := {| token := token m; inflightRequest := Some n |};
         awaiting := c :: map fst calls;
         resuming := [];
         exchanges := S n;
         returned := [] |}.
Proof.
  intros cfg m n c now calls Hidle Hnow Hall.
  apply cachedAccessToken_valid in Hnow.
  cbn [map auth_run fold_left callEvent fst snd auth_step].
  unfold getAccessToken_enter. cbn [idleLoop manager]. rewrite Hnow, Hidle.
  change (fold_left (auth_step cfg) (map callEvent calls) ?s)
    with (auth_run cfg s (map callEvent calls)).
  rewrite (@run_joining_calls cfg calls _ n); [reflexivity|reflexivity|].
  cbn [manager awaiting exchanges returned app].
  eapply Forall_impl; [|exact Hall].
  intros ct H. unfold hasValidToken in *. exact H.
Qed.

(** The awaited [getAccessToken] of a lone caller is the event loop run on
    its call and, when it had to wait, on the settlement it waited for and
    on its resumption. *)
Lemma getAccessToken_as_events :
  forall cfg tokenEndpoint s c,
    let before := idleLoop (auth s) (tokenPosts s) in
    let result := getAccessToken cfg tokenEndpoint s in
    (forall tok,
        cachedAccessToken (clock s) (auth s) = Some tok ->
        result = (Ok tok, s)
        /\ returned (auth_step cfg before (CallGetAccessToken c (clock s))) = [(c, Ok tok)])
    /\
    (cachedAccessToken (clock s) (auth s) = None ->
     let k := match inflightRequest (auth s) with
              | Some k => k
              | None => tokenPosts s
              end in
     let after := auth_run cfg before
                    [CallGetAccessToken c (clock s);
                     ExchangeSettles (snd (tokenEndpoint k)) (fst (tokenEndpoint k));
                     AwaitersResume] in
     returned after = [(c, fst result)]
     /\ manager after = auth (snd result)
     /\ exchanges after = tokenPosts (snd result)
     /\ clock (snd result) = fst (tokenEndpoint k)).
Proof.
  intros cfg ep s c before result. subst before result. split.
  - intros tok Hc. unfold getAccessToken, auth_step, getAccessToken_enter.
    cbn [idleLoop manager returned app]. rewrite Hc. split; reflexivity.
  - intros Hc. cbv zeta. unfold getAccessToken.
    cbn [auth_run fold_left auth_step]. unfold getAccessToken_enter.
    cbn [idleLoop manager]. rewrite Hc.
    destruct (inflightRequest (auth s)) as [k|] eqn:Hin;
      unfold awaiters_resume, exchange_settles;
      cbn [manager inflightRequest awaiting resuming app map];
      rewrite ?Hin;
      match goal with
      | |- context [ep ?i] => destruct (ep i) as [t reply]
      end;
      cbn [fst snd]; destruct (acquireToken cfg reply t) as [td|e];
      cbn [fold_left getAccessToken_resume manager token inflightRequest awaiting
           resuming exchanges returned app fst snd auth tokenPosts clock];
      repeat split.
Qed.

Lemma auth_run_app :
  forall cfg s evs1 evs2,
    auth_run cfg s (evs1 ++ evs2) = auth_run cfg (auth_run cfg s evs1) evs2.
Proof. intros. unfold auth_run. apply fold_left_app. Qed.

(** What the settlement of the exchange that [c :: waiting] await, followed
    by their resumption, leaves. *)
Lemma settle_then_resume :
  forall cfg m n c waiting reply t,
    let pending := {| manager := {| token := token m; inflightRequest := Some n |};
                      awaiting := c :: waiting;
                      resuming := [];
                      exchanges := S n;
                      returned := [] |} in
    let settled := auth_step cfg pending (ExchangeSettles reply t) in
    let resumed := auth_step cfg settled AwaitersResume in
    settled
    = {| manager := {| token := token m; inflightRequest := None |};
         awaiting := [];
         resuming := map (fun w => (w, acquireToken cfg reply t)) (c :: waiting);
         exchanges := S n;
         returned := [] |}
    /\ resumed
       = {| manager := {| token := match acquireToken cfg reply t with
                                   | Ok td => Some td
                                   | Err _ => token m
                                   end;
                          inflightRequest := None |};
            awaiting := [];
            resuming := [];
            exchanges := S n;
            returned := map (fun w => (w, match acquireToken cfg reply t with
                                          | Ok td => Ok (accessToken td)
                                          | Err e => Err e
                                          end)) (c :: waiting) |}.
Proof.
  intros cfg m n c waiting reply t pending settled resumed.
  assert (Hs : settled
               = {| manager := {| token := token m; inflightRequest := None |};
                    awaiting := [];
                    resuming := map (fun w => (w, acquireToken cfg reply t)) (c :: waiting);
                    exchanges := S n;
                    returned := [] |}) by reflexivity.
  split; [exact Hs|].
  subst resumed. rewrite Hs. cbn [auth_step]. unfold awaiters_resume.
  cbn [manager awaiting resuming exchanges returned].
  destruct (acquireToken cfg reply t) as [td|e].
  - rewrite resume_all_ok. reflexivity.
  - rewrite resume_all_err. reflexivity.
Qed.

(** C1.  Token caching.  While a cached token exists and is more than the
    60-second buffer away from its expiry, every call of getAccessToken
    returns the cached credential at once: no credential exchange is posted
    and the manager is unchanged.  Over a whole sequence that starts without
    a valid token, the first call posts one exchange and, once it has
    settled with a token and the caller has resumed, every later call made
    before that token enters its buffer returns the same credential:
    exactly one exchange in all. *)
Theorem token_caching :
  forall cfg n (calls : list (Caller * Z)),
    (forall m tk,
        token m = Some tk ->
        Forall (fun ct => snd ct < expiresAt tk - EXPIRY_BUFFER_MS) calls ->
        auth_run cfg (idleLoop m n) (map callEvent calls)
        = {| manager := m;
             awaiting := [];
             resuming := [];
             exchanges := n;
             returned := map (fun ct => (fst ct, Ok (accessToken tk))) calls |})
    /\
    (forall m c0 t0 reply t1 td,
        inflightRequest m = None ->
        hasValidToken t0 m = false ->
        acquireToken cfg reply t1 = Ok td ->
        Forall (fun ct => snd ct < expiresAt td - EXPIRY_BUFFER_MS) calls ->
        auth_run cfg (idleLoop m n)
          (CallGetAccessToken c0 t0 :: ExchangeSettles reply t1 :: AwaitersResume
             :: map callEvent calls)
        = {| manager := {| token := Some td; inflightRequest := None |};
             awaiting := [];
             resuming := [];
             exchanges := S n;
             returned := map (fun ct => (fst ct, Ok (accessToken td)))
                             ((c0, t0) :: calls) |}).
Proof.
  intros cfg n calls. split.
  - intros m tk Htk Hall.
    rewrite (@run_cached_calls cfg tk calls (idleLoop m n) Htk Hall).
    reflexivity.
  - intros m c0 t0 reply t1 td Hidle Hstale Hacq Hall.
    change (CallGetAccessToken c0 t0 :: ExchangeSettles reply t1 :: AwaitersResume
              :: map callEvent calls)
      with (map callEvent [(c0, t0)]
            ++ ([ExchangeSettles reply t1; AwaitersResume] ++ map callEvent calls))%list.
    rewrite !auth_run_app.
    rewrite (@run_concurrent_calls cfg m n c0 t0 [] Hidle Hstale (Forall_nil _)).
    cbn [auth_run fold_left map fst].
    rewrite (proj2 (settle_then_resume cfg m n c0 [] reply t1)), Hacq.
    change (fold_left (auth_step cfg) (map callEvent calls) ?s)
      with (auth_run cfg s (map callEvent calls)).
    rewrite (@run_cached_calls cfg td calls); [reflexivity|reflexivity|exact Hall].
Qed.

Lemma token_caching_witness :
  auth_run testAuthConfig
    (idleLoop {| token := Some testToken; inflightRequest := None |} 1)
    [CallGetAccessToken 7%nat 2000; CallGetAccessToken 8%nat 14340199]
  = {| manager := {| token := Some testToken; inflightRequest := None |};
       awaiting := [];
       resuming := [];
       exchanges := 1;
       returned := [(7%nat, Ok "test_access_token_12345");
                    (8%nat, Ok "test_access_token_12345")] |}
  /\
  auth_run testAuthConfig (idleLoop newUpsAuthManager 0)
    [CallGetAccessToken 0%nat 1000;
     ExchangeSettles (HttpOk 200 (BodyObject upsTokenResponse)) 1200;
     AwaitersResume;
     CallGetAccessToken 1%nat 2000; CallGetAccessToken 2%nat 14340199]
  = {| manager := {| token := Some testToken; inflightRequest := None |};
       awaiting := [];
       resuming := [];
       exchanges := 1;
       returned := [(0%nat, Ok "test_access_token_12345");
                    (1%nat, Ok "test_access_token_12345");
                    (2%nat, Ok "test_access_token_12345")] |}.
Proof.
  split.
  - apply (proj1 (token_caching testAuthConfig 1 [(7%nat, 2000); (8%nat, 14340199)])
             {| token := Some testToken; inflightRequest := None |} testToken).
    + reflexivity.
    + repeat constructor; simpl; unfold EXPIRY_BUFFER_MS; lia.
  - apply (proj2 (token_caching testAuthConfig 0 [(1%nat, 2000); (2%nat, 14340199)])
             newUpsAuthManager 0%nat 1000 (HttpOk 200 (BodyObject upsTokenResponse)) 1200
             testToken).
    + reflexivity.
    + reflexivity.
    + reflexivity.
    + repeat constructor; simpl; unfold EXPIRY_BUFFER_MS; lia.
Defined.

(** C2 (as the code has it).  Single flight.  When N >= 1 callers enter
    getAccessToken while no valid token is cached, nothing is pending at the
    first of them and the exchange has not settled before the last, exactly
    one credential exchange is posted and all of them wait for it.  When it
    settles the in-flight slot is cleared; when the callers resume, on
    success every caller returns the same credential and the token is
    stored; on failure every caller receives the same CarrierError, nothing
    is cached, and the next call posts a fresh exchange. *)
Theorem single_flight :
  forall cfg m n c now (calls : list (Caller * Z)) reply t,
    inflightRequest m = None ->
    hasValidToken now m = false ->
    Forall (fun ct => hasValidToken (snd ct) m = false) calls ->
    let pending := auth_run cfg (idleLoop m n) (map callEvent ((c, now) :: calls)) in
    let settled := auth_step cfg pending (ExchangeSettles reply t) in
    let resumed := auth_step cfg settled AwaitersResume in
    exchanges pending = S n /\
    returned pending = [] /\
    awaiting pending = c :: map fst calls /\
    exchanges settled = S n /\
    inflightRequest (manager settled) = None /\
    exchanges resumed = S n /\
    inflightRequest (manager resumed) = None /\
    awaiting resumed = [] /\
    resuming resumed = [] /\
    (forall td,
        acquireToken cfg reply t = Ok td ->
        returned resumed = map (fun ct => (fst ct, Ok (accessToken td))) ((c, now) :: calls)
        /\ token (manager resumed) = Some td) /\
    (forall e,
        acquireToken cfg reply t = Err e ->
        returned resumed = map (fun ct => (fst ct, Err e)) ((c, now) :: calls)
        /\ token (manager resumed) = token m
        /\ forall c' now',
            hasValidToken now' m = false ->
            let again := auth_step cfg resumed (CallGetAccessToken c' now') in
            exchanges again = S (S n)
            /\ inflightRequest (manager again) = Some (S n)
            /\ awaiting again = [c']).
Proof.
  intros cfg m n c now calls reply t Hidle Hnow Hall pending settled resumed.
  assert (Hp : pending
               = {| manager := {| token := token m; inflightRequest := Some n |};
                    awaiting := c :: map fst calls;
                    resuming := [];
                    exchanges := S n;
                    returned := [] |})
    by (apply run_concurrent_calls; assumption).
  destruct (settle_then_resume cfg m n c (map fst calls) reply t) as [Hs Hr].
  cbv zeta in Hs, Hr. rewrite <- Hp in Hs, Hr. fold settled in Hs, Hr.
  fold resumed in Hr.
  rewrite Hp, Hs, Hr.
  cbn [manager inflightRequest awaiting resuming exchanges returned token].
  do 9 (split; [reflexivity|]).
  split.
  - intros td Htd. rewrite Htd. cbn [map fst snd]. rewrite map_map.
    split; reflexivity.
  - intros e He. rewrite He. cbn [map fst snd]. rewrite map_map.
    split; [reflexivity|]. split; [reflexivity|].
    intros c' now' Hstale. apply cachedAccessToken_valid in Hstale.
    cbn [auth_step]. unfold getAccessToken_enter. cbn [manager].
    unfold cachedAccessToken in *. cbn [token]. rewrite Hstale.
    cbn [inflightRequest manager awaiting exchanges app].
    repeat split.
Qed.

Lemma single_flight_witness :
  (let pending := auth_run testAuthConfig (idleLoop newUpsAuthManager 0)
                    [CallGetAccessToken 0%nat 1000; CallGetAccessToken 1%nat 1001;
                     CallGetAccessToken 2%nat 1002] in
   let settled := auth_step testAuthConfig pending
                    (ExchangeSettles (HttpOk 200 (BodyObject upsTokenResponse)) 1200) in
   exchanges pending = 1%nat
   /\ returned (auth_step testAuthConfig settled AwaitersResume)
      = [(0%nat, Ok "test_access_token_12345");
         (1%nat, Ok "test_access_token_12345");
         (2%nat, Ok "test_access_token_12345")])
  /\
  (let pending := auth_run testAuthConfig (idleLoop newUpsAuthManager 0)
                    [CallGetAccessToken 0%nat 1000; CallGetAccessToken 1%nat 1001] in
   let failed := auth_run testAuthConfig pending
                   [ExchangeSettles rejected401 1200; AwaitersResume] in
   let e := authError UPS "Invalid client credentials" (Some 401) 1200 in
   returned failed = [(0%nat, Err e); (1%nat, Err e)]
   /\ inflightRequest (manager failed) = None
   /\ exchanges (auth_step testAuthConfig failed (CallGetAccessToken 2%nat 1300)) = 2%nat).
Proof.
  split.
  - pose proof (@single_flight testAuthConfig newUpsAuthManager 0 0%nat 1000
                  [(1%nat, 1001); (2%nat, 1002)]
                  (HttpOk 200 (BodyObject upsTokenResponse)) 1200
                  eq_refl eq_refl
                  (Forall_cons _ eq_refl (Forall_cons _ eq_refl (Forall_nil _)))) as H.
    cbv zeta in H.
    destruct H as (Hone & _ & _ & _ & _ & _ & _ & _ & _ & Hok & _).
    cbv zeta. split; [exact Hone|].
    exact (proj1 (Hok testToken eq_refl)).
  - pose proof (@single_flight testAuthConfig newUpsAuthManager 0 0%nat 1000
                  [(1%nat, 1001)] rejected401 1200
                  eq_refl eq_refl (Forall_cons _ eq_refl (Forall_nil _))) as H.
    cbv zeta in H.
    destruct H as (_ & _ & _ & _ & _ & _ & Hclear & _ & _ & _ & Herr).
    cbv zeta.
    destruct (Herr (authError UPS "Invalid client credentials" (Some 401) 1200) eq_refl)
      as (Hret & _ & Hagain).
    split; [exact Hret|]. split; [exact Hclear|].
    exact (proj1 (Hagain 2%nat 1300 eq_refl)).
Defined.

(** C2 as stated fails: a caller that enters after the [finally] callback
    has cleared the slot and before the callers that awaited the exchange
    have stored its token finds no valid token and no pending exchange, and
    posts a second exchange.  Three calls, each made while no valid token
    is cached, give two credential exchanges. *)
Lemma single_flight_counterexample :
  let first := [CallGetAccessToken 0%nat 1000; CallGetAccessToken 1%nat 1001;
                ExchangeSettles (HttpOk 200 (BodyObject upsTokenResponse)) 1200] in
  let settled := auth_run testAuthConfig (idleLoop newUpsAuthManager 0) first in
  let late := auth_step testAuthConfig settled (CallGetAccessToken 2%nat 1200) in
  let resumed := auth_step testAuthConfig late AwaitersResume in
  hasValidToken 1000 newUpsAuthManager = false
  /\ hasValidToken 1001 newUpsAuthManager = false
  /\ hasValidToken 1200 (manager settled) = false
  /\ map fst (resuming settled) = [0%nat; 1%nat]
  /\ exchanges late = 2%nat
  /\ exchanges resumed = 2%nat
  /\ returned resumed = [(0%nat, Ok "test_access_token_12345");
                         (1%nat, Ok "test_access_token_12345")]
  /\ awaiting resumed = [2%nat]
  /\ exchanges resumed <> 1%nat.
Proof.
  cbv zeta. repeat split. cbn. discriminate.
Qed.

(** ** Authenticated transport *)

Section ClientProperties.
Variables TRequest TResponse : Type.
Variable authCfg : UpsAuthConfig.
Variable cfg : UpsClientConfig.
Variable up : Upstream TRequest TResponse.
Variable path : string.
Variable payload : TRequest.

Lemma getAccessToken_ok_token :
  forall tokenEndpoint s bearer s',
    getAccessToken authCfg tokenEndpoint s = (Ok bearer, s') ->
    exists tk, token (auth s') = Some tk /\ accessToken tk = bearer.
Proof.
  intros ep s bearer s'. unfold getAccessToken.
  destruct (cachedAccessToken (clock s) (auth s)) as [tok|] eqn:Hc.
  - intros H. inversion H; subst. unfold cachedAccessToken in Hc.
    destruct (token (auth s')) as [tk|]; [|discriminate].
    destruct (isExpired (clock s') tk); [discriminate|].
    inversion Hc. eauto.
  - destruct (ep _) as [t reply].
    destruct (acquireToken authCfg reply t) as [td|e]; intros H; inversion H; subst.
    simpl. eauto.
Qed.

(** One entry of [makeRequest] is one attempt and at most one API call. *)
Lemma makeRequest_counts :
  forall w,
    let w' := snd (makeRequest authCfg up path payload w) in
    attempts w' = S (attempts w)
    /\ (apiPosts w' = apiPosts w \/ apiPosts w' = S (apiPosts w)).
Proof.
  intros w. unfold makeRequest.
  destruct (getAccessToken authCfg (tokenEndpoint up) (session w)) as [[bearer|e] s1].
  - destruct (apiEndpoint up (apiPosts w) path payload bearer) as [t [st body|reason]];
      simpl; auto.
  - simpl; auto.
Qed.
End ClientProperties.

(** C3.  Retry once on HTTP 401.  A post whose first attempt succeeds returns
    its body.  A first attempt that fails otherwise than by an HTTP 401
    response is classified and raised at once, after one attempt.  A first
    attempt rejected with HTTP 401 invalidates the token and repeats the
    request once: the retry's body is returned when it succeeds, and its
    failure (a second 401 included) is classified and raised; in both cases
    the request was attempted exactly twice and at most two API calls were
    sent. *)
Theorem retry_once_on_401 :
  forall (TRequest TResponse : Type) authCfg cfg (up : Upstream TRequest TResponse)
         path payload w,
    let first := makeRequest authCfg up path payload w in
    let result := post authCfg cfg up path payload w in
    (forall body,
        fst first = Ok body ->
        result = (Ok body, snd first) /\ attempts (snd result) = S (attempts w))
    /\
    (forall error,
        fst first = Err error ->
        is_axios_401 error = false ->
        result = (Err (classifyError cfg error (clock (session (snd first)))), snd first)
        /\ attempts (snd result) = S (attempts w))
    /\
    (forall error,
        fst first = Err error ->
        is_axios_401 error = true ->
        let w2 := with_auth (snd first) (invalidateToken (auth (session (snd first)))) in
        let second := makeRequest authCfg up path payload w2 in
        token (auth (session w2)) = None
        /\ snd result = snd second
        /\ attempts (snd result) = S (S (attempts w))
        /\ (apiPosts (snd result) <= S (S (apiPosts w)))%nat
        /\ (forall body, fst second = Ok body -> fst result = Ok body)
        /\ (forall retryError,
               fst second = Err retryError ->
               fst result
               = Err (classifyError cfg retryError (clock (session (snd second)))))).
Proof.
  intros TRequest TResponse authCfg cfg up path payload w first result.
  pose proof (makeRequest_counts authCfg up path payload w) as Hc1.
  cbv zeta in Hc1. fold first in Hc1.
  subst result. unfold post. fold first.
  destruct first as [[body|error] w1] eqn:Hfirst; cbn [fst snd] in *.
  - split; [|split].
    + intros b Hb. inversion Hb; subst. split; [reflexivity|apply Hc1].
    + intros e He. discriminate He.
    + intros e He. discriminate He.
  - split; [|split].
    + intros b Hb. discriminate Hb.
    + intros e He H401. inversion He; subst e. rewrite H401.
      split; [reflexivity|apply Hc1].
    + intros e He H401. inversion He; subst e. rewrite H401.
      cbv zeta.
      pose proof (makeRequest_counts authCfg up path payload
                    (with_auth w1 (invalidateToken (auth (session w1))))) as Hc2.
      cbv zeta in Hc2.
      destruct (makeRequest authCfg up path payload
                  (with_auth w1 (invalidateToken (auth (session w1)))))
        as [[body2|retryError] w3]; cbn [fst snd with_auth attempts apiPosts] in *.
      * split; [reflexivity|]. split; [reflexivity|].
        split; [lia|]. split; [lia|].
        split; [intros b Hb; inversion Hb; reflexivity | intros r Hr; discriminate Hr].
      * split; [reflexivity|]. split; [reflexivity|].
        split; [lia|]. split; [lia|].
        split; [intros b Hb; discriminate Hb|].
        intros r Hr. inversion Hr; subst. reflexivity.
Qed.

Lemma retry_once_on_401_witness :
  (* a stale token is rejected once, the retry succeeds *)
  (fst (post testAuthConfig testClientConfig rotatingUpstream "/api/rating/v2409/Shop" tt
          freshWire) = Ok "rates"
   /\ attempts (snd (post testAuthConfig testClientConfig rotatingUpstream
                       "/api/rating/v2409/Shop" tt freshWire)) = 2%nat)
  /\
  (* two 401 in a row: the second is classified and raised *)
  (exists e,
      fst (post testAuthConfig testClientConfig rejectingUpstream "/api/rating/v2409/Shop" tt
             freshWire) = Err e
      /\ code e = AUTH_FAILED
      /\ apiPosts (snd (post testAuthConfig testClientConfig rejectingUpstream
                          "/api/rating/v2409/Shop" tt freshWire)) = 2%nat).
Proof.
  split.
  - destruct (retry_once_on_401 testAuthConfig testClientConfig rotatingUpstream
                "/api/rating/v2409/Shop" tt freshWire) as (_ & _ & Hretry).
    destruct (Hretry unauthorized eq_refl eq_refl) as (_ & _ & Hn & _ & Hok & _).
    split; [apply Hok; reflexivity | exact Hn].
  - destruct (retry_once_on_401 testAuthConfig testClientConfig rejectingUpstream
                "/api/rating/v2409/Shop" tt freshWire) as (_ & _ & Hretry).
    destruct (Hretry unauthorized eq_refl eq_refl) as (_ & _ & _ & _ & _ & Herr).
    eexists. split; [apply Herr; reflexivity|]. split; reflexivity.
Defined.

(** ** Error classification *)

Lemma extractUpsError_present :
  forall body first ffields,
    has_error_list body first ->
    first = JsObj ffields ->
    extractUpsError body = renderedUpsError ffields.
Proof.
  intros body first ffields (fields & rfields & rest & Hb & Hr & He) Hf.
  subst body first. unfold extractUpsError. cbn [js_truthy js_is_object andb js_get].
  rewrite Hr. cbn [js_truthy js_is_object andb js_get]. rewrite He.
  reflexivity.
Qed.

Lemma renderedUpsError_strings :
  forall ffields c m,
    lookup_field "code" ffields = JsStr c ->
    lookup_field "message" ffields = JsStr m ->
    renderedUpsError ffields = (c, m).
Proof.
  intros ffields c m Hc Hm. unfold renderedUpsError. rewrite Hc, Hm. reflexivity.
Qed.

Lemma extractUpsError_absent :
  forall body,
    (forall first, ~ has_error_list body first) ->
    extractUpsError body = unknownUpsError.
Proof.
  intros body Habs. unfold extractUpsError.
  destruct body as [| |b|n|str|items|fields];
    cbn [js_truthy js_is_object andb js_get]; try reflexivity.
  - destruct b; reflexivity.
  - destruct (negb (String.eqb n "0")); reflexivity.
  - destruct (truthy_string str); reflexivity.
  - destruct (lookup_field "response" fields) as [| |b|n|str|items|rfields] eqn:Hr;
      cbn [js_truthy js_is_object andb js_get]; try reflexivity.
    + destruct b; reflexivity.
    + destruct (negb (String.eqb n "0")); reflexivity.
    + destruct (truthy_string str); reflexivity.
    + destruct (lookup_field "errors" rfields) as [| |b|n|str|[|first rest]|efields] eqn:He;
        try reflexivity.
      exfalso. apply (Habs first). exists fields, rfields, rest. auto.
Qed.

(** C5 (as the code has it).  A transport failure that is not flagged as a
    connection timeout and carries an HTTP status in 4xx other than 401, 403
    and 429, or in 5xx, is classified as a Carrier-API error with that status,
    retryable exactly when the status is at least 500.  Its upstream code and
    message are those of the first entry of [{response:{errors:[...]}}]:
    as they are when they are strings, and in general rendered by [String]
    (a missing code reads "UNKNOWN", a missing message "Unknown UPS error"),
    unless [String] throws on one of them, which gives "UNKNOWN" and
    "Unknown UPS API error".  When the body has no such list they are
    "UNKNOWN" and "Unknown UPS API error". *)
Theorem classify_carrier_api_error :
  forall cfg ae r now,
    is_timeout_code (errCode ae) = false ->
    response ae = Some r ->
    400 <= status r < 600 ->
    status r <> 401 -> status r <> 403 -> status r <> 429 ->
    let e := classifyError cfg (ThrownAxios ae) now in
    code e = CARRIER_API_ERROR
    /\ httpStatus e = Some (status r)
    /\ (retryable e = true <-> 500 <= status r)
    /\ (forall first ffields c m,
           has_error_list (data r) first ->
           first = JsObj ffields ->
           lookup_field "code" ffields = JsStr c ->
           lookup_field "message" ffields = JsStr m ->
           carrierErrorCode e = Some c /\ carrierErrorMessage e = Some m)
    /\ (forall first ffields,
           has_error_list (data r) first ->
           first = JsObj ffields ->
           match js_String (js_nullish_or (lookup_field "code" ffields)
                                          (JsStr "UNKNOWN")),
                 js_String (js_nullish_or (lookup_field "message" ffields)
                                          (JsStr "Unknown UPS error")) with
           | Some c, Some m =>
               carrierErrorCode e = Some c /\ carrierErrorMessage e = Some m
           | _, _ =>
               carrierErrorCode e = Some "UNKNOWN"
               /\ carrierErrorMessage e = Some "Unknown UPS API error"
           end)
    /\ ((forall first, ~ has_error_list (data r) first) ->
        carrierErrorCode e = Some "UNKNOWN"
        /\ carrierErrorMessage e = Some "Unknown UPS API error").
Proof.
  intros cfg ae r now Hcode Hresp Hrange H401 H403 H429 e.
  assert (He : e = carrierApiError UPS (snd (extractUpsError (data r))) (status r)
                     (Some (fst (extractUpsError (data r))))
                     (Some (snd (extractUpsError (data r)))) now).
  { subst e. unfold classifyError. rewrite Hcode, Hresp.
    destruct (Z.eqb_spec (status r) 429); [contradiction|].
    destruct (Z.eqb_spec (status r) 401); [contradiction|].
    destruct (Z.eqb_spec (status r) 403); [contradiction|].
    destruct ((status r >=? 400) && (status r <? 500)); reflexivity. }
  rewrite He. cbn [code httpStatus retryable carrierErrorCode carrierErrorMessage
                   carrierApiError].
  split; [reflexivity|]. split; [reflexivity|]. split.
  - destruct (Z.geb_spec (status r) 500); split; intros; try lia; try discriminate;
      reflexivity.
  - split; [|split].
    + intros first ffields c m Hshape Hfirst Hc Hm.
      rewrite (extractUpsError_present Hshape Hfirst).
      rewrite (renderedUpsError_strings _ Hc Hm). split; reflexivity.
    + intros first ffields Hshape Hfirst.
      rewrite (extractUpsError_present Hshape Hfirst). unfold renderedUpsError.
      destruct (js_String (js_nullish_or (lookup_field "code" ffields) (JsStr "UNKNOWN")))
        as [c|];
        destruct (js_String (js_nullish_or (lookup_field "message" ffields)
                                           (JsStr "Unknown UPS error"))) as [m|];
        split; reflexivity.
    + intros Habs. rewrite (extractUpsError_absent Habs). split; reflexivity.
Qed.

Lemma classify_carrier_api_error_witness :
  let e := classifyError testClientConfig (ThrownAxios badRequest) 0 in
  code e = CARRIER_API_ERROR
  /\ retryable e = false
  /\ carrierErrorCode e = Some "111210"
  /\ carrierErrorCode (classifyError testClientConfig (ThrownAxios serverErrorNoBody) 0)
     = Some "UNKNOWN"
  /\ carrierErrorMessage (classifyError testClientConfig (ThrownAxios badRequestOddCode) 0)
     = Some "Unknown UPS API error".
Proof.
  cbv zeta.
  destruct (@classify_carrier_api_error testClientConfig badRequest
              {| status := 400; data := upsError400Response; retryAfterHeader := None |} 0
              eq_refl eq_refl) as (Hc & _ & Hr & Hpresent & _);
    [cbn; lia | cbn; lia | cbn; lia | cbn; lia |].
  destruct (@classify_carrier_api_error testClientConfig serverErrorNoBody
              {| status := 500; data := JsStr "Internal Server Error";
                 retryAfterHeader := None |} 0
              eq_refl eq_refl) as (_ & _ & _ & _ & _ & Habsent);
    [cbn; lia | cbn; lia | cbn; lia | cbn; lia |].
  destruct (@classify_carrier_api_error testClientConfig badRequestOddCode
              {| status := 400; data := upsErrorOddCode; retryAfterHeader := None |} 0
              eq_refl eq_refl) as (_ & _ & _ & _ & Hrendered & _);
    [cbn; lia | cbn; lia | cbn; lia | cbn; lia |].
  split; [exact Hc|]. split.
  - destruct (retryable (classifyError testClientConfig (ThrownAxios badRequest) 0)) eqn:E;
      [|reflexivity].
    pose proof (proj1 Hr eq_refl) as Hge. cbn in Hge. lia.
  - split; [|split].
    + apply (proj1 (@Hpresent (JsObj upsError400Entry) upsError400Entry "111210" _
                      (ex_intro _ _ (ex_intro _ _ (ex_intro _ []
                         (conj eq_refl (conj eq_refl eq_refl))))) eq_refl
                      eq_refl eq_refl)).
    + apply Habsent. intros first (fields & rfields & rest & Hb & _). discriminate Hb.
    + exact (proj2 (@Hrendered _ _
                      (ex_intro _ _ (ex_intro _ _ (ex_intro _ []
                         (conj eq_refl (conj eq_refl eq_refl))))) eq_refl)).
Defined.

(** C5 as stated fails: for an HTTP 500 whose body has no error list the
    upstream message is "Unknown UPS API error", not "Unknown API error". *)
Lemma classify_unknown_message_counterexample :
  let e := classifyError testClientConfig (ThrownAxios serverErrorNoBody) 0 in
  (forall first, ~ has_error_list (JsStr "Internal Server Error") first)
  /\ code e = CARRIER_API_ERROR
  /\ carrierErrorCode e = Some "UNKNOWN"
  /\ carrierErrorMessage e = Some "Unknown UPS API error"
  /\ carrierErrorMessage e <> Some "Unknown API error".
Proof.
  cbv zeta. split.
  - intros first (fields & rfields & rest & Hb & _). discriminate Hb.
  - repeat split. cbn. discriminate.
Qed.

(** ** Response mapping *)

(** C6.  Response-shape normalization.  A rating response that carries one
    rated-shipment object and one that carries the one-element sequence of
    the same object are parsed to the same result: the quote mapped from
    that object, or the failure of mapping it. *)
Theorem single_object_as_one_element_sequence :
  forall (np : NumberParsing) (rated : UpsRatedShipment) (now : Z),
    parseResponse
      (Some {| RateResponseBody := Some {| RatedShipment := Single rated |} |}) now
    = parseResponse
        (Some {| RateResponseBody := Some {| RatedShipment := Several [rated] |} |}) now
    /\ parseResponse
         (Some {| RateResponseBody := Some {| RatedShipment := Single rated |} |}) now
       = match mapFromUpsRatedShipment rated with
         | Ok quote => Ok [quote]
         | Err error => Err (parseResponse_catch error now)
         end.
Proof.
  intros np rated now. split; [reflexivity|].
  unfold parseResponse, parseResponse_try.
  cbn [RateResponseBody RatedShipment js_map bind].
  destruct (mapFromUpsRatedShipment rated) as [quote|error]; reflexivity.
Qed.

Lemma mapFromUpsRatedShipment_ok :
  forall (np : NumberParsing) rated quote,
    mapFromUpsRatedShipment rated = Ok quote ->
    exists service total base billing unit,
      Service rated = Given service
      /\ TotalCharges rated = Given total
      /\ TransportationCharges rated = Given base
      /\ BillingWeight rated = Given billing
      /\ UnitOfMeasurement billing = Given unit
      /\ quote
         = {| quoteCarrier := UPS;
              serviceCode := Code service;
              serviceName :=
                index_or (Code service) UPS_SERVICE_NAMES
                  match Description service with
                  | Some d => d
                  | None => "UPS Service " ++ Code service
                  end;
              quoteServiceLevel :=
                index_or (Code service) UPS_SERVICE_CODE_TO_LEVEL STANDARD;
              totalCharges := {| amount := parseFloat (MonetaryValue total);
                                 currency := CurrencyCode total |};
              baseCharges := {| amount := parseFloat (MonetaryValue base);
                                currency := CurrencyCode base |};
              surcharges := mapUpsSurcharges (ItemizedCharges rated);
              transitDays := parseTransitDays rated;
              estimatedDelivery := parseEstimatedDelivery rated;
              guaranteed := match GuaranteedDelivery rated with
                            | Some _ => true
                            | None => false
                            end;
              billingWeight := Some (parseFloat (Weight billing),
                                     UnitOfMeasurementCode unit) |}.
Proof.
  intros np rated quote. unfold mapFromUpsRatedShipment, mapUpsCharges, bind.
  destruct (Service rated) as [service|]; [|discriminate].
  destruct (TotalCharges rated) as [total|]; [|discriminate].
  destruct (TransportationCharges rated) as [base|]; [|discriminate].
  destruct (BillingWeight rated) as [billing|]; [|discriminate].
  destruct (UnitOfMeasurement billing) as [unit|] eqn:Hunit; [|discriminate].
  intros H. injection H as <-.
  exists service, total, base, billing, unit. repeat split. exact Hunit.
Qed.


Lemma index_or_own :
  forall (A : Type) k (table : list (string * A)) fallback v,
    table_lookup k table = Some v -> index_or k table fallback = Plain v.
Proof. intros A k table fallback v H. unfold index_or. rewrite H. reflexivity. Qed.

Lemma index_or_fallback :
  forall (A : Type) k (table : list (string * A)) fallback,
    table_lookup k table = None ->
    namesInheritedMember k = false ->
    index_or k table fallback = Plain fallback.
Proof.
  intros A k table fallback H Hm. unfold index_or, namesInheritedMember in *.
  rewrite H, Hm. reflexivity.
Qed.

(** C9 (as the code has it).  The service name of a mapped quote is the
    entry of the display-name table for the shipment's service code.  For a
    code without an entry that is not the name of a member every object
    inherits, it is the description echoed by the carrier and, without a
    description, the string "UPS Service " followed by the code. *)
Theorem service_name_resolution :
  forall (np : NumberParsing) (rated : UpsRatedShipment) (quote : RateQuote)
         (service : UpsService),
    mapFromUpsRatedShipment rated = Ok quote ->
    Service rated = Given service ->
    let c := Code service in
    (forall n, table_lookup c UPS_SERVICE_NAMES = Some n -> serviceName quote = Plain n)
    /\ (forall d,
           table_lookup c UPS_SERVICE_NAMES = None ->
           namesInheritedMember c = false ->
           Description service = Some d ->
           serviceName quote = Plain d)
    /\ (table_lookup c UPS_SERVICE_NAMES = None ->
        namesInheritedMember c = false ->
        Description service = None ->
        serviceName quote = Plain ("UPS Service " ++ c)).
Proof.
  intros np rated quote service Hmap Hservice c. subst c.
  destruct (@mapFromUpsRatedShipment_ok _ _ _ Hmap)
    as (service' & total & base & billing & unit & Hs & _ & _ & _ & _ & ->).
  rewrite Hservice in Hs. injection Hs as <-.
  cbn [serviceName].
  split; [|split].
  - intros n Hn. apply index_or_own. exact Hn.
  - intros d Hn Hm Hd. rewrite Hd. apply index_or_fallback; assumption.
  - intros Hn Hm Hd. rewrite Hd. apply index_or_fallback; assumption.
Qed.

Lemma service_name_resolution_witness :
  map serviceName (quoteOf (ratedShipment "03" (Some "Ground (echoed)") "15.50"))
  = [Plain "UPS Ground"]
  /\ map serviceName (quoteOf (ratedShipment "93" (Some "UPS Sure Post") "9.10"))
     = [Plain "UPS Sure Post"]
  /\ map serviceName (quoteOf (ratedShipment "99" None "9.10"))
     = [Plain "UPS Service 99"].
Proof.
  split; [|split].
  - unfold quoteOf.
    destruct (mapFromUpsRatedShipment (ratedShipment "03" (Some "Ground (echoed)") "15.50"))
      as [quote|error] eqn:Hmap; [|discriminate Hmap].
    cbn [map].
    rewrite (proj1 (@service_name_resolution decimalParsing _ quote
                      {| Code := "03"; Description := Some "Ground (echoed)" |}
                      Hmap eq_refl)
                   "UPS Ground" eq_refl).
    reflexivity.
  - unfold quoteOf.
    destruct (mapFromUpsRatedShipment (ratedShipment "93" (Some "UPS Sure Post") "9.10"))
      as [quote|error] eqn:Hmap; [|discriminate Hmap].
    cbn [map].
    rewrite (proj1 (proj2 (@service_name_resolution decimalParsing _ quote
                             {| Code := "93"; Description := Some "UPS Sure Post" |}
                             Hmap eq_refl))
                   "UPS Sure Post" eq_refl eq_refl eq_refl).
    reflexivity.
  - unfold quoteOf.
    destruct (mapFromUpsRatedShipment (ratedShipment "99" None "9.10"))
      as [quote|error] eqn:Hmap; [|discriminate Hmap].
    cbn [map].
    rewrite (proj2 (proj2 (@service_name_resolution decimalParsing _ quote
                             {| Code := "99"; Description := None |}
                             Hmap eq_refl))
                   eq_refl eq_refl eq_refl).
    reflexivity.
Defined.

(** C9 as stated fails: with no table entry and no echoed description the
    name is "UPS Service 99", not "Service 99"; and for the service code
    "toString", which has no table entry either, the name is not the
    description echoed by the carrier but the member of that name that the
    table inherits. *)
Lemma service_name_counterexample :
  let rated := ratedShipment "99" None "9.10" in
  let odd := ratedShipment "toString" (Some "UPS Odd Service") "9.10" in
  table_lookup "99" UPS_SERVICE_NAMES = None
  /\ map serviceName (quoteOf rated) = [Plain "UPS Service 99"]
  /\ map serviceName (quoteOf rated) <> [Plain ("Service " ++ "99")]
  /\ table_lookup "toString" UPS_SERVICE_NAMES = None
  /\ map serviceName (quoteOf odd) = [Inherited "toString"]
  /\ map serviceName (quoteOf odd) <> [Plain "UPS Odd Service"].
Proof.
  cbv zeta. repeat split; cbn; discriminate.
Qed.

(** ** Sorting by total charges *)

Lemma js_positive_sub_le :
  forall a b, js_positive (js_sub a b) = true -> js_le b a.
Proof.
  intros [| |x|] [| |y|]; cbn; try discriminate; try exact (fun _ => I).
  unfold Qpositive. destruct (Qlt_le_dec 0 (x - y)); [|discriminate].
  intros _. lra.
Qed.

Lemma js_not_positive_sub_le :
  forall a b, a <> NaN -> b <> NaN -> js_positive (js_sub a b) = false -> js_le a b.
Proof.
  intros [| |x|] [| |y|] Ha Hb; cbn; try congruence; try exact (fun _ => I).
  unfold Qpositive. destruct (Qlt_le_dec 0 (x - y)); [discriminate|].
  intros _. lra.
Qed.

Lemma js_le_not_positive_sub :
  forall a b, js_le a b -> js_positive (js_sub a b) = false.
Proof.
  intros [| |x|] [| |y|]; cbn; try reflexivity; try contradiction.
  intros Hle. unfold Qpositive. destruct (Qlt_le_dec 0 (x - y)); [lra|reflexivity].
Qed.

Lemma js_le_trans :
  forall a b c, js_le a b -> js_le b c -> js_le a c.
Proof.
  intros [| |x|] [| |y|] [| |z|]; cbn; try tauto. intros. lra.
Qed.

Lemma js_le_numeric :
  forall a b, js_le a b -> a <> NaN /\ b <> NaN.
Proof.
  intros [| |x|] [| |y|]; cbn; try contradiction; split; discriminate.
Qed.

Lemma js_eqb_not_positive_sub :
  forall a b v,
    js_eqb a v = true -> js_eqb b v = true -> js_positive (js_sub a b) = false.
Proof.
  intros [| |x|] [| |y|] [| |z|]; cbn; try discriminate; try reflexivity.
  intros Hx Hy. apply Qeq_bool_iff in Hx. apply Qeq_bool_iff in Hy.
  unfold Qpositive. destruct (Qlt_le_dec 0 (x - y)); [lra|reflexivity].
Qed.

Section SortFacts.
Variable A : Type.
Variable key : A -> JsNumber.

Lemma js_insert_perm :
  forall x l, Permutation (x :: l) (js_insert (compareBy key) x l).
Proof.
  intros x l. induction l as [|y rest IH]; simpl.
  - apply Permutation_refl.
  - destruct (js_positive (compareBy key x y)).
    + eapply perm_trans; [apply perm_swap|]. apply perm_skip. exact IH.
    + apply Permutation_refl.
Qed.

Lemma js_sort_perm :
  forall l, Permutation l (js_sort (compareBy key) l).
Proof.
  induction l as [|x rest IH]; simpl.
  - apply perm_nil.
  - eapply perm_trans; [apply perm_skip; exact IH|]. apply js_insert_perm.
Qed.

Lemma js_insert_sorted :
  forall x l,
    key x <> NaN ->
    Forall (fun a => key a <> NaN) l ->
    Sorted (fun a b => js_le (key a) (key b)) l ->
    Sorted (fun a b => js_le (key a) (key b)) (js_insert (compareBy key) x l).
Proof.
  intros x l Hx. induction l as [|y rest IH]; intros Hnum Hs; simpl.
  - repeat constructor.
  - inversion Hnum as [|? ? Hy Hrest]; subst.
    destruct (js_positive (compareBy key x y)) eqn:Hcmp; unfold compareBy in Hcmp.
    + inversion Hs as [|? ? Hsorted Hhd]; subst.
      constructor; [apply IH; assumption|].
      destruct rest as [|z rest']; simpl.
      * constructor. apply js_positive_sub_le. exact Hcmp.
      * destruct (js_positive (compareBy key x z)).
        -- inversion Hhd; subst. constructor. assumption.
        -- constructor. apply js_positive_sub_le. exact Hcmp.
    + constructor; [exact Hs|]. constructor.
      apply js_not_positive_sub_le; assumption.
Qed.

Lemma js_sort_sorted :
  forall l,
    Forall (fun a => key a <> NaN) l ->
    StronglySorted (fun a b => js_le (key a) (key b)) (js_sort (compareBy key) l).
Proof.
  intros l Hnum. apply Sorted_StronglySorted.
  - intros a b c Hab Hbc. eapply js_le_trans; eassumption.
  - induction l as [|x rest IH]; simpl.
    + constructor.
    + inversion Hnum as [|? ? Hx Hrest]; subst.
      apply js_insert_sorted; [exact Hx| |apply IH; exact Hrest].
      apply Forall_forall. intros a Ha.
      apply (Permutation_in _ (Permutation_sym (js_sort_perm rest))) in Ha.
      revert a Ha. apply Forall_forall. exact Hrest.
Qed.

Lemma js_insert_ties :
  forall v x l,
    filter (fun a => js_eqb (key a) v) (js_insert (compareBy key) x l)
    = filter (fun a => js_eqb (key a) v) (x :: l).
Proof.
  intros v x l. induction l as [|y rest IH]; [reflexivity|].
  simpl js_insert.
  destruct (js_positive (compareBy key x y)) eqn:Hcmp; [|reflexivity].
  unfold compareBy in Hcmp.
  cbn [filter]. rewrite IH. cbn [filter].
  destruct (js_eqb (key x) v) eqn:Hx; [|reflexivity].
  destruct (js_eqb (key y) v) eqn:Hy; [|reflexivity].
  rewrite (js_eqb_not_positive_sub _ _ _ Hx Hy) in Hcmp. discriminate Hcmp.
Qed.

Lemma js_sort_ties :
  forall v l,
    filter (fun a => js_eqb (key a) v) (js_sort (compareBy key) l)
    = filter (fun a => js_eqb (key a) v) l.
Proof.
  intros v l. induction l as [|x rest IH]; [reflexivity|].
  simpl js_sort. rewrite js_insert_ties. cbn [filter]. rewrite IH. reflexivity.
Qed.

Lemma js_sort_sorted_id :
  forall l,
    Sorted (fun a b => js_le (key a) (key b)) l ->
    js_sort (compareBy key) l = l.
Proof.
  induction l as [|x rest IH]; intros Hs; [reflexivity|].
  inversion Hs as [|? ? Hrest Hhd]; subst.
  cbn [js_sort]. rewrite (IH Hrest).
  destruct rest as [|y rest']; [reflexivity|].
  cbn [js_insert]. inversion Hhd as [|? ? Hxy]; subst.
  unfold compareBy. rewrite (js_le_not_positive_sub _ _ Hxy). reflexivity.
Qed.
End SortFacts.

Lemma sort_by_total_charges :
  forall l,
    Permutation l (js_sort byTotalCharges l)
    /\ ties_keep_order l (js_sort byTotalCharges l)
    /\ (Forall numericTotal l -> ascending (js_sort byTotalCharges l)).
Proof.
  intros l.
  change (js_sort byTotalCharges l)
    with (js_sort (compareBy totalAmount) l).
  split; [|split].
  - apply (js_sort_perm totalAmount).
  - intros v. apply (js_sort_ties totalAmount).
  - apply (js_sort_sorted totalAmount).
Qed.

(** Of two or more quotes in ascending order none has NaN as amount. *)
Lemma ascending_numeric :
  forall l, ascending l -> (2 <= List.length l)%nat -> Forall numericTotal l.
Proof.
  intros l Hasc Hlen.
  destruct l as [|x [|y rest]]; cbn in Hlen; try lia.
  inversion Hasc as [|? ? _ Hall]; subst.
  assert (Hx : numericTotal x).
  { inversion Hall as [|? ? Hxy _]; subst. exact (proj1 (js_le_numeric _ _ Hxy)). }
  constructor; [exact Hx|].
  eapply Forall_impl; [|exact Hall].
  intros z Hxz. exact (proj2 (js_le_numeric _ _ Hxz)).
Qed.

Lemma numericTotal_sorted :
  forall l, Forall numericTotal (js_sort byTotalCharges l) -> Forall numericTotal l.
Proof.
  intros l H. apply Forall_forall. intros q Hq.
  apply (Permutation_in _ (proj1 (sort_by_total_charges l))) in Hq.
  revert q Hq. apply Forall_forall. exact H.
Qed.

Lemma parseResponse_ok :
  forall (np : NumberParsing) resp now found,
    parseResponse resp now = Ok found ->
    exists reported,
      js_map mapFromUpsRatedShipment (reportedShipments resp) = Ok reported
      /\ found = js_sort byTotalCharges reported.
Proof.
  intros np resp now found. unfold parseResponse, parseResponse_try, reportedShipments.
  destruct resp as [[[[[ | x | xs ]]|]]|]; cbn [RateResponseBody RatedShipment];
    try discriminate.
  - unfold bind. destruct (js_map mapFromUpsRatedShipment [x]) as [reported|error];
      intros H; inversion H. eauto.
  - unfold bind. destruct (js_map mapFromUpsRatedShipment xs) as [reported|error];
      intros H; inversion H. eauto.
Qed.

Lemma ups_getRates_ok :
  forall (np : NumberParsing) authCfg cfg up account version request w found,
    fst (ups_getRates authCfg cfg up account version request w) = Ok found ->
    exists body w1,
      post authCfg cfg up (ratingPath version request) (request, account) w = (Ok body, w1)
      /\ parseResponse body (clock (session w1)) = Ok found.
Proof.
  intros np authCfg cfg up account version request w found.
  unfold ups_getRates, ratingPath.
  match goal with
  | |- context [post authCfg cfg up ?p ?payload w] =>
      destruct (post authCfg cfg up p payload w) as [[body|e] w1] eqn:Hpost
  end; cbn [fst]; intros H; [|discriminate H].
  eauto.
Qed.

(** ** Rate shopping *)

Section ShoppingFacts.
Context {zl : ZodLocale}.
Variable W : Type.
Variable registry : CarrierRegistry W.


(** Every provider that was called is one of the carriers asked for. *)
Lemma queryCarriers_invoked :
  forall request now ids w,
    incl (snd (fst (queryCarriers registry request now ids w))) ids.
Proof.
  intros request now ids. induction ids as [|id rest IH]; intros w.
  - intros x Hx. exact Hx.
  - cbn [queryCarriers].
    destruct (registry_get registry id now) as [provider|e].
    + destruct (getRates provider request w) as [r w1].
      specialize (IH w1).
      destruct (queryCarriers registry request now rest w1) as [[results called] w'].
      cbn [fst snd] in *. intros x [Hx|Hx]; [left; exact Hx|right; apply IH; exact Hx].
    + specialize (IH w).
      destruct (queryCarriers registry request now rest w) as [[results called] w'].
      cbn [fst snd] in *. intros x Hx. right. apply IH. exact Hx.
Qed.


Lemma getQuotes_valid :
  forall request now w,
    RateRequestSchema request = [] ->
    getQuotes registry request now w
    = shop registry request now (resolveCarriers registry (carriers request)) w.
Proof.
  intros request now w Hvalid. unfold getQuotes, validateRequest.
  rewrite Hvalid. reflexivity.
Qed.

Lemma getQuotes_invalid :
  forall request now w,
    RateRequestSchema request <> [] ->
    exists e,
      getQuotes registry request now w = {| outcome := Err e; invoked := []; world := w |}
      /\ code e = VALIDATION_ERROR.
Proof.
  intros request now w Hinvalid. unfold getQuotes, validateRequest.
  destruct (RateRequestSchema request) as [|issue more]; [contradiction|].
  eexists. split; reflexivity.
Qed.

Lemma shop_outcome :
  forall request now ids w,
    outcome (shop registry request now ids w)
    = aggregate ids (fst (fst (queryCarriers registry request now ids w))) now.
Proof.
  intros request now ids w. unfold shop.
  destruct (queryCarriers registry request now ids w) as [[results called] w'].
  reflexivity.
Qed.

Lemma aggregate_ok :
  forall ids results now resp,
    aggregate ids results now = Ok resp ->
    quotes resp = js_sort byTotalCharges (fst (collect ids results now))
    /\ queriedCarriers resp = ids.
Proof.
  intros ids results now resp. unfold aggregate.
  destruct (collect ids results now) as [allQuotes errors].
  destruct allQuotes as [|q qs]; [destruct errors as [|first rest]|];
    intros H; inversion H; split; reflexivity.
Qed.

Lemma getQuotes_ok :
  forall request now w resp,
    outcome (getQuotes registry request now w) = Ok resp ->
    RateRequestSchema request = []
    /\ aggregate (resolveCarriers registry (carriers request))
         (fst (fst (queryCarriers registry request now
                      (resolveCarriers registry (carriers request)) w))) now
       = Ok resp.
Proof.
  intros request now w resp H.
  destruct (RateRequestSchema request) as [|issue more] eqn:Hschema.
  - split; [reflexivity|].
    rewrite (getQuotes_valid _ _ _ Hschema), shop_outcome in H. exact H.
  - destruct (@getQuotes_invalid request now w) as (e & Hrun & _).
    + rewrite Hschema. discriminate.
    + rewrite Hrun in H. discriminate H.
Qed.
End ShoppingFacts.

(** C8 (as the code has it).  Sorting.  The quotes parsed from a rating
    response, the quotes returned by the UPS [getRates] for the body that
    the transport returned, and the quotes of a [getQuotes] response are
    each a rearrangement of the list they were made from (the mapped
    shipments in the carrier's order, respectively the concatenated quotes
    of the carriers that answered).  When no total-charge amount is NaN,
    they are sorted by total-charge amount ascending, and quotes of equal
    total-charge amount keep the order they had in that list. *)
Theorem quotes_sorted_by_total_charges :
  forall (np : NumberParsing) (zl : ZodLocale),
    (forall resp now found,
        parseResponse resp now = Ok found ->
        exists reported,
          js_map mapFromUpsRatedShipment (reportedShipments resp) = Ok reported
          /\ Permutation reported found
          /\ (Forall numericTotal found ->
              ascending found /\ ties_keep_order reported found))
    /\
    (forall authCfg cfg up account version request w found,
        fst (ups_getRates authCfg cfg up account version request w) = Ok found ->
        exists body w1 reported,
          post authCfg cfg up (ratingPath version request) (request, account) w
          = (Ok body, w1)
          /\ js_map mapFromUpsRatedShipment (reportedShipments body) = Ok reported
          /\ Permutation reported found
          /\ (Forall numericTotal found ->
              ascending found /\ ties_keep_order reported found))
    /\
    (forall W (registry : CarrierRegistry W) request now w resp,
        outcome (getQuotes registry request now w) = Ok resp ->
        let ids := resolveCarriers registry (carriers request) in
        let results := fst (fst (queryCarriers registry request now ids w)) in
        let concatenated := fst (collect ids results now) in
        Permutation concatenated (quotes resp)
        /\ (Forall numericTotal (quotes resp) ->
            ascending (quotes resp) /\ ties_keep_order concatenated (quotes resp))).
Proof.
  intros np zl. split; [|split].
  - intros resp now found H.
    destruct (@parseResponse_ok _ _ _ _ H) as (reported & Hmap & ->).
    exists reported. split; [exact Hmap|].
    destruct (sort_by_total_charges reported) as (Hperm & Hties & Hasc).
    split; [exact Hperm|].
    intros Hnum. split; [|exact Hties]. apply Hasc. apply numericTotal_sorted. exact Hnum.
  - intros authCfg cfg up account version request w found H.
    destruct (@ups_getRates_ok _ _ _ _ _ _ _ _ _ H) as (body & w1 & Hpost & Hparse).
    destruct (@parseResponse_ok _ _ _ _ Hparse) as (reported & Hmap & ->).
    exists body, w1, reported. split; [exact Hpost|]. split; [exact Hmap|].
    destruct (sort_by_total_charges reported) as (Hperm & Hties & Hasc).
    split; [exact Hperm|].
    intros Hnum. split; [|exact Hties]. apply Hasc. apply numericTotal_sorted. exact Hnum.
  - intros W registry request now w resp H ids results concatenated.
    destruct (@getQuotes_ok _ _ _ _ _ _ _ H) as [_ Hagg].
    destruct (@aggregate_ok _ _ _ _ Hagg) as [Hq _].
    subst concatenated results ids. rewrite Hq.
    destruct (sort_by_total_charges
                (fst (collect (resolveCarriers registry (carriers request))
                        (fst (fst (queryCarriers registry request now
                                     (resolveCarriers registry (carriers request)) w)))
                        now)))
      as (Hperm & Hties & Hasc).
    split; [exact Hperm|].
    intros Hnum. split; [|exact Hties]. apply Hasc. apply numericTotal_sorted. exact Hnum.
Qed.

Lemma shopQuotes_numeric :
  Forall numericTotal (js_sort byTotalCharges shopQuotes).
Proof.
  repeat (apply Forall_cons; [discriminate|]). apply Forall_nil.
Qed.

Lemma quotes_sorted_by_total_charges_witness :
  ascending (js_sort byTotalCharges shopQuotes)
  /\ map serviceCode (js_sort byTotalCharges shopQuotes) = ["03"; "93"; "02"; "01"]
  /\ (exists resp,
         outcome (getQuotes upsAndFedex sampleRateRequest 5 freshWire) = Ok resp
         /\ ascending (quotes resp)).
Proof.
  destruct (quotes_sorted_by_total_charges decimalParsing zodEnglish)
    as (Hparse & Hrates & Hshop).
  split; [|split].
  - destruct (Hparse shopResponse 0 (js_sort byTotalCharges shopQuotes) eq_refl)
      as (reported & _ & _ & Hasc).
    apply Hasc. exact shopQuotes_numeric.
  - reflexivity.
  - exists {| quotes := js_sort byTotalCharges shopQuotes;
              queriedCarriers := [UPS; FEDEX];
              requestedAt := 5 |}.
    split; [reflexivity|].
    apply (proj2 (Hshop Wire upsAndFedex sampleRateRequest 5 freshWire _ eq_refl)).
    exact shopQuotes_numeric.
Defined.

(** C8 as stated fails: a response whose second shipment carries the
    amount "N/A" is parsed to quotes whose amounts are 20, NaN and 10, in
    this order, which is not ascending; no rearrangement of them is. *)
Lemma quotes_sorted_counterexample :
  exists found,
    parseResponse oddAmountResponse 0 = Ok found
    /\ map serviceCode found = ["02"; "03"; "01"]
    /\ map totalAmount found = [Finite 20; NaN; Finite 10]
    /\ ~ ascending found
    /\ (forall l, Permutation found l -> ~ ascending l).
Proof.
  eexists. split; [reflexivity|]. split; [reflexivity|]. split; [reflexivity|].
  assert (Hnone : forall l,
             Permutation (js_sort byTotalCharges (flat_map quoteOf oddAmountShipments)) l ->
             ~ ascending l).
  { intros l Hperm Hasc.
    assert (Hthree : List.length (js_sort byTotalCharges
                                    (flat_map quoteOf oddAmountShipments)) = 3%nat)
      by (vm_compute; reflexivity).
    assert (Hlen : (2 <= List.length l)%nat)
      by (rewrite <- (Permutation_length Hperm), Hthree; lia).
    pose proof (ascending_numeric Hasc Hlen) as Hnum.
    assert (Hnan : exists q,
               In q (js_sort byTotalCharges (flat_map quoteOf oddAmountShipments))
               /\ totalAmount q = NaN).
    { eexists. split; [vm_compute; right; left; reflexivity|reflexivity]. }
    destruct Hnan as (q & Hq & Hamount).
    apply (Permutation_in _ Hperm) in Hq.
    apply (proj1 (Forall_forall _ _) Hnum) in Hq. apply Hq. exact Hamount. }
  split.
  - apply Hnone. apply Permutation_refl.
  - exact Hnone.
Qed.



Lemma schema_rejects_no_packages :
  forall (zl : ZodLocale) request,
    packages request = [] -> RateRequestSchema request <> [].
Proof.
  intros zl request Hnone Hempty.
  assert (Hin : In {| issuePath := ["packages"];
                      issueMessage := "At least one package is required" |}
                   (RateRequestSchema request)).
  { unfold RateRequestSchema. rewrite Hnone.
    apply in_or_app. right. apply in_or_app. right. left. reflexivity. }
  rewrite Hempty in Hin. exact Hin.
Qed.

Lemma schema_rejects_too_many_packages :
  forall (zl : ZodLocale) request,
    (50 < List.length (packages request))%nat -> RateRequestSchema request <> [].
Proof.
  intros zl request Hmany Hempty.
  assert (Hin : In {| issuePath := ["packages"];
                      issueMessage := "Maximum 50 packages per shipment" |}
                   (RateRequestSchema request)).
  { unfold RateRequestSchema.
    apply in_or_app. right. apply in_or_app. right.
    apply in_or_app. right. apply in_or_app. left.
    unfold issue_if.
    destruct (Nat.ltb_spec 50 (List.length (packages request))); [|lia].
    left. reflexivity. }
  rewrite Hempty in Hin. exact Hin.
Qed.

(** C7.  Validation gate.  A request that fails the schema makes
    [getQuotes] raise a validation error without calling [getRates] of any
    provider and without touching the world the providers act on (network,
    token managers).  A request with no package, or with more than 50, fails
    the schema. *)
Theorem validation_gate :
  forall (zl : ZodLocale) W (registry : CarrierRegistry W) request now w,
    (RateRequestSchema request <> [] ->
     exists e,
       getQuotes registry request now w
       = {| outcome := Err e; invoked := []; world := w |}
       /\ code e = VALIDATION_ERROR)
    /\ (packages request = [] -> RateRequestSchema request <> [])
    /\ ((50 < List.length (packages request))%nat -> RateRequestSchema request <> []).
Proof.
  intros zl W registry request now w. split; [|split].
  - apply getQuotes_invalid.
  - apply schema_rejects_no_packages.
  - apply schema_rejects_too_many_packages.
Qed.

Lemma validation_gate_witness :
  (exists e,
      getQuotes upsOnly (withPackages sampleRateRequest []) 5 freshWire
      = {| outcome := Err e; invoked := []; world := freshWire |}
      /\ code e = VALIDATION_ERROR)
  /\ tokenPosts (session (world (getQuotes upsOnly sampleRateRequest 5 freshWire))) = 1%nat.
Proof.
  split; [|reflexivity].
  destruct (@validation_gate zodEnglish Wire upsOnly (withPackages sampleRateRequest [])
              5 freshWire) as (Hgate & Hnone & _).
  apply Hgate. apply Hnone. reflexivity.
Defined.

Lemma supportsRate_spec :
  forall W (p : CarrierProvider W),
    supportsRate p = true <-> In rate (supportedOperations p).
Proof.
  intros W p. unfold supportsRate. rewrite existsb_exists. split.
  - intros (op & Hin & Heq). destruct op; try discriminate Heq. exact Hin.
  - intros Hin. exists rate. split; [exact Hin|reflexivity].
Qed.

(** C10.  An explicitly empty carrier list.  When the request's carrier list
    is present but empty, the carriers resolved are, as for an absent list,
    those of the registered providers that support the rate operation, in
    registration order: a carrier is resolved exactly when a registered
    provider with its id lists the rate operation.  A valid request is then
    shopped across exactly these carriers, whether the list is empty or
    absent. *)
Theorem empty_carrier_list_queries_all :
  forall (zl : ZodLocale) W (registry : CarrierRegistry W) request now w,
    carriers request = Some [] ->
    let everyone := map (@carrierId W) (filter (@supportsRate W) (map snd registry)) in
    resolveCarriers registry (carriers request) = everyone
    /\ resolveCarriers registry None = everyone
    /\ (forall id,
           In id everyone <->
           exists p,
             In p (map snd registry)
             /\ carrierId p = id
             /\ In rate (supportedOperations p))
    /\ (RateRequestSchema request = [] ->
        getQuotes registry request now w = shop registry request now everyone w
        /\ getQuotes registry (withCarriers request None) now w
           = shop registry (withCarriers request None) now everyone w).
Proof.
  intros zl W registry request now w Hempty everyone.
  split; [rewrite Hempty; reflexivity|]. split; [reflexivity|]. split.
  - intros id. subst everyone. rewrite in_map_iff. split.
    + intros (p & Hid & Hin). apply filter_In in Hin. destruct Hin as [Hin Hrate].
      exists p. split; [exact Hin|]. split; [exact Hid|].
      apply supportsRate_spec. exact Hrate.
    + intros (p & Hin & Hid & Hrate). exists p. split; [exact Hid|].
      apply filter_In. split; [exact Hin|]. apply supportsRate_spec. exact Hrate.
  - intros Hvalid. split.
    + rewrite (@getQuotes_valid _ _ registry _ now w Hvalid), Hempty. reflexivity.
    + assert (Hvalid' : RateRequestSchema (withCarriers request None) = [])
        by exact Hvalid.
      rewrite (@getQuotes_valid _ _ registry _ now w Hvalid'). reflexivity.
Qed.

Lemma empty_carrier_list_queries_all_witness :
  map fst mixedRegistry = [UPS; DHL; FEDEX]
  /\ resolveCarriers mixedRegistry (Some []) = [UPS; FEDEX]
  /\ ~ In DHL (resolveCarriers mixedRegistry (Some []))
  /\ invoked (getQuotes mixedRegistry (withCarriers sampleRateRequest (Some [])) 5 freshWire)
     = [UPS; FEDEX].
Proof.
  destruct (@empty_carrier_list_queries_all zodEnglish Wire mixedRegistry
              (withCarriers sampleRateRequest (Some [])) 5 freshWire eq_refl)
    as (Hresolve & _ & Hmember & Hshop).
  split; [reflexivity|]. split; [exact Hresolve|]. split.
  - intros Hin.
    destruct (proj1 (Hmember DHL) Hin) as (p & Hp & Hid & Hrate).
    destruct Hp as [<-|[<-|[<-|[]]]]; cbn in Hid, Hrate; try discriminate Hid.
    destruct Hrate as [H|[H|[]]]; discriminate H.
  - rewrite (proj1 (Hshop eq_refl)). reflexivity.
Defined.

(** * Further properties *)

(** ** Token manager: lifetime, invalidation, the event loop *)

(** X1.  A token whose lifetime is at most the 60-second buffer is expired
    from the moment it is acquired: it is never valid, and the next awaited
    call posts a new exchange. *)
Theorem short_lived_token_is_never_reused :
  forall cfg st d now td e,
    acquireToken cfg (HttpOk st (BodyObject d)) now = Ok td ->
    expires_in d = Some e ->
    Number_of_expires_in e <= 60 ->
    (forall later m,
        now <= later -> token m = Some td -> hasValidToken later m = false)
    /\ (forall tokenEndpoint s,
           now <= clock s ->
           auth s = {| token := Some td; inflightRequest := None |} ->
           tokenPosts (snd (getAccessToken cfg tokenEndpoint s)) = S (tokenPosts s)).
Proof.
  intros cfg st d now td e Hacq He Hle.
  assert (Hexp : expiresAt td = now + Number_of_expires_in e * 1000).
  { unfold acquireToken in Hacq. rewrite He in Hacq.
    destruct (negb (truthy_opt_string (access_token d))
              || negb (truthy_expires_in (Some e)));
      [discriminate|].
    inversion Hacq. reflexivity. }
  assert (Hstale : forall later, now <= later -> isExpired later td = true).
  { intros later Hlater. unfold isExpired, EXPIRY_BUFFER_MS. rewrite Hexp.
    apply Z.geb_le. lia. }
  split.
  - intros later m Hlater Htok. unfold hasValidToken. rewrite Htok.
    rewrite (Hstale later Hlater). reflexivity.
  - intros ep s Hclock Hauth. unfold getAccessToken, cachedAccessToken.
    rewrite Hauth. cbn [token inflightRequest]. rewrite (Hstale _ Hclock).
    destruct (ep (tokenPosts s)) as [t reply].
    destruct (acquireToken cfg reply t); reflexivity.
Qed.

Lemma short_lived_token_is_never_reused_witness :
  hasValidToken 1200
    {| token := Some {| accessToken := "first_token"; expiresAt := 2200;
                        tokenType := "Bearer" |};
       inflightRequest := None |} = false.
Proof.
  assert (Hshort : (Number_of_expires_in (SecondsString (digits 1)) <= 60)%Z)
    by (vm_compute; discriminate).
  pose proof (@short_lived_token_is_never_reused testAuthConfig 200
                {| access_token := Some "first_token"; token_type := None;
                   expires_in := Some (SecondsString (digits 1)) |}
                1200
                {| accessToken := "first_token"; expiresAt := 2200;
                   tokenType := "Bearer" |}
                (SecondsString (digits 1)) eq_refl eq_refl Hshort) as [Hnever _].
  apply Hnever; [lia|reflexivity].
Defined.

(** X2.  Invalidation forces a refresh.  After [invalidateToken] no token is
    valid at any instant; when nothing is pending, the next awaited
    [getAccessToken] posts exactly one exchange and returns what that
    exchange yields: the new credential, stored as the token, or the
    exchange's error, with no token stored. *)
Theorem invalidation_forces_refresh :
  forall cfg tokenEndpoint s,
    inflightRequest (auth s) = None ->
    let s0 := {| auth := invalidateToken (auth s); clock := clock s;
                 tokenPosts := tokenPosts s |} in
    let reply := tokenEndpoint (tokenPosts s) in
    let result := getAccessToken cfg tokenEndpoint s0 in
    (forall now, hasValidToken now (invalidateToken (auth s)) = false)
    /\ tokenPosts (snd result) = S (tokenPosts s)
    /\ (forall td,
           acquireToken cfg (snd reply) (fst reply) = Ok td ->
           fst result = Ok (accessToken td)
           /\ auth (snd result) = {| token := Some td; inflightRequest := None |})
    /\ (forall e,
           acquireToken cfg (snd reply) (fst reply) = Err e ->
           fst result = Err e
           /\ auth (snd result) = {| token := None; inflightRequest := None |}).
Proof.
  intros cfg ep s Hidle s0 reply result. subst s0 reply result.
  unfold getAccessToken, cachedAccessToken, invalidateToken.
  cbn [auth token inflightRequest clock tokenPosts]. rewrite Hidle.
  destruct (ep (tokenPosts s)) as [t r]. cbn [fst snd].
  split; [reflexivity|].
  destruct (acquireToken cfg r t) as [td|e]; cbn [fst snd auth tokenPosts].
  - split; [reflexivity|]. split.
    + intros td' H. inversion H; subst. split; reflexivity.
    + intros e H. discriminate H.
  - split; [reflexivity|]. split.
    + intros td H. discriminate H.
    + intros e' H. inversion H; subst. split; reflexivity.
Qed.

Lemma invalidation_forces_refresh_witness :
  let s := {| auth := {| token := Some testToken; inflightRequest := None |};
              clock := 5000; tokenPosts := 1 |} in
  fst (getAccessToken testAuthConfig (tokenEndpoint rotatingUpstream) s)
  = Ok "test_access_token_12345"
  /\ fst (getAccessToken testAuthConfig (tokenEndpoint rotatingUpstream)
            {| auth := invalidateToken (auth s); clock := clock s;
               tokenPosts := tokenPosts s |})
     = Ok "token_v2".
Proof.
  cbv zeta. split; [reflexivity|].
  destruct (@invalidation_forces_refresh testAuthConfig (tokenEndpoint rotatingUpstream)
              {| auth := {| token := Some testToken; inflightRequest := None |};
                 clock := 5000; tokenPosts := 1 |} eq_refl)
    as (_ & _ & Hok & _).
  exact (proj1 (Hok {| accessToken := "token_v2"; expiresAt := 1001 + 14399 * 1000;
                       tokenType := "Bearer" |} eq_refl)).
Defined.

Lemma auth_step_exchanges :
  forall cfg s ev,
    (exchanges s <= exchanges (auth_step cfg s ev))%nat
    /\ (exchanges (auth_step cfg s ev) + pending (manager s)
        = exchanges s + pending (manager (auth_step cfg s ev))
          + match ev with
            | ExchangeSettles _ _ => pending (manager s)
            | _ => 0
            end)%nat.
Proof.
  intros cfg s ev. destruct ev as [c now|reply now|]; cbn [auth_step].
  - unfold getAccessToken_enter, pending.
    destruct (cachedAccessToken now (manager s)); cbn [exchanges manager]; [lia|].
    destruct (inflightRequest (manager s)) eqn:Hin;
      cbn [exchanges manager inflightRequest]; rewrite ?Hin; lia.
  - unfold exchange_settles, pending.
    destruct (inflightRequest (manager s)) eqn:Hin; [|rewrite Hin; lia].
    cbn [exchanges manager inflightRequest]. lia.
  - unfold awaiters_resume, pending.
    destruct (resume_all_frame (resuming s)
                {| manager := manager s; awaiting := awaiting s; resuming := [];
                   exchanges := exchanges s; returned := returned s |})
      as (Hslot & _ & _ & Hex & _).
    cbv zeta in Hslot, Hex. cbn [manager exchanges] in Hslot, Hex.
    rewrite Hslot, Hex. lia.
Qed.

(** X3.  At most one exchange in flight.  Over any sequence of calls,
    settlements and resumptions, from any state, the number of exchanges
    posted never decreases and grows by at most the number of settlement
    events, plus one when an exchange is pending at the end and none was at
    the start. *)
Theorem at_most_one_exchange_in_flight :
  forall cfg evs s,
    let s' := auth_run cfg s evs in
    (exchanges s <= exchanges s')%nat
    /\ (exchanges s' + pending (manager s)
        <= exchanges s + pending (manager s') + settlements evs)%nat
    /\ (exchanges s' <= exchanges s + settlements evs + 1)%nat.
Proof.
  intros cfg evs.
  assert (Hinv : forall s,
             (exchanges s <= exchanges (auth_run cfg s evs))%nat
             /\ (exchanges (auth_run cfg s evs) + pending (manager s)
                 <= exchanges s + pending (manager (auth_run cfg s evs))
                    + settlements evs)%nat).
  { induction evs as [|ev evs IH]; intros s.
    - cbn. lia.
    - cbn [auth_run fold_left].
      change (fold_left (auth_step cfg) evs ?x) with (auth_run cfg x evs).
      destruct (IH (auth_step cfg s ev)) as [Hmono Hbound].
      destruct (auth_step_exchanges cfg s ev) as [Hup Hstep].
      assert (pending (manager s) <= 1)%nat
        by (unfold pending; destruct (inflightRequest (manager s)); lia).
      destruct ev; cbn [settlements]; lia. }
  intros s s'. subst s'. destruct (Hinv s) as [Hmono Hbound].
  split; [exact Hmono|]. split; [exact Hbound|].
  assert (pending (manager (auth_run cfg s evs)) <= 1)%nat
    by (unfold pending; destruct (inflightRequest (manager (auth_run cfg s evs))); lia).
  lia.
Qed.

Lemma auth_step_callers :
  forall cfg s ev,
    Permutation
      (map fst (returned (auth_step cfg s ev))
       ++ map fst (resuming (auth_step cfg s ev))
       ++ awaiting (auth_step cfg s ev))
      ((map fst (returned s) ++ map fst (resuming s) ++ awaiting s) ++ callers_of [ev])
    /\ (awaiting s = [] \/ inflightRequest (manager s) <> None ->
        awaiting (auth_step cfg s ev) = []
        \/ inflightRequest (manager (auth_step cfg s ev)) <> None).
Proof.
  intros cfg s ev. destruct ev as [c now|reply now|]; cbn [auth_step callers_of].
  - unfold getAccessToken_enter.
    destruct (cachedAccessToken now (manager s)) as [tok|].
    + cbn [returned awaiting resuming manager]. split; [|tauto].
      rewrite map_app. cbn [map fst]. rewrite <- !app_assoc.
      apply Permutation_app_head.
      rewrite (app_assoc (map fst (resuming s)) (awaiting s) [c]).
      apply Permutation_cons_append.
    + destruct (inflightRequest (manager s)) eqn:Hin;
        cbn [returned awaiting resuming manager inflightRequest].
      * split; [rewrite !app_assoc; apply Permutation_refl|].
        intros _. right. rewrite Hin. discriminate.
      * split; [rewrite !app_assoc; apply Permutation_refl|].
        intros _. right. discriminate.
  - rewrite app_nil_r. unfold exchange_settles.
    destruct (inflightRequest (manager s)) eqn:Hin.
    + cbn [returned awaiting resuming]. split; [|left; reflexivity].
      rewrite app_nil_r, map_app, map_map. cbn [fst]. rewrite map_id.
      apply Permutation_refl.
    + split; [apply Permutation_refl|]. intros [H|H]; [left; exact H|congruence].
  - rewrite app_nil_r. unfold awaiters_resume.
    destruct (resume_all_frame (resuming s)
                {| manager := manager s; awaiting := awaiting s; resuming := [];
                   exchanges := exchanges s; returned := returned s |})
      as (Hslot & Hwait & Hres & _ & Hret).
    cbv zeta in Hslot, Hwait, Hres, Hret.
    cbn [manager awaiting resuming returned] in Hslot, Hwait, Hres, Hret.
    rewrite Hslot, Hwait, Hres, Hret. cbn [map app].
    split; [rewrite <- app_assoc; apply Permutation_refl|tauto].
Qed.

Lemma callers_of_app :
  forall evs1 evs2, callers_of (evs1 ++ evs2) = (callers_of evs1 ++ callers_of evs2)%list.
Proof.
  induction evs1 as [|[c now|reply now|] evs1 IH]; intros evs2; cbn; rewrite ?IH;
    reflexivity.
Qed.

Lemma auth_run_callers :
  forall cfg evs s,
    Permutation
      (map fst (returned (auth_run cfg s evs))
       ++ map fst (resuming (auth_run cfg s evs))
       ++ awaiting (auth_run cfg s evs))
      ((map fst (returned s) ++ map fst (resuming s) ++ awaiting s) ++ callers_of evs)
    /\ (awaiting s = [] \/ inflightRequest (manager s) <> None ->
        awaiting (auth_run cfg s evs) = []
        \/ inflightRequest (manager (auth_run cfg s evs)) <> None).
Proof.
  intros cfg evs. induction evs as [|ev evs IH]; intros s.
  - cbn [auth_run fold_left callers_of]. rewrite app_nil_r.
    split; [apply Permutation_refl|tauto].
  - cbn [auth_run fold_left].
    change (fold_left (auth_step cfg) evs ?x) with (auth_run cfg x evs).
    destruct (IH (auth_step cfg s ev)) as [Hperm Hwait].
    destruct (auth_step_callers cfg s ev) as [Hperm1 Hwait1].
    split; [|tauto].
    eapply perm_trans; [exact Hperm|].
    change (ev :: evs) with ([ev] ++ evs)%list. rewrite callers_of_app.
    rewrite (app_assoc _ (callers_of [ev])).
    apply Permutation_app_tail. exact Hperm1.
Qed.

(** X4.  No caller is lost.  Over any sequence of calls, settlements and
    resumptions that starts with nobody waiting, the callers that have
    returned, those whose exchange has settled and who have yet to resume,
    and those who wait for the pending exchange are together exactly the
    callers that called, each once; a caller waits for a pending exchange
    only while the slot is set.  Once the pending exchange (if any) has
    settled and the callers have resumed, every caller has returned. *)
Theorem every_caller_is_accounted_for :
  forall cfg m n evs,
    let s' := auth_run cfg (idleLoop m n) evs in
    Permutation
      (map fst (returned s') ++ map fst (resuming s') ++ awaiting s')
      (callers_of evs)
    /\ (awaiting s' = [] \/ inflightRequest (manager s') <> None)
    /\ (forall reply t,
           let done := auth_run cfg s' [ExchangeSettles reply t; AwaitersResume] in
           Permutation (map fst (returned done)) (callers_of evs)
           /\ awaiting done = []
           /\ resuming done = []
           /\ inflightRequest (manager done) = None).
Proof.
  intros cfg m n evs s'.
  destruct (auth_run_callers cfg evs (idleLoop m n)) as [Hperm Hwait].
  fold s' in Hperm, Hwait. cbn [idleLoop returned resuming awaiting map app] in Hperm, Hwait.
  assert (Hslot : awaiting s' = [] \/ inflightRequest (manager s') <> None)
    by (apply Hwait; left; reflexivity).
  split; [exact Hperm|]. split; [exact Hslot|].
  intros reply t done.
  destruct (auth_run_callers cfg [ExchangeSettles reply t; AwaitersResume] s')
    as [Hperm2 _].
  fold done in Hperm2. cbn [callers_of] in Hperm2. rewrite app_nil_r in Hperm2.
  assert (Hdone : awaiting done = [] /\ resuming done = []
                  /\ inflightRequest (manager done) = None).
  { subst done. cbn [auth_run fold_left auth_step]. unfold awaiters_resume.
    match goal with
    | |- context [fold_left getAccessToken_resume ?rs ?s0] =>
        destruct (resume_all_frame rs s0) as (H1 & H2 & H3 & _ & _)
    end.
    cbv zeta in H1, H2, H3. rewrite H1, H2, H3.
    cbn [manager awaiting resuming]. unfold exchange_settles.
    destruct (inflightRequest (manager s')) eqn:Hin;
      cbn [manager awaiting inflightRequest].
    - repeat split.
    - destruct Hslot as [Hnone|Hsome]; [|congruence].
      rewrite Hin. repeat split. exact Hnone. }
  destruct Hdone as (Hw & Hr & Hi).
  rewrite Hw, Hr in Hperm2. cbn [map app] in Hperm2. rewrite app_nil_r in Hperm2.
  split; [|repeat split; assumption].
  eapply perm_trans; [exact Hperm2|exact Hperm].
Qed.

(** X5.  What the credential exchange must return.  A body with a non-empty
    [access_token] and a truthy [expires_in] (a number other than zero, or
    a string that is not empty, the string "0" included) yields a token
    that expires [Number(expires_in)] seconds after the response arrived, of
    type "Bearer" unless stated.  A body that lacks either field, or
    carries an empty token, the number zero or the empty string, is an
    authentication failure that carries the response's status and is not
    retryable.  A body that is null or undefined is an authentication
    failure without a status. *)
Theorem acquireToken_requires_both_fields :
  forall cfg st now,
    (forall d a e,
        access_token d = Some a -> a <> "" ->
        expires_in d = Some e ->
        match e with
        | SecondsNumber n => n <> 0
        | SecondsString digits => digits <> Decimal.Nil
        end ->
        acquireToken cfg (HttpOk st (BodyObject d)) now
        = Ok {| accessToken := a;
                expiresAt := now + Number_of_expires_in e * 1000;
                tokenType := match token_type d with
                             | Some ty => ty
                             | None => "Bearer"
                             end |})
    /\ (forall d,
           access_token d = None \/ access_token d = Some ""
           \/ expires_in d = None \/ expires_in d = Some (SecondsNumber 0)
           \/ expires_in d = Some (SecondsString Decimal.Nil) ->
           exists e,
             acquireToken cfg (HttpOk st (BodyObject d)) now = Err e
             /\ code e = AUTH_FAILED
             /\ httpStatus e = Some st
             /\ retryable e = false)
    /\ (forall n,
           exists e,
             acquireToken cfg (HttpOk st (BodyNullish n)) now = Err e
             /\ code e = AUTH_FAILED
             /\ httpStatus e = None
             /\ retryable e = false).
Proof.
  intros cfg st now. split; [|split].
  - intros d a e Ha Hne He Htruthy. unfold acquireToken. rewrite Ha, He.
    cbn [truthy_opt_string].
    destruct a as [|ch a']; [congruence|]. cbn [truthy_string negb orb].
    assert (Ht : truthy_expires_in (Some e) = true).
    { destruct e as [n|digits]; cbn [truthy_expires_in].
      - destruct (Z.eqb_spec n 0); [contradiction|reflexivity].
      - destruct digits; [congruence|reflexivity..]. }
    rewrite Ht. reflexivity.
  - intros d Hmissing. unfold acquireToken.
    assert (Hfalsy : negb (truthy_opt_string (access_token d))
                     || negb (truthy_expires_in (expires_in d)) = true).
    { destruct Hmissing as [H|[H|[H|[H|H]]]]; rewrite H; cbn;
        try reflexivity; apply orb_true_r. }
    rewrite Hfalsy. eexists. repeat split.
  - intros n. eexists. repeat split.
Qed.

Lemma acquireToken_requires_both_fields_witness :
  acquireToken testAuthConfig (HttpOk 200 (BodyObject upsTokenResponse)) 1200 = Ok testToken
  /\ acquireToken testAuthConfig
       (HttpOk 200 (BodyObject {| access_token := Some "abc"; token_type := None;
                                  expires_in := Some (SecondsString (digits 0)) |})) 1200
     = Ok {| accessToken := "abc"; expiresAt := 1200; tokenType := "Bearer" |}
  /\ (exists e,
         acquireToken testAuthConfig
           (HttpOk 200 (BodyObject {| access_token := Some "abc"; token_type := None;
                                      expires_in := None |})) 1200 = Err e
         /\ httpStatus e = Some 200)
  /\ (exists e,
         acquireToken testAuthConfig (HttpOk 200 (BodyNullish IsNull)) 1200 = Err e
         /\ message e
            = "[UPS] Authentication failed: Cannot read properties of null (reading 'access_token')"
         /\ httpStatus e = None).
Proof.
  destruct (acquireToken_requires_both_fields testAuthConfig 200 1200)
    as (Hok & Hmissing & Hnull).
  split; [|split; [|split]].
  - apply (Hok upsTokenResponse "test_access_token_12345" (SecondsString (digits 14399)));
      [reflexivity|discriminate|reflexivity|discriminate].
  - apply (Hok {| access_token := Some "abc"; token_type := None;
                  expires_in := Some (SecondsString (digits 0)) |}
               "abc" (SecondsString (digits 0)));
      [reflexivity|discriminate|reflexivity|discriminate].
  - destruct (Hmissing {| access_token := Some "abc"; token_type := None;
                          expires_in := None |})
      as (e & He & _ & Hst & _).
    + right. right. left. reflexivity.
    + exists e. split; assumption.
  - destruct (Hnull IsNull) as (e & He & _ & Hst & _).
    exists e. split; [exact He|]. split; [|exact Hst].
    injection He as <-. reflexivity.
Defined.

(** X6.  Failures of the credential exchange.  When the exchange fails with
    anything but a ready-made CarrierError, the error raised names UPS,
    carries the instant of the failure, and is an authentication failure (not
    retryable) or a network, timeout or rate-limit error (retryable); a
    rate-limit error carries status 429. *)
Theorem acquireToken_failure_taxonomy :
  forall cfg reply now e,
    acquireToken cfg reply now = Err e ->
    (forall e0, reply <> HttpThrow (ThrownCarrier e0)) ->
    carrier e = Some UPS
    /\ timestamp e = now
    /\ (code e = AUTH_FAILED /\ retryable e = false
        \/ code e = NETWORK_ERROR /\ retryable e = true
        \/ code e = TIMEOUT /\ retryable e = true
        \/ code e = RATE_LIMITED /\ retryable e = true /\ httpStatus e = Some 429).
Proof.
  intros cfg reply now e Hacq Hraw. unfold acquireToken in Hacq.
  destruct reply as [st [d|n]|[e0|ae|msg|]].
  - destruct (negb (truthy_opt_string (access_token d))
              || negb (truthy_expires_in (expires_in d))); [|discriminate Hacq].
    injection Hacq as <-. cbn. auto 12.
  - injection Hacq as <-. cbn. auto 12.
  - exfalso. apply (Hraw e0). reflexivity.
  - injection Hacq as <-. unfold classifyAuthError.
    destruct (is_timeout_code (errCode ae)); [cbn; auto 12|].
    destruct (response ae) as [r|]; [|cbn; auto 12].
    destruct ((status r =? 401) || (status r =? 403)); [cbn; auto 12|].
    destruct (status r =? 429); cbn; auto 12.
  - injection Hacq as <-. cbn. auto 12.
  - injection Hacq as <-. cbn. auto 12.
Qed.

Lemma acquireToken_failure_taxonomy_witness :
  code (authError UPS "Invalid client credentials" (Some 401) 1200) = AUTH_FAILED
  /\ retryable (authError UPS "Invalid client credentials" (Some 401) 1200) = false.
Proof.
  destruct (@acquireToken_failure_taxonomy testAuthConfig rejected401 1200
              (authError UPS "Invalid client credentials" (Some 401) 1200) eq_refl)
    as (_ & _ & [H|[H|[H|H]]]).
  - intros e0 H. discriminate H.
  - exact H.
  - destruct H as [H _]. discriminate H.
  - destruct H as [H _]. discriminate H.
  - destruct H as [H _]. discriminate H.
Defined.

(** ** Authenticated transport: classification and token use *)

(** X7.  Every classified error is structured.  A CarrierError is passed
    through unchanged.  Any other failure becomes an error that names UPS,
    carries the instant of classification, has one of seven kinds, and is
    retryable exactly when it is a timeout, network or rate-limit error, or
    a carrier-API error with a status of at least 500. *)
Theorem classified_errors_are_structured :
  forall cfg error now,
    let e := classifyError cfg error now in
    match error with
    | ThrownCarrier e0 => e = e0
    | _ =>
        carrier e = Some UPS
        /\ timestamp e = now
        /\ In (code e) [TIMEOUT; NETWORK_ERROR; RATE_LIMITED; AUTH_FAILED; FORBIDDEN;
                        CARRIER_API_ERROR; MALFORMED_RESPONSE]
        /\ (retryable e = true <->
            In (code e) [TIMEOUT; NETWORK_ERROR; RATE_LIMITED]
            \/ (code e = CARRIER_API_ERROR
                /\ exists st, httpStatus e = Some st /\ 500 <= st))
    end.
Proof.
  intros cfg error now e. subst e.
  assert (Hapi : forall msg st c m,
             let e := carrierApiError UPS msg st c m now in
             carrier e = Some UPS /\ timestamp e = now
             /\ In (code e) [TIMEOUT; NETWORK_ERROR; RATE_LIMITED; AUTH_FAILED; FORBIDDEN;
                             CARRIER_API_ERROR; MALFORMED_RESPONSE]
             /\ (retryable e = true <->
                 In (code e) [TIMEOUT; NETWORK_ERROR; RATE_LIMITED]
                 \/ (code e = CARRIER_API_ERROR
                     /\ exists st', httpStatus e = Some st' /\ 500 <= st'))).
  { intros msg st c m. cbn. repeat split; auto 8.
    - intros Hge. right. split; [reflexivity|]. exists st. split; [reflexivity|].
      apply Z.geb_le in Hge. lia.
    - intros [[H|[H|[H|[]]]]|[_ (st' & Hst & Hge)]]; try discriminate H.
      inversion Hst; subst. apply Z.geb_le. lia. }
  destruct error as [e0|ae|msg|]; [reflexivity| | |].
  - unfold classifyError.
    destruct (is_timeout_code (errCode ae)).
    { cbn. repeat split; auto 8. }
    destruct (response ae) as [r|].
    2:{ cbn. repeat split; auto 8. }
    destruct (status r =? 429).
    { cbn. repeat split; auto 8. }
    destruct (status r =? 401).
    { cbn. repeat split; auto 8.
      - discriminate.
      - intros [[H|[H|[H|[]]]]|[H _]]; discriminate H. }
    destruct (status r =? 403).
    { cbn. repeat split; auto 8.
      - discriminate.
      - intros [[H|[H|[H|[]]]]|[H _]]; discriminate H. }
    destruct ((status r >=? 400) && (status r <? 500)); apply Hapi.
  - cbn. repeat split; auto 8.
    + discriminate.
    + intros [[H|[H|[H|[]]]]|[H _]]; discriminate H.
  - cbn. repeat split; auto 8.
    + discriminate.
    + intros [[H|[H|[H|[]]]]|[H _]]; discriminate H.
Qed.

(** X8.  The first entry of the error list is authoritative.  When the body
    is [{response:{errors:[first, ...]}}], the extracted code and message
    depend on [first] alone.  When it is an object they are its [code] and
    [message] rendered by [String] (defaults "UNKNOWN" and
    "Unknown UPS error"), unless [String] throws on one of them (an object
    with a property named toString), which gives the defaults for a body
    without the list.  When it is any other non-null value they are
    "UNKNOWN" and "Unknown UPS error", and when it is null or undefined the
    defaults for a body without the list. *)
Theorem first_error_entry_is_authoritative :
  forall body first,
    has_error_list body first ->
    extractUpsError body
    = match first with
      | JsUndefined | JsNull => ("UNKNOWN", "Unknown UPS API error")
      | JsObj fields =>
          match js_String (js_nullish_or (lookup_field "code" fields) (JsStr "UNKNOWN")),
                js_String (js_nullish_or (lookup_field "message" fields)
                                         (JsStr "Unknown UPS error")) with
          | Some upsCode, Some upsMessage => (upsCode, upsMessage)
          | _, _ => ("UNKNOWN", "Unknown UPS API error")
          end
      | _ => ("UNKNOWN", "Unknown UPS error")
      end.
Proof.
  intros body first (fields & rfields & rest & Hb & Hr & He).
  subst body. unfold extractUpsError. cbn [js_truthy js_is_object andb js_get].
  rewrite Hr. cbn [js_truthy js_is_object andb js_get]. rewrite He.
  destruct first; reflexivity.
Qed.

Lemma first_error_entry_is_authoritative_witness :
  extractUpsError upsErrorNullEntry = ("UNKNOWN", "Unknown UPS API error")
  /\ extractUpsError upsErrorTwoEntries = ("9250", "Unknown UPS error")
  /\ extractUpsError upsErrorOddCode = ("UNKNOWN", "Unknown UPS API error").
Proof.
  split; [|split].
  - apply (@first_error_entry_is_authoritative upsErrorNullEntry JsNull).
    exists [("response", JsObj [("errors", JsArr [JsNull; JsObj upsError400Entry])])],
           [("errors", JsArr [JsNull; JsObj upsError400Entry])],
           [JsObj upsError400Entry].
    repeat split.
  - apply (@first_error_entry_is_authoritative upsErrorTwoEntries
             (JsObj [("code", JsNum "9250")])).
    exists [("response",
             JsObj [("errors", JsArr [JsObj [("code", JsNum "9250")];
                                      JsObj upsError400Entry])])],
           [("errors", JsArr [JsObj [("code", JsNum "9250")]; JsObj upsError400Entry])],
           [JsObj upsError400Entry].
    repeat split.
  - apply (@first_error_entry_is_authoritative upsErrorOddCode
             (JsObj [("code", JsObj [("toString", JsNum "1")]);
                     ("message", JsStr "Invalid Access License number")])).
    eexists. eexists. exists []. repeat split.
Defined.

Section TransportFacts.
Variables TRequest TResponse : Type.
Variable authCfg : UpsAuthConfig.
Variable cfg : UpsClientConfig.
Variable up : Upstream TRequest TResponse.
Variable path : string.
Variable payload : TRequest.

(** X9.  With a valid cached token, a successful post costs one API call
    and no credential exchange: the call carries the cached credential, the
    body is returned, and the token manager is left as it was. *)
Theorem post_with_valid_token_sends_one_call :
  forall w tk t st body,
    token (auth (session w)) = Some tk ->
    clock (session w) < expiresAt tk - EXPIRY_BUFFER_MS ->
    apiEndpoint up (apiPosts w) path payload (accessToken tk) = (t, HttpOk st body) ->
    post authCfg cfg up path payload w
    = (Ok body,
       {| session := {| auth := auth (session w); clock := t;
                        tokenPosts := tokenPosts (session w) |};
          apiPosts := S (apiPosts w);
          attempts := S (attempts w) |}).
Proof.
  intros w tk t st body Htk Hfresh Hreply.
  unfold post, makeRequest, getAccessToken.
  rewrite (cachedAccessToken_fresh _ Htk Hfresh). rewrite Hreply. reflexivity.
Qed.

(** X10.  The retry after a 401 uses a newly acquired token.  When the call
    made with a valid cached token is rejected with HTTP 401 and nothing is
    pending, exactly one credential exchange is posted before the retry.  If
    that exchange fails, its error is raised as it is and no second API call
    is sent; if it succeeds, the new token is stored and the second API call
    carries the new credential, whose body is returned on success. *)
Theorem retry_uses_a_fresh_token :
  forall w tk t1 reason t2 reply2,
    token (auth (session w)) = Some tk ->
    clock (session w) < expiresAt tk - EXPIRY_BUFFER_MS ->
    inflightRequest (auth (session w)) = None ->
    apiEndpoint up (apiPosts w) path payload (accessToken tk) = (t1, HttpThrow reason) ->
    is_axios_401 reason = true ->
    tokenEndpoint up (tokenPosts (session w)) = (t2, reply2) ->
    let result := post authCfg cfg up path payload w in
    tokenPosts (session (snd result)) = S (tokenPosts (session w))
    /\ (forall e,
           acquireToken authCfg reply2 t2 = Err e ->
           fst result = Err e
           /\ apiPosts (snd result) = S (apiPosts w)
           /\ token (auth (session (snd result))) = None)
    /\ (forall td,
           acquireToken authCfg reply2 t2 = Ok td ->
           apiPosts (snd result) = S (S (apiPosts w))
           /\ token (auth (session (snd result))) = Some td
           /\ forall t3 st body,
               apiEndpoint up (S (apiPosts w)) path payload (accessToken td)
               = (t3, HttpOk st body) ->
               fst result = Ok body).
Proof.
  intros w tk t1 reason t2 reply2 Htk Hfresh Hidle Hreply H401 Hexchange result.
  subst result. unfold post.
  assert (Hfirst : makeRequest authCfg up path payload w
                   = (Err reason,
                      {| session := {| auth := auth (session w); clock := t1;
                                       tokenPosts := tokenPosts (session w) |};
                         apiPosts := S (apiPosts w);
                         attempts := S (attempts w) |})).
  { unfold makeRequest, getAccessToken.
    rewrite (cachedAccessToken_fresh _ Htk Hfresh). rewrite Hreply. reflexivity. }
  rewrite Hfirst, H401.
  unfold makeRequest, getAccessToken, with_auth, invalidateToken, cachedAccessToken.
  cbn [session auth token inflightRequest clock tokenPosts apiPosts attempts].
  rewrite Hidle, Hexchange.
  destruct (acquireToken authCfg reply2 t2) as [td|e].
  - destruct (apiEndpoint up (S (apiPosts w)) path payload (accessToken td))
      as [t3 [st body|reason3]] eqn:Hsecond;
      cbn [fst snd session auth token tokenPosts apiPosts].
    + split; [reflexivity|]. split; [intros e He; discriminate He|].
      intros td' Htd. injection Htd as <-. split; [reflexivity|]. split; [reflexivity|].
      intros t3' st' body' H. rewrite Hsecond in H. injection H as _ _ <-. reflexivity.
    + split; [reflexivity|]. split; [intros e He; discriminate He|].
      intros td' Htd. injection Htd as <-. split; [reflexivity|]. split; [reflexivity|].
      intros t3' st' body' H. rewrite Hsecond in H. discriminate H.
  - cbn [fst snd session auth token tokenPosts apiPosts classifyError].
    split; [reflexivity|]. split.
    + intros e' He. injection He as <-. repeat split.
    + intros td Htd. discriminate Htd.
Qed.

(** X11.  A failed credential exchange sends nothing to the API.  When no
    valid token is cached, nothing is pending and the exchange fails, post
    raises the token manager's error unchanged after one attempt, without
    any API call and without a retry, whatever status the error carries. *)
Theorem token_failure_sends_no_api_call :
  forall w t reply e,
    hasValidToken (clock (session w)) (auth (session w)) = false ->
    inflightRequest (auth (session w)) = None ->
    tokenEndpoint up (tokenPosts (session w)) = (t, reply) ->
    acquireToken authCfg reply t = Err e ->
    post authCfg cfg up path payload w
    = (Err e,
       {| session := {| auth := {| token := token (auth (session w));
                                   inflightRequest := None |};
                        clock := t;
                        tokenPosts := S (tokenPosts (session w)) |};
          apiPosts := apiPosts w;
          attempts := S (attempts w) |}).
Proof.
  intros w t reply e Hstale Hidle Hexchange Hacq.
  apply cachedAccessToken_valid in Hstale.
  unfold post, makeRequest, getAccessToken.
  rewrite Hstale, Hidle, Hexchange, Hacq. reflexivity.
Qed.
End TransportFacts.

Lemma post_with_valid_token_sends_one_call_witness :
  post testAuthConfig testClientConfig rotatingUpstream "/api/rating/v2409/Shop" tt warmWire
  = (Ok "rates",
     {| session := {| auth := {| token := Some testToken; inflightRequest := None |};
                      clock := 2000; tokenPosts := 1 |};
        apiPosts := 1;
        attempts := 1 |}).
Proof.
  apply (@post_with_valid_token_sends_one_call unit string testAuthConfig testClientConfig
           rotatingUpstream "/api/rating/v2409/Shop" tt warmWire testToken 2000 200 "rates").
  - reflexivity.
  - cbn. unfold EXPIRY_BUFFER_MS. lia.
  - reflexivity.
Defined.

Lemma retry_uses_a_fresh_token_witness :
  fst (post testAuthConfig testClientConfig staleUpstream "/api/rating/v2409/Shop" tt
         warmWire) = Ok "rates"
  /\ tokenPosts (session (snd (post testAuthConfig testClientConfig staleUpstream
                                 "/api/rating/v2409/Shop" tt warmWire))) = 2%nat.
Proof.
  assert (Hfresh : clock (session warmWire) < expiresAt testToken - EXPIRY_BUFFER_MS)
    by (cbn; unfold EXPIRY_BUFFER_MS; lia).
  destruct (@retry_uses_a_fresh_token unit string testAuthConfig testClientConfig
              staleUpstream "/api/rating/v2409/Shop" tt warmWire testToken 5500
              unauthorized 6000
              (HttpOk 200 (BodyObject {| access_token := Some "token_v2";
                                         token_type := Some "Bearer";
                                         expires_in := Some (SecondsNumber 14399) |}))
              eq_refl Hfresh eq_refl eq_refl eq_refl eq_refl)
    as (Hposts & _ & Hok).
  split; [|exact Hposts].
  destruct (Hok {| accessToken := "token_v2"; expiresAt := 6000 + 14399 * 1000;
                   tokenType := "Bearer" |} eq_refl) as (_ & _ & Hbody).
  apply (Hbody 5501 200 "rates"). reflexivity.
Defined.

Lemma token_failure_sends_no_api_call_witness :
  fst (post testAuthConfig testClientConfig lockedUpstream "/api/rating/v2409/Shop" tt
         freshWire)
  = Err (authError UPS "Invalid client credentials" (Some 401) 1200)
  /\ apiPosts (snd (post testAuthConfig testClientConfig lockedUpstream
                      "/api/rating/v2409/Shop" tt freshWire)) = 0%nat.
Proof.
  rewrite (@token_failure_sends_no_api_call unit string testAuthConfig testClientConfig
             lockedUpstream "/api/rating/v2409/Shop" tt freshWire 1200 rejected401
             (authError UPS "Invalid client credentials" (Some 401) 1200)
             eq_refl eq_refl eq_refl eq_refl).
  split; reflexivity.
Defined.

(** ** Response mapping: surcharges, transit days, service tables *)

Lemma js_positive_spec :
  forall v, js_positive v = true <-> greaterThanZero v.
Proof.
  intros [| |q|]; cbn; unfold Qpositive; try (split; [discriminate|contradiction]).
  - destruct (Qlt_le_dec 0 q); split; intros H; try assumption; try reflexivity;
      try discriminate H. lra.
  - tauto.
Qed.

(** X12.  Surcharge filtering.  The surcharges of a quote are made of the
    itemized charges whose amount is greater than zero (not zero, negative
    or NaN), and of no other: one object counts as a one-element array, a
    missing field as none; every surcharge produced has an amount greater
    than zero, and there are never more surcharges than itemized charges. *)
Theorem surcharges_are_the_positive_itemized_charges :
  forall (np : NumberParsing) (itemized : OneOrMany UpsItemizedCharge),
    (forall s,
        In s (mapUpsSurcharges itemized) <->
        exists charge,
          In charge (elements itemized)
          /\ greaterThanZero (parseFloat (ItemizedMonetaryValue charge))
          /\ s = surchargeOf charge)
    /\ Forall (fun s => greaterThanZero (amount (surchargeAmount s)))
              (mapUpsSurcharges itemized)
    /\ (List.length (mapUpsSurcharges itemized) <= List.length (elements itemized))%nat.
Proof.
  intros np itemized.
  assert (Hshape : mapUpsSurcharges itemized
                   = map surchargeOf
                       (filter (fun c => js_positive (parseFloat (ItemizedMonetaryValue c)))
                               (elements itemized))).
  { destruct itemized; reflexivity. }
  rewrite Hshape. split; [|split].
  - intros s. rewrite in_map_iff. split.
    + intros (c & Hs & Hin). apply filter_In in Hin. destruct Hin as [Hin Hpos].
      exists c. split; [exact Hin|]. split; [|symmetry; exact Hs].
      apply js_positive_spec. exact Hpos.
    + intros (c & Hin & Hpos & Hs). exists c. split; [symmetry; exact Hs|].
      apply filter_In. split; [exact Hin|]. apply js_positive_spec. exact Hpos.
  - apply Forall_forall. intros s Hs. apply in_map_iff in Hs.
    destruct Hs as (c & <- & Hin). apply filter_In in Hin. destruct Hin as [_ Hpos].
    cbn [surchargeOf surchargeAmount amount]. apply js_positive_spec. exact Hpos.
  - rewrite length_map. apply filter_length_le.
Qed.

(** X13.  Transit days.  In the quote of a rated shipment, a non-empty
    guaranteed transit time wins over the time-in-transit estimate; when
    the guaranteed-delivery block is absent, or its transit time is absent
    or empty, the estimate is used when it is non-empty, and otherwise
    there are no transit days.  The quote is guaranteed exactly when the
    block is present, whatever it holds. *)
Theorem transit_days_precedence :
  forall (np : NumberParsing) (rated : UpsRatedShipment) (quote : RateQuote),
    mapFromUpsRatedShipment rated = Ok quote ->
    let estimate :=
      match estimatedArrival rated with
      | Some ea =>
          match BusinessDaysInTransit ea with
          | Some (String _ _ as days) => Some (parseInt10 days)
          | _ => None
          end
      | None => None
      end in
    (forall g days,
        GuaranteedDelivery rated = Some g ->
        GuaranteedBusinessDaysInTransit g = Some days ->
        days <> "" ->
        transitDays quote = Some (parseInt10 days))
    /\ (GuaranteedDelivery rated = None -> transitDays quote = estimate)
    /\ (forall g,
           GuaranteedDelivery rated = Some g ->
           GuaranteedBusinessDaysInTransit g = None
           \/ GuaranteedBusinessDaysInTransit g = Some "" ->
           transitDays quote = estimate /\ guaranteed quote = true)
    /\ (guaranteed quote = true <-> GuaranteedDelivery rated <> None).
Proof.
  intros np rated quote Hmap estimate. subst estimate.
  destruct (@mapFromUpsRatedShipment_ok _ _ _ Hmap)
    as (service & total & base & billing & unit & _ & _ & _ & _ & _ & ->).
  cbn [transitDays guaranteed]. unfold parseTransitDays.
  split; [|split; [|split]].
  - intros g days Hg Hd Hne. rewrite Hg, Hd. destruct days; [congruence|reflexivity].
  - intros Hg. rewrite Hg.
    destruct (estimatedArrival rated) as [ea|]; [|reflexivity].
    destruct (BusinessDaysInTransit ea) as [[|c d]|]; reflexivity.
  - intros g Hg Hd. rewrite Hg. split; [|reflexivity].
    destruct Hd as [Hd|Hd]; rewrite Hd;
      destruct (estimatedArrival rated) as [ea|]; try reflexivity;
      destruct (BusinessDaysInTransit ea) as [[|c d]|]; reflexivity.
  - destruct (GuaranteedDelivery rated); split; congruence.
Qed.

Lemma transit_days_precedence_witness :
  map transitDays (quoteOf estimatedShipment) = [Some (Finite 3)]
  /\ map guaranteed (quoteOf estimatedShipment) = [true].
Proof.
  unfold quoteOf.
  destruct (mapFromUpsRatedShipment estimatedShipment) as [quote|error] eqn:Hmap;
    [|discriminate Hmap].
  destruct (@transit_days_precedence decimalParsing estimatedShipment quote Hmap)
    as (_ & _ & Hempty & _).
  destruct (Hempty {| GuaranteedBusinessDaysInTransit := Some ""; DeliveryByTime := None |}
                   eq_refl (or_intror eq_refl)) as [Hdays Hguaranteed].
  cbn [map]. rewrite Hdays, Hguaranteed. split; reflexivity.
Defined.

Ltac split_on_code c :=
  repeat match goal with
         | |- context [String.eqb c ?k] =>
             destruct (String.eqb_spec c k); [subst c|]
         | H : context [String.eqb c ?k] |- _ =>
             destruct (String.eqb_spec c k); [subst c|]
         end.

Lemma service_tables_agree :
  (forall level,
      exists c n,
        SERVICE_LEVEL_TO_UPS_CODE level = Some c
        /\ c <> ""
        /\ table_lookup c UPS_SERVICE_CODE_TO_LEVEL = Some level
        /\ table_lookup c UPS_SERVICE_NAMES = Some n)
  /\ (forall c level,
         table_lookup c UPS_SERVICE_CODE_TO_LEVEL = Some level ->
         SERVICE_LEVEL_TO_UPS_CODE level = Some c)
  /\ (forall c,
         table_lookup c UPS_SERVICE_NAMES = None
         <-> table_lookup c UPS_SERVICE_CODE_TO_LEVEL = None).
Proof.
  split; [|split].
  - intros level. destruct level; eexists; eexists;
      (split; [reflexivity|]); (split; [discriminate|]); split; reflexivity.
  - intros c level H. unfold UPS_SERVICE_CODE_TO_LEVEL in H. cbn [table_lookup] in H.
    split_on_code c; try discriminate H; inversion H; reflexivity.
  - intros c. unfold UPS_SERVICE_NAMES, UPS_SERVICE_CODE_TO_LEVEL. cbn [table_lookup].
    split_on_code c; cbn; split; intros H; try discriminate H; reflexivity.
Qed.

(** X14.  The service tables agree.  Every service level has a UPS code;
    that code maps back to the level and has a display name.  Conversely a
    code that maps to a level is the code of that level, and the codes with a
    display name are exactly the codes with a level. *)
Theorem service_tables_are_mutually_inverse :
  (forall level,
      exists c n,
        SERVICE_LEVEL_TO_UPS_CODE level = Some c
        /\ c <> ""
        /\ table_lookup c UPS_SERVICE_CODE_TO_LEVEL = Some level
        /\ table_lookup c UPS_SERVICE_NAMES = Some n)
  /\ (forall c level,
         table_lookup c UPS_SERVICE_CODE_TO_LEVEL = Some level ->
         SERVICE_LEVEL_TO_UPS_CODE level = Some c)
  /\ (forall c,
         table_lookup c UPS_SERVICE_NAMES = None
         <-> table_lookup c UPS_SERVICE_CODE_TO_LEVEL = None).
Proof.
  exact service_tables_agree.
Qed.

Lemma service_tables_are_mutually_inverse_witness :
  SERVICE_LEVEL_TO_UPS_CODE GROUND = Some "03".
Proof.
  exact (proj1 (proj2 service_tables_are_mutually_inverse) "03" GROUND eq_refl).
Defined.

Lemma surcharges_are_the_positive_itemized_charges_witness :
  map surchargeCode (mapUpsSurcharges (Several [zeroSurcharge; fuelSurcharge])) = ["375"]
  /\ In (surchargeOf fuelSurcharge) (mapUpsSurcharges (Single fuelSurcharge)).
Proof.
  split; [reflexivity|].
  apply (proj1 (surcharges_are_the_positive_itemized_charges decimalParsing
                  (Single fuelSurcharge))).
  exists fuelSurcharge. split; [left; reflexivity|]. split; [reflexivity|reflexivity].
Defined.

(** ** Request mapping *)

(** X15.  A single-service request always names its service.  When the
    request restricts the service level, the wire request asks for "Rate"
    and carries the UPS code of that level with its display name; the code
    maps back to the requested level.  Without a service level the wire
    request asks for "Shop" and carries no service. *)
Theorem single_service_request_names_its_service :
  forall (pr : NumberPrinting) (request : RateRequest) (accountNumber : string),
    let wire := mapToUpsRateRequest request accountNumber in
    (forall level,
        serviceLevel request = Some level ->
        RequestOption (Request wire) = "Rate"
        /\ exists c n,
             ShipmentService (Shipment wire) = Some {| Code := c; Description := Some n |}
             /\ SERVICE_LEVEL_TO_UPS_CODE level = Some c
             /\ table_lookup c UPS_SERVICE_CODE_TO_LEVEL = Some level
             /\ table_lookup c UPS_SERVICE_NAMES = Some n)
    /\ (serviceLevel request = None ->
        RequestOption (Request wire) = "Shop"
        /\ ShipmentService (Shipment wire) = None).
Proof.
  intros pr request accountNumber wire. subst wire.
  unfold mapToUpsRateRequest. cbn [Request Shipment RequestOption ShipmentService].
  split.
  - intros level Hl. rewrite Hl. split; [reflexivity|].
    destruct level; eexists; eexists; repeat split.
  - intros Hl. rewrite Hl. split; reflexivity.
Qed.

Lemma single_service_request_names_its_service_witness :
  ShipmentService (Shipment (mapToUpsRateRequest
                               (withServiceLevel sampleRateRequest (Some GROUND)) "A1B2C3"))
  = Some {| Code := "03"; Description := Some "UPS Ground" |}
  /\ RequestOption (Request (mapToUpsRateRequest sampleRateRequest "A1B2C3")) = "Shop".
Proof.
  destruct (single_service_request_names_its_service fixturePrinting
              (withServiceLevel sampleRateRequest (Some GROUND)) "A1B2C3") as [Hrate _].
  destruct (single_service_request_names_its_service fixturePrinting
              sampleRateRequest "A1B2C3") as [_ Hshop].
  split; [|exact (proj1 (Hshop eq_refl))].
  destruct (Hrate GROUND eq_refl) as (_ & c & n & Hservice & Hcode & _ & Hname).
  injection Hcode as <-. injection Hname as <-. exact Hservice.
Defined.

(** X16.  A quoted service can be requested again.  For a rated shipment
    whose service code is in the code table, the quote carries the level
    and the name that the tables give for the code, and a request for that
    service level is mapped to that same code, with the quote's service
    name as description. *)
Theorem quoted_service_can_be_requested_again :
  forall (np : NumberParsing) (pr : NumberPrinting) (rated : UpsRatedShipment)
         (quote : RateQuote) (request : RateRequest) (accountNumber : string),
    mapFromUpsRatedShipment rated = Ok quote ->
    table_lookup (serviceCode quote) UPS_SERVICE_CODE_TO_LEVEL <> None ->
    exists level n,
      quoteServiceLevel quote = Plain level
      /\ serviceName quote = Plain n
      /\ (serviceLevel request = Some level ->
          ShipmentService (Shipment (mapToUpsRateRequest request accountNumber))
          = Some {| Code := serviceCode quote; Description := Some n |}).
Proof.
  intros np pr rated quote request accountNumber Hmap Hknown.
  destruct (@mapFromUpsRatedShipment_ok _ _ _ Hmap)
    as (service & total & base & billing & unit & _ & _ & _ & _ & _ & ->).
  cbn [quoteServiceLevel serviceCode serviceName] in *.
  destruct (table_lookup (Code service) UPS_SERVICE_CODE_TO_LEVEL)
    as [level|] eqn:Hl; [|congruence].
  pose proof (proj1 (proj2 service_tables_agree) _ _ Hl) as Hback.
  destruct (proj1 service_tables_agree level)
    as (c & n & Hc & Hne & _ & Hn).
  rewrite Hback in Hc. injection Hc as <-.
  exists level, n.
  split; [apply index_or_own; exact Hl|].
  split; [apply index_or_own; exact Hn|].
  intros Hlevel.
  unfold mapToUpsRateRequest. cbn [Shipment ShipmentService]. rewrite Hlevel.
  rewrite Hback, Hn. destruct (Code service); [congruence|reflexivity].
Qed.

Lemma quoted_service_can_be_requested_again_witness :
  map quoteServiceLevel (quoteOf (ratedShipment "02" None "28.75")) = [Plain SECOND_DAY_AIR]
  /\ ShipmentService
       (Shipment (mapToUpsRateRequest
                    (withServiceLevel sampleRateRequest (Some SECOND_DAY_AIR)) "A1B2C3"))
     = Some {| Code := "02"; Description := Some "UPS 2nd Day Air" |}.
Proof.
  unfold quoteOf.
  destruct (mapFromUpsRatedShipment (ratedShipment "02" None "28.75"))
    as [quote|error] eqn:Hmap; [|discriminate Hmap].
  assert (Hcode : serviceCode quote = "02") by (injection Hmap as <-; reflexivity).
  assert (Hknown : table_lookup (serviceCode quote) UPS_SERVICE_CODE_TO_LEVEL <> None)
    by (rewrite Hcode; discriminate).
  destruct (@quoted_service_can_be_requested_again decimalParsing fixturePrinting
              (ratedShipment "02" None "28.75") quote
              (withServiceLevel sampleRateRequest (Some SECOND_DAY_AIR)) "A1B2C3"
              Hmap Hknown)
    as (level & n & Hlevel & Hname & Hagain).
  assert (Hl : level = SECOND_DAY_AIR)
    by (injection Hmap as <-; injection Hlevel as <-; reflexivity).
  assert (Hn : n = "UPS 2nd Day Air")
    by (injection Hmap as <-; injection Hname as <-; reflexivity).
  subst level n. cbn [map]. rewrite Hlevel, <- Hcode.
  split; [reflexivity|]. apply Hagain. reflexivity.
Defined.

(** X17.  What the address mapping keeps.  Two addresses with the same wire
    address have the same lines, city, state, postal code and country, and
    agree on being residential; the wire address carries the indicator "Y"
    exactly when the residential flag is true, and nothing for false or
    absent. *)
Theorem address_mapping_keeps_all_but_the_flag :
  forall a b : Address,
    (mapToUpsAddress a = mapToUpsAddress b ->
     addressLines a = addressLines b
     /\ city a = city b
     /\ stateCode a = stateCode b
     /\ postalCode a = postalCode b
     /\ countryCode a = countryCode b
     /\ (isResidential a = Some true <-> isResidential b = Some true))
    /\ (ResidentialAddressIndicator (mapToUpsAddress a) = Some "Y"
        <-> isResidential a = Some true)
    /\ (ResidentialAddressIndicator (mapToUpsAddress a) = None
        <-> isResidential a <> Some true).
Proof.
  intros a b. unfold mapToUpsAddress. cbn [ResidentialAddressIndicator].
  split; [|split].
  - intros H. injection H as Hl Hc Hs Hp Hcc Hr.
    repeat (split; [assumption|]).
    destruct (isResidential a) as [[|]|], (isResidential b) as [[|]|];
      split; intros; congruence.
  - destruct (isResidential a) as [[|]|]; split; intros; congruence.
  - destruct (isResidential a) as [[|]|]; split; intros; congruence.
Qed.

Lemma address_mapping_keeps_all_but_the_flag_witness :
  warehouse <> origin sampleRateRequest
  /\ mapToUpsAddress warehouse = mapToUpsAddress (origin sampleRateRequest)
  /\ postalCode warehouse = postalCode (origin sampleRateRequest)
  /\ ResidentialAddressIndicator (mapToUpsAddress (destination sampleRateRequest))
     = Some "Y"
  /\ ResidentialAddressIndicator (mapToUpsAddress warehouse) = None.
Proof.
  destruct (address_mapping_keeps_all_but_the_flag warehouse (origin sampleRateRequest))
    as (Hsame & _ & Hnone).
  destruct (address_mapping_keeps_all_but_the_flag (destination sampleRateRequest)
              (destination sampleRateRequest)) as (_ & Hflag & _).
  split; [discriminate|]. split; [reflexivity|]. split; [|split].
  - exact (proj1 (proj2 (proj2 (proj2 (Hsame eq_refl))))).
  - apply Hflag. reflexivity.
  - apply Hnone. discriminate.
Defined.

(** X18.  Packaging codes.  Distinct packaging types have distinct UPS
    codes, and a package without packaging type is sent with the code of
    CUSTOM: two packages with the same wire packaging code have the same
    packaging type, up to absent standing for CUSTOM. *)
Theorem packaging_code_determines_the_type :
  forall (pr : NumberPrinting) (p q : Package),
    let effective pkg := match packagingType pkg with
                         | Some t => t
                         | None => CUSTOM
                         end in
    WireCode (PackagingTypeOf (mapToUpsPackage p))
    = WireCode (PackagingTypeOf (mapToUpsPackage q))
    <-> effective p = effective q.
Proof.
  intros pr p q effective. subst effective.
  unfold mapToUpsPackage. cbn [PackagingTypeOf WireCode].
  destruct (packagingType p) as [[]|], (packagingType q) as [[]|];
    cbn; split; intros H; try reflexivity; discriminate H.
Qed.

(** ** Rating operation *)





(** ** Carrier registry *)

Lemma CarrierId_eqb_spec :
  forall a b, reflect (a = b) (CarrierId_eqb a b).
Proof.
  intros a b. destruct a, b; cbn; constructor; congruence.
Qed.

Section RegistryFacts.
Variable W : Type.
Local Open Scope list_scope.

Lemma registry_find_app :
  forall id (reg : CarrierRegistry W) k p,
    registry_find id (reg ++ [(k, p)])
    = match registry_find id reg with
      | Some found => Some found
      | None => if CarrierId_eqb id k then Some p else None
      end.
Proof.
  intros id reg k p. induction reg as [|[k' p'] reg IH]; cbn.
  - reflexivity.
  - destruct (CarrierId_eqb id k'); [reflexivity|exact IH].
Qed.

Lemma registry_find_none :
  forall id (reg : CarrierRegistry W),
    registry_find id reg = None <-> ~ In id (map fst reg).
Proof.
  intros id reg. induction reg as [|[k p] reg IH]; cbn.
  - tauto.
  - destruct (CarrierId_eqb_spec id k) as [->|Hne].
    + split; [discriminate|]. intros H. exfalso. apply H. left. reflexivity.
    + rewrite IH. split.
      * intros H [Heq|Hin]; [congruence|contradiction].
      * intros H Hin. apply H. right. exact Hin.
Qed.

Lemma registry_find_keyed :
  forall (reg : CarrierRegistry W) k p,
    NoDup (map fst reg) -> In (k, p) reg -> registry_find k reg = Some p.
Proof.
  intros reg k p. induction reg as [|[k' p'] reg IH]; intros Hnd Hin; [contradiction|].
  cbn in Hnd. inversion Hnd as [|? ? Hfresh Hnd']; subst.
  cbn. destruct Hin as [Heq|Hin].
  - injection Heq as -> ->. destruct (CarrierId_eqb_spec k k); [reflexivity|congruence].
  - destruct (CarrierId_eqb_spec k k') as [->|Hne].
    + exfalso. apply Hfresh. apply in_map_iff. exists (k', p). split; [reflexivity|exact Hin].
    + apply IH; assumption.
Qed.

(** X20.  Register, then get.  A provider can be registered exactly when
    its id is not yet registered; a second registration of the same id is a
    configuration error and leaves the registry as it was.  After a
    successful registration, [get] of the provider's id returns that
    provider, the other ids are looked up as before, and the provider is
    last in the order of [getAll]. *)
Theorem register_then_get :
  forall (reg : CarrierRegistry W) (provider : CarrierProvider W) (now : Z),
    (registry_has reg (carrierId provider) = true ->
     exists e,
       register reg provider now = Err e
       /\ code e = CONFIGURATION_ERROR
       /\ retryable e = false)
    /\ (registry_has reg (carrierId provider) = false ->
        exists reg',
          register reg provider now = Ok reg'
          /\ (forall later, registry_get reg' (carrierId provider) later = Ok provider)
          /\ (forall id, id <> carrierId provider ->
                         registry_find id reg' = registry_find id reg)
          /\ getAll reg' = (getAll reg ++ [provider])%list
          /\ (exists e, register reg' provider now = Err e)).
Proof.
  intros reg provider now. unfold register. split.
  - intros Hhas. rewrite Hhas. eexists. repeat split.
  - intros Hnew. rewrite Hnew. eexists. split; [reflexivity|].
    unfold registry_has in Hnew.
    destruct (registry_find (carrierId provider) reg) eqn:Hfind; [discriminate|].
    split; [|split; [|split]].
    + intros later. unfold registry_get. rewrite registry_find_app, Hfind.
      destruct (CarrierId_eqb_spec (carrierId provider) (carrierId provider));
        [reflexivity|congruence].
    + intros id Hne. rewrite registry_find_app.
      destruct (registry_find id reg); [reflexivity|].
      destruct (CarrierId_eqb_spec id (carrierId provider)); [contradiction|reflexivity].
    + unfold getAll. rewrite map_app. reflexivity.
    + unfold registry_has. rewrite registry_find_app, Hfind.
      destruct (CarrierId_eqb_spec (carrierId provider) (carrierId provider));
        [|congruence].
      eexists. reflexivity.
Qed.

Lemma register_keeps_keys :
  forall (reg reg' : CarrierRegistry W) provider now,
    keyed_by_id reg ->
    register reg provider now = Ok reg' ->
    keyed_by_id reg' /\ reg' = (reg ++ [(carrierId provider, provider)])%list.
Proof.
  intros reg reg' provider now [Hnd Hkeys]. unfold register, registry_has.
  destruct (registry_find (carrierId provider) reg) eqn:Hfind; [discriminate|].
  intros H. injection H as <-. split; [|reflexivity]. split.
  - rewrite map_app. cbn [map fst].
    apply NoDup_app; [exact Hnd|repeat constructor; intros []|].
    intros id Hin [<-|[]]. apply registry_find_none in Hfind. contradiction.
  - apply Forall_app. split; [exact Hkeys|]. repeat constructor.
Qed.

Lemma registerAll_from :
  forall (ps : list (CarrierProvider W)) (reg : CarrierRegistry W) now,
    keyed_by_id reg ->
    (forall reg',
        registerAll reg ps now = Ok reg' ->
        keyed_by_id reg'
        /\ reg' = (reg ++ map (fun p => (carrierId p, p)) ps)%list)
    /\ ((exists reg', registerAll reg ps now = Ok reg')
        <-> NoDup (map fst reg ++ map (@carrierId W) ps)).
Proof.
  induction ps as [|p ps IH]; intros reg now Hkeyed.
  - cbn [registerAll map]. rewrite !app_nil_r. split.
    + intros reg' H. injection H as <-. split; [exact Hkeyed|reflexivity].
    + split; [intros _; apply Hkeyed|intros _; eexists; reflexivity].
  - cbn [registerAll map].
    destruct (register reg p now) as [reg1|e] eqn:Hreg.
    + destruct (@register_keeps_keys reg reg1 p now Hkeyed Hreg) as [Hkeyed1 ->].
      destruct (IH _ now Hkeyed1) as [Hshape Hiff].
      rewrite map_app in Hiff. cbn [map fst] in Hiff. rewrite <- app_assoc in Hiff.
      split.
      * intros reg' H. destruct (Hshape reg' H) as [Hk ->].
        split; [exact Hk|]. rewrite <- app_assoc. reflexivity.
      * exact Hiff.
    + split; [intros reg' H; discriminate H|].
      split; [intros [reg' H]; discriminate H|].
      intros Hnd. exfalso. unfold register, registry_has in Hreg.
      destruct (registry_find (carrierId p) reg) eqn:Hfind; [|discriminate].
      assert (Hin : In (carrierId p) (map fst reg)).
      { destruct (in_dec (fun a b => reflect_dec _ _ (CarrierId_eqb_spec a b))
                         (carrierId p) (map fst reg)) as [Hin|Hout]; [exact Hin|].
        apply registry_find_none in Hout. congruence. }
      apply NoDup_remove_2 in Hnd. apply Hnd. apply in_or_app. left. exact Hin.
Qed.

Lemma registerAll_from_empty :
  forall (ps : list (CarrierProvider W)) (now : Z),
    ((exists reg, registerAll [] ps now = Ok reg) <-> NoDup (map (@carrierId W) ps))
    /\ (forall reg,
           registerAll [] ps now = Ok reg ->
           getAll reg = ps
           /\ listCarrierIds reg = map (@carrierId W) ps
           /\ (forall p later, In p ps -> registry_get reg (carrierId p) later = Ok p)
           /\ (forall later, getByIds reg (listCarrierIds reg) later = Ok ps)).
Proof.
  intros ps now.
  assert (Hempty : keyed_by_id (@nil (CarrierId * CarrierProvider W)))
    by (split; constructor).
  destruct (@registerAll_from ps [] now Hempty) as [Hshape Hiff].
  split; [exact Hiff|].
  intros reg Hreg. destruct (Hshape reg Hreg) as [[Hnd Hkeys] ->]. cbn [app] in *.
  assert (Hget : forall p later, In p ps ->
                 registry_get (map (fun p => (carrierId p, p)) ps) (carrierId p) later
                 = Ok p).
  { intros p later Hin. unfold registry_get.
    rewrite (@registry_find_keyed _ (carrierId p) p Hnd); [reflexivity|].
    apply in_map_iff. exists p. split; [reflexivity|exact Hin]. }
  split; [|split; [|split]].
  - unfold getAll. rewrite map_map. cbn [snd]. apply map_id.
  - unfold listCarrierIds. rewrite map_map. reflexivity.
  - exact Hget.
  - intros later. unfold listCarrierIds. rewrite map_map. cbn [fst].
    assert (Hsub : forall qs, incl qs ps ->
                   getByIds (map (fun p => (carrierId p, p)) ps)
                            (map (@carrierId W) qs) later = Ok qs).
    { induction qs as [|q qs IHq]; intros Hincl; [reflexivity|].
      cbn [map getByIds]. rewrite (Hget q later (Hincl q (or_introl eq_refl))).
      rewrite IHq; [reflexivity|]. intros x Hx. apply Hincl. right. exact Hx. }
    apply Hsub. apply incl_refl.
Qed.

(** X21.  Registering a list of providers.  Registering providers one after
    the other into an empty registry succeeds exactly when their ids are
    distinct.  The registry then lists the providers and their ids in
    registration order, [get] of each provider's own id returns that
    provider, and [getByIds] of all listed ids returns all providers. *)
Theorem registerAll_succeeds_iff_ids_distinct :
  forall (ps : list (CarrierProvider W)) (now : Z),
    ((exists reg, registerAll [] ps now = Ok reg) <-> NoDup (map (@carrierId W) ps))
    /\ (forall reg,
           registerAll [] ps now = Ok reg ->
           getAll reg = ps
           /\ listCarrierIds reg = map (@carrierId W) ps
           /\ (forall p later, In p ps -> registry_get reg (carrierId p) later = Ok p)
           /\ (forall later, getByIds reg (listCarrierIds reg) later = Ok ps)).
Proof.
  exact registerAll_from_empty.
Qed.

(** X22.  Looking up a list of ids.  [getByIds] fails at the first id that
    is not registered, with a carrier-unavailable error that names this id;
    when every id is registered it returns one provider per id, in order. *)
Theorem getByIds_stops_at_first_unregistered :
  forall (reg : CarrierRegistry W) (ids : list CarrierId) (now : Z),
    (forall before id after,
        ids = (before ++ id :: after)%list ->
        (forall x, In x before -> registry_has reg x = true) ->
        registry_has reg id = false ->
        exists e,
          getByIds reg ids now = Err e
          /\ code e = CARRIER_UNAVAILABLE
          /\ carrier e = Some id
          /\ retryable e = false)
    /\ ((forall x, In x ids -> registry_has reg x = true) ->
        exists providers,
          getByIds reg ids now = Ok providers
          /\ map Some providers = map (fun id => registry_find id reg) ids).
Proof.
  intros reg ids now. split.
  - intros before. revert ids.
    induction before as [|b before IH]; intros ids id after -> Hreg Hmiss.
    + cbn [app getByIds]. unfold registry_get, registry_has in *.
      destruct (registry_find id reg); [discriminate|].
      eexists. repeat split.
    + cbn [app getByIds].
      pose proof (Hreg b (or_introl eq_refl)) as Hb.
      unfold registry_get at 1. unfold registry_has in Hb.
      destruct (registry_find b reg); [|discriminate].
      destruct (IH _ id after eq_refl) as (e & He & Hrest);
        [intros x Hx; apply Hreg; right; exact Hx|exact Hmiss|].
      rewrite He. exists e. split; [reflexivity|exact Hrest].
  - induction ids as [|id ids IH]; intros Hall.
    + exists []. split; reflexivity.
    + cbn [getByIds map]. pose proof (Hall id (or_introl eq_refl)) as Hid.
      unfold registry_get, registry_has in *.
      destruct (registry_find id reg) as [p|]; [|discriminate].
      destruct IH as (providers & Hps & Hmap);
        [intros x Hx; apply Hall; right; exact Hx|].
      rewrite Hps. exists (p :: providers). split; [reflexivity|].
      cbn [map]. rewrite Hmap. reflexivity.
Qed.
End RegistryFacts.

(** ** Request schema *)

Lemma app_is_nil :
  forall (A : Type) (l1 l2 : list A), (l1 ++ l2)%list = [] <-> l1 = [] /\ l2 = [].
Proof.
  intros A l1 l2. split.
  - apply app_eq_nil.
  - intros [-> ->]. reflexivity.
Qed.

Lemma issue_if_nil :
  forall failed path msg, issue_if failed path msg = [] <-> failed = false.
Proof.
  intros failed path msg. destruct failed; cbn; split; intros H; congruence.
Qed.

Lemma each_indexed_nil :
  forall (A : Type) (check : list string -> A -> list ZodIssue) (ok : A -> bool),
    (forall path x, check path x = [] <-> ok x = true) ->
    forall path i l, each_indexed check path i l = [] <-> forallb ok l = true.
Proof.
  intros A check ok Hcheck path i l. revert i.
  induction l as [|x rest IH]; intros i; cbn [each_indexed forallb].
  - tauto.
  - rewrite app_is_nil, Hcheck, IH, andb_true_iff. tauto.
Qed.

Lemma AddressSchema_nil :
  forall (zl : ZodLocale) path a, AddressSchema path a = [] <-> validAddress a = true.
Proof.
  intros zl path a. unfold AddressSchema, validAddress.
  rewrite !app_is_nil, !issue_if_nil.
  rewrite (each_indexed_nil
             (fun p line => issue_if (String.length line <? 1)%nat p
                                     (defaultIssueMessage (StringTooSmall 1)))
             (fun line => (1 <=? String.length line)%nat)).
  2:{ intros p x. rewrite issue_if_nil, Nat.ltb_ge, Nat.leb_le. tauto. }
  rewrite !andb_true_iff, !Nat.ltb_ge, !Nat.leb_le, negb_false_iff. tauto.
Qed.

Lemma PackageSchema_nil :
  forall (zl : ZodLocale) path p, PackageSchema path p = [] <-> validPackage p = true.
Proof.
  intros zl path p.
  unfold PackageSchema, PackageDimensionsSchema, PackageWeightSchema, validPackage.
  rewrite !app_is_nil, !issue_if_nil, !andb_true_iff, !negb_false_iff.
  destruct (declaredValue p) as [v|].
  - unfold DeclaredValueSchema.
    rewrite app_is_nil, !issue_if_nil, andb_true_iff, !negb_false_iff. tauto.
  - tauto.
Qed.

(** X28.  What the schema accepts.  The request schema raises no issue
    exactly when: both addresses have a name, one to three non-empty lines,
    a city, a state code of 2 to 5 characters, a postal code and a
    2-character country code; there are 1 to 50 packages; every package has
    positive dimensions and weight and, when a value is declared, a
    non-negative amount in a 3-character currency. *)
Theorem schema_accepts_exactly_the_valid_requests :
  forall (zl : ZodLocale) (request : RateRequest),
    RateRequestSchema request = [] <-> validRateRequest request = true.
Proof.
  intros zl request. unfold RateRequestSchema, validRateRequest.
  rewrite !app_is_nil, !AddressSchema_nil, !issue_if_nil.
  rewrite (each_indexed_nil PackageSchema validPackage (PackageSchema_nil zl)).
  rewrite !andb_true_iff, !Nat.ltb_ge, !Nat.leb_le. tauto.
Qed.

Lemma schema_accepts_exactly_the_valid_requests_witness :
  RateRequestSchema sampleRateRequest = []
  /\ validRateRequest (withPackages sampleRateRequest []) = false.
Proof.
  split.
  - apply (proj2 (schema_accepts_exactly_the_valid_requests zodEnglish sampleRateRequest)).
    reflexivity.
  - destruct (validRateRequest (withPackages sampleRateRequest [])) eqn:Hv; [|reflexivity].
    apply (proj2 (schema_accepts_exactly_the_valid_requests zodEnglish
                    (withPackages sampleRateRequest []))) in Hv.
    discriminate Hv.
Defined.

(** ** Rate shopping: which carriers are asked, and what comes back *)

Section CarrierSelection.
Context {zl : ZodLocale}.
Variable W : Type.
Variable registry : CarrierRegistry W.
Local Open Scope list_scope.

Lemma queryCarriers_calls :
  forall request now ids w,
    snd (fst (queryCarriers registry request now ids w))
    = filter (registry_has registry) ids.
Proof.
  intros request now ids. induction ids as [|id rest IH]; intros w; [reflexivity|].
  cbn [queryCarriers filter]. unfold registry_get, registry_has.
  destruct (registry_find id registry) as [provider|].
  - destruct (getRates provider request w) as [r w1]. specialize (IH w1).
    destruct (queryCarriers registry request now rest w1) as [[results called] w'].
    cbn [fst snd] in *. rewrite IH. reflexivity.
  - specialize (IH w).
    destruct (queryCarriers registry request now rest w) as [[results called] w'].
    cbn [fst snd] in *. exact IH.
Qed.

Lemma queryCarriers_unregistered :
  forall request now ids w,
    (forall id, In id ids -> registry_has registry id = false) ->
    queryCarriers registry request now ids w
    = (map (fun id => Err (ThrownCarrier (carrierUnavailable id now))) ids, [], w).
Proof.
  intros request now ids w. induction ids as [|id rest IH]; intros Hnone; [reflexivity|].
  cbn [queryCarriers map]. pose proof (Hnone id (or_introl eq_refl)) as Hid.
  unfold registry_get, registry_has in *.
  destruct (registry_find id registry); [discriminate|].
  rewrite IH; [reflexivity|]. intros x Hx. apply Hnone. right. exact Hx.
Qed.

Lemma collect_unavailable :
  forall now ids,
    collect ids (map (fun id => Err (ThrownCarrier (carrierUnavailable id now))) ids) now
    = ([], map (fun id => carrierUnavailable id now) ids).
Proof.
  intros now ids. induction ids as [|id rest IH]; [reflexivity|].
  cbn [map collect]. rewrite IH. reflexivity.
Qed.

Lemma getQuotes_invoked :
  forall request now w,
    RateRequestSchema request = [] ->
    invoked (getQuotes registry request now w)
    = filter (registry_has registry) (resolveCarriers registry (carriers request)).
Proof.
  intros request now w Hvalid.
  rewrite (@getQuotes_valid _ _ registry _ now w Hvalid). unfold shop.
  pose proof (queryCarriers_calls request now
                (resolveCarriers registry (carriers request)) w) as Hcalls.
  destruct (queryCarriers registry request now
              (resolveCarriers registry (carriers request)) w) as [[results called] w'].
  exact Hcalls.
Qed.

(** X23.  Only the carriers asked for are called.  For a valid request,
    [getQuotes] calls [getRates] of exactly the resolved carriers that are
    registered, in the order of the list and as often as they are listed;
    an explicit non-empty carrier list is used as it is; and a response
    lists every resolved carrier, also those that failed or are not
    registered. *)
Theorem only_registered_requested_carriers_are_called :
  forall request now w,
    RateRequestSchema request = [] ->
    let ids := resolveCarriers registry (carriers request) in
    let run := getQuotes registry request now w in
    invoked run = filter (registry_has registry) ids
    /\ (forall c cs, carriers request = Some (c :: cs) -> ids = c :: cs)
    /\ (forall resp, outcome run = Ok resp -> queriedCarriers resp = ids).
Proof.
  intros request now w Hvalid ids run. subst run.
  rewrite (@getQuotes_valid _ _ registry _ now w Hvalid). fold ids.
  split; [|split].
  - unfold shop.
    pose proof (queryCarriers_calls request now ids w) as Hcalls.
    destruct (queryCarriers registry request now ids w) as [[results called] w'].
    exact Hcalls.
  - intros c cs Hc. subst ids. rewrite Hc. reflexivity.
  - intros resp Hok. rewrite shop_outcome in Hok.
    exact (proj2 (@aggregate_ok _ _ _ _ Hok)).
Qed.

(** X24.  Carriers that are not registered.  When a valid request lists
    carriers of which none is registered, [getQuotes] raises the
    carrier-unavailable error of the first listed carrier, calls no provider
    and leaves the world untouched. *)
Theorem unregistered_carriers_are_unavailable :
  forall request now w c cs,
    RateRequestSchema request = [] ->
    carriers request = Some (c :: cs) ->
    (forall id, In id (c :: cs) -> registry_has registry id = false) ->
    getQuotes registry request now w
    = {| outcome := Err (carrierUnavailable c now); invoked := []; world := w |}.
Proof.
  intros request now w c cs Hvalid Hc Hnone.
  rewrite (@getQuotes_valid _ _ registry _ now w Hvalid), Hc.
  cbn [resolveCarriers]. unfold shop.
  rewrite (@queryCarriers_unregistered request now (c :: cs) w Hnone).
  unfold aggregate. rewrite collect_unavailable. reflexivity.
Qed.

(** X25.  Nothing to report is not an error.  For a valid request, when no
    carrier is resolved [getQuotes] returns an empty response without
    calling anyone; more generally, when the carriers produced no quote and
    no failure, the response has no quotes and lists the carriers. *)
Theorem no_quotes_without_failure_is_an_empty_response :
  forall request now w,
    RateRequestSchema request = [] ->
    let ids := resolveCarriers registry (carriers request) in
    let results := fst (fst (queryCarriers registry request now ids w)) in
    (ids = [] ->
     getQuotes registry request now w
     = {| outcome := Ok {| quotes := []; queriedCarriers := []; requestedAt := now |};
          invoked := [];
          world := w |})
    /\ (collect ids results now = ([], []) ->
        outcome (getQuotes registry request now w)
        = Ok {| quotes := []; queriedCarriers := ids; requestedAt := now |}).
Proof.
  intros request now w Hvalid ids results.
  rewrite (@getQuotes_valid _ _ registry _ now w Hvalid). fold ids. split.
  - intros Hnone. rewrite Hnone. reflexivity.
  - intros Hcollect. rewrite shop_outcome. fold results.
    unfold aggregate. rewrite Hcollect. reflexivity.
Qed.
End CarrierSelection.

Section DefaultCarriers.
Context {zl : ZodLocale}.
Variable W : Type.
Local Open Scope list_scope.

(** X26.  By default every rate provider is asked once.  In a registry
    filled by registering providers one after the other, a valid request
    whose carrier list is absent or empty calls [getRates] of every provider
    that supports the rate operation, once each, in registration order, and
    of no other. *)
Theorem every_rate_provider_is_asked_once :
  forall (ps : list (CarrierProvider W)) (registeredAt : Z) (registry : CarrierRegistry W)
         request now w,
    registerAll [] ps registeredAt = Ok registry ->
    RateRequestSchema request = [] ->
    carriers request = None \/ carriers request = Some [] ->
    invoked (getQuotes registry request now w)
    = map (@carrierId W) (filter (@supportsRate W) ps).
Proof.
  intros ps registeredAt registry request now w Hreg Hvalid Hdefault.
  destruct (proj2 (registerAll_from_empty ps registeredAt) registry Hreg)
    as (Hall & _ & Hget & _).
  rewrite (@getQuotes_invoked zl W registry request now w Hvalid).
  assert (Hids : resolveCarriers registry (carriers request)
                 = map (@carrierId W) (filter (@supportsRate W) ps)).
  { destruct Hdefault as [-> | ->]; cbn [resolveCarriers];
      unfold getByOperation; rewrite Hall; reflexivity. }
  rewrite Hids.
  assert (Hkeep : forall qs, incl qs ps ->
                  filter (registry_has registry) (map (@carrierId W) qs)
                  = map (@carrierId W) qs).
  { induction qs as [|q qs IH]; intros Hincl; [reflexivity|].
    cbn [map filter].
    pose proof (Hget q 0 (Hincl q (or_introl eq_refl))) as Hq.
    unfold registry_get, registry_has in *.
    destruct (registry_find (carrierId q) registry); [|discriminate Hq].
    rewrite IH; [reflexivity|]. intros x Hx. apply Hincl. right. exact Hx. }
  apply Hkeep. intros x Hx. apply filter_In in Hx. apply Hx.
Qed.
End DefaultCarriers.

(** X27.  A single carrier's order is kept.  Sorting an ascending list
    changes nothing.  Hence, with UPS as the only registered carrier, a
    valid request without carrier list gets the quotes that the UPS
    [getRates] returns (in the same order when no total-charge amount is
    NaN, and rearranged at most otherwise), or raises exactly the error
    that [getRates] raised; the world is the one [getRates] left. *)
Theorem single_carrier_result_is_returned_as_is :
  forall (np : NumberParsing) (zl : ZodLocale) authCfg cfg up account version
         request now w,
    (forall l, ascending l -> js_sort byTotalCharges l = l)
    /\ (RateRequestSchema request = [] ->
        carriers request = None ->
        let registry := [(UPS, UpsCarrier authCfg cfg up account version)] in
        let run := getQuotes registry request now w in
        let rates := ups_getRates authCfg cfg up account version request w in
        invoked run = [UPS]
        /\ world run = snd rates
        /\ (forall found,
               fst rates = Ok found ->
               exists sorted,
                 outcome run = Ok {| quotes := sorted; queriedCarriers := [UPS];
                                     requestedAt := now |}
                 /\ Permutation found sorted
                 /\ (Forall numericTotal found -> sorted = found))
        /\ (forall e, fst rates = Err e -> outcome run = Err e)).
Proof.
  intros np zl authCfg cfg up account version request now w.
  assert (Hid : forall l, ascending l -> js_sort byTotalCharges l = l).
  { intros l Hl.
    change (js_sort byTotalCharges l) with (js_sort (compareBy totalAmount) l).
    apply js_sort_sorted_id. apply StronglySorted_Sorted. exact Hl. }
  split; [exact Hid|].
  intros Hvalid Hnone. cbv zeta.
  rewrite (@getQuotes_valid _ _ _ _ now w Hvalid), Hnone.
  destruct (ups_getRates authCfg cfg up account version request w)
    as [[found|e] w'] eqn:Hrates.
  - assert (Hsorted : Forall numericTotal found -> ascending found).
    { assert (Hfst : fst (ups_getRates authCfg cfg up account version request w)
                     = Ok found) by (rewrite Hrates; reflexivity).
      destruct (@ups_getRates_ok _ _ _ _ _ _ _ _ _ Hfst)
        as (body & w1 & _ & Hparse).
      destruct (@parseResponse_ok _ _ _ _ Hparse) as (reported & _ & ->).
      intros Hnum. apply sort_by_total_charges. apply numericTotal_sorted. exact Hnum. }
    cbn [resolveCarriers getByOperation getAll map snd filter supportedOperations
         UpsCarrier existsb CarrierOperation_eqb orb carrierId].
    unfold shop. cbn [queryCarriers registry_get registry_find CarrierId_eqb getRates
                      UpsCarrier].
    rewrite Hrates. cbn [fst snd invoked world outcome].
    split; [reflexivity|]. split; [reflexivity|]. split.
    + intros found' H. injection H as <-.
      exists (js_sort byTotalCharges found).
      split; [|split].
      * unfold aggregate. cbn [collect]. rewrite app_nil_r.
        destruct found as [|q qs]; reflexivity.
      * apply sort_by_total_charges.
      * intros Hnum. apply Hid. apply Hsorted. exact Hnum.
    + intros e H. discriminate H.
  - cbn [resolveCarriers getByOperation getAll map snd filter supportedOperations
         UpsCarrier existsb CarrierOperation_eqb orb carrierId].
    unfold shop. cbn [queryCarriers registry_get registry_find CarrierId_eqb getRates
                      UpsCarrier].
    rewrite Hrates. cbn [fst snd invoked world outcome].
    split; [reflexivity|]. split; [reflexivity|]. split.
    + intros found H. discriminate H.
    + intros e' H. injection H as <-. reflexivity.
Qed.

Section FailureOrder.
Context {zl : ZodLocale}.
Variable W : Type.
Variable registry : CarrierRegistry W.
Local Open Scope list_scope.

Lemma collect_first_failure :
  forall now id reason ids2 rs2 ids1 rs1,
    List.length rs1 = List.length ids1 ->
    (forall r, In r rs1 -> exists found, r = Ok found) ->
    snd (collect (ids1 ++ id :: ids2) (rs1 ++ Err reason :: rs2) now)
    = collectedError id reason now :: snd (collect ids2 rs2 now).
Proof.
  intros now id reason ids2 rs2. induction ids1 as [|i ids1 IH]; intros rs1 Hlen Hok.
  - destruct rs1; [|discriminate Hlen]. cbn [app collect].
    destruct (collect ids2 rs2 now). reflexivity.
  - destruct rs1 as [|r rs1]; [discriminate Hlen|].
    cbn [List.length] in Hlen. injection Hlen as Hlen.
    destruct (Hok r (or_introl eq_refl)) as [found ->].
    cbn [app collect].
    specialize (IH rs1 Hlen (fun x Hx => Hok x (or_intror Hx))).
    destruct (collect (ids1 ++ id :: ids2) (rs1 ++ Err reason :: rs2) now).
    exact IH.
Qed.

(** X29.  Which failure is raised.  For a valid request that produced no
    quote, the error raised is the failure of the first carrier, in the
    order of the resolved list, whose call failed, however the calls
    completed: a CarrierError is raised as it is, and any other rejection as
    an unknown error that names that carrier and is not retryable. *)
Theorem first_failure_follows_carrier_order :
  forall request now w ids1 id ids2 rs1 reason rs2,
    RateRequestSchema request = [] ->
    let ids := resolveCarriers registry (carriers request) in
    let results := fst (fst (queryCarriers registry request now ids w)) in
    ids = ids1 ++ id :: ids2 ->
    results = rs1 ++ Err reason :: rs2 ->
    List.length rs1 = List.length ids1 ->
    (forall r, In r rs1 -> exists found, r = Ok found) ->
    fst (collect ids results now) = [] ->
    let raised := outcome (getQuotes registry request now w) in
    raised = Err (collectedError id reason now)
    /\ (forall e, reason = ThrownCarrier e -> raised = Err e)
    /\ (forall e,
           (forall e0, reason <> ThrownCarrier e0) ->
           raised = Err e ->
           code e = UNKNOWN /\ carrier e = Some id /\ retryable e = false).
Proof.
  intros request now w ids1 id ids2 rs1 reason rs2 Hvalid ids results
         Hids Hresults Hlen Hok Hnone raised.
  assert (Hraised : raised = Err (collectedError id reason now)).
  { subst raised. rewrite (@getQuotes_valid _ _ registry _ now w Hvalid), shop_outcome.
    fold ids. fold results. unfold aggregate.
    pose proof (@collect_first_failure now id reason ids2 rs2 ids1 rs1 Hlen Hok) as Hfirst.
    rewrite <- Hids, <- Hresults in Hfirst.
    destruct (collect ids results now) as [allQuotes errors].
    cbn [fst snd] in *. subst allQuotes errors. reflexivity. }
  split; [exact Hraised|]. split.
  - intros e ->. exact Hraised.
  - intros e Hraw He. rewrite Hraised in He. injection He as <-.
    destruct reason as [e0| | |]; [exfalso; apply (Hraw e0); reflexivity| | |];
      repeat split.
Qed.
End FailureOrder.

(** ** The extra properties on the fixtures of the test suite *)

Lemma classified_errors_are_structured_witness :
  retryable (classifyError testClientConfig (ThrownAxios serverErrorNoBody) 0) = true
  /\ carrier (classifyError testClientConfig (ThrownAxios badRequest) 0) = Some UPS.
Proof.
  pose proof (classified_errors_are_structured testClientConfig
                (ThrownAxios serverErrorNoBody) 0) as Hserver.
  pose proof (classified_errors_are_structured testClientConfig
                (ThrownAxios badRequest) 0) as Hbad.
  cbv zeta in Hserver, Hbad. cbv iota in Hserver, Hbad.
  destruct Hserver as (_ & _ & _ & Hretry). destruct Hbad as (Hups & _).
  split; [|exact Hups].
  apply Hretry. right. split; [reflexivity|]. exists 500. split; [reflexivity|lia].
Defined.

Lemma packaging_code_determines_the_type_witness :
  WireCode (PackagingTypeOf (mapToUpsPackage plainPackage))
  = WireCode (PackagingTypeOf (mapToUpsPackage customPackage))
  /\ WireCode (PackagingTypeOf (mapToUpsPackage letterPackage))
     <> WireCode (PackagingTypeOf (mapToUpsPackage customPackage)).
Proof.
  split.
  - apply (proj2 (packaging_code_determines_the_type fixturePrinting
                    plainPackage customPackage)). reflexivity.
  - intros Hsame.
    apply (proj1 (packaging_code_determines_the_type fixturePrinting
                    letterPackage customPackage)) in Hsame.
    discriminate Hsame.
Defined.

Lemma register_then_get_witness :
  register emptyRegistry testUpsCarrier 0 = Ok upsOnly
  /\ registry_get upsOnly UPS 7 = Ok testUpsCarrier
  /\ exists e, register upsOnly testUpsCarrier 0 = Err e /\ code e = CONFIGURATION_ERROR.
Proof.
  destruct (register_then_get emptyRegistry testUpsCarrier 0) as [_ Hnew].
  destruct (Hnew eq_refl) as (reg' & Hreg & Hget & _).
  assert (Hr : register emptyRegistry testUpsCarrier 0 = Ok upsOnly) by reflexivity.
  rewrite Hr in Hreg. injection Hreg as <-.
  split; [exact Hr|]. split; [exact (Hget 7)|].
  destruct (register_then_get upsOnly testUpsCarrier 0) as [Hdup _].
  destruct (Hdup eq_refl) as (e & He & Hcode & _).
  exists e. split; assumption.
Defined.

Lemma registerAll_succeeds_iff_ids_distinct_witness :
  (exists reg, registerAll emptyRegistry [testUpsCarrier; fedexMock] 0 = Ok reg)
  /\ listCarrierIds upsAndFedex = [UPS; FEDEX].
Proof.
  destruct (registerAll_succeeds_iff_ids_distinct [testUpsCarrier; fedexMock] 0)
    as [Hiff Hshape].
  split.
  - apply Hiff. cbn. repeat constructor; cbn; intuition discriminate.
  - exact (proj1 (proj2 (Hshape upsAndFedex eq_refl))).
Defined.

Lemma getByIds_stops_at_first_unregistered_witness :
  (exists e, getByIds upsAndFedex [UPS; DHL; FEDEX] 0 = Err e /\ carrier e = Some DHL)
  /\ exists providers, getByIds upsAndFedex [FEDEX; UPS] 0 = Ok providers.
Proof.
  destruct (getByIds_stops_at_first_unregistered upsAndFedex [UPS; DHL; FEDEX] 0)
    as [Hstop _].
  destruct (getByIds_stops_at_first_unregistered upsAndFedex [FEDEX; UPS] 0)
    as [_ Hall].
  split.
  - destruct (Hstop [UPS] DHL [FEDEX] eq_refl) as (e & He & _ & Hc & _).
    + intros x [<-|[]]. reflexivity.
    + reflexivity.
    + exists e. split; assumption.
  - destruct Hall as (providers & Hps & _).
    + intros x [<-|[<-|[]]]; reflexivity.
    + exists providers. exact Hps.
Defined.

Lemma only_registered_requested_carriers_are_called_witness :
  invoked (getQuotes upsAndFedex (withCarriers sampleRateRequest (Some [FEDEX; DHL]))
             5 freshWire)
  = [FEDEX].
Proof.
  exact (proj1 (@only_registered_requested_carriers_are_called zodEnglish Wire upsAndFedex
                  (withCarriers sampleRateRequest (Some [FEDEX; DHL])) 5 freshWire
                  eq_refl)).
Defined.

Lemma unregistered_carriers_are_unavailable_witness :
  getQuotes upsOnly (withCarriers sampleRateRequest (Some [FEDEX])) 5 freshWire
  = {| outcome := Err (carrierUnavailable FEDEX 5); invoked := []; world := freshWire |}.
Proof.
  apply (@unregistered_carriers_are_unavailable zodEnglish Wire upsOnly
           (withCarriers sampleRateRequest (Some [FEDEX])) 5 freshWire FEDEX []).
  - reflexivity.
  - reflexivity.
  - intros id [<-|[]]. reflexivity.
Defined.

Lemma no_quotes_without_failure_is_an_empty_response_witness :
  getQuotes emptyRegistry sampleRateRequest 5 freshWire
  = {| outcome := Ok {| quotes := []; queriedCarriers := []; requestedAt := 5 |};
       invoked := [];
       world := freshWire |}.
Proof.
  apply (proj1 (@no_quotes_without_failure_is_an_empty_response zodEnglish Wire
                  emptyRegistry sampleRateRequest 5 freshWire eq_refl)).
  reflexivity.
Defined.

Lemma every_rate_provider_is_asked_once_witness :
  invoked (getQuotes upsAndFedex sampleRateRequest 5 freshWire) = [UPS; FEDEX].
Proof.
  apply (@every_rate_provider_is_asked_once zodEnglish Wire [testUpsCarrier; fedexMock] 0
           upsAndFedex sampleRateRequest 5 freshWire).
  - reflexivity.
  - reflexivity.
  - left. reflexivity.
Defined.

Lemma single_carrier_result_is_returned_as_is_witness :
  outcome (getQuotes upsOnly sampleRateRequest 5 freshWire)
  = Ok {| quotes := js_sort byTotalCharges shopQuotes;
          queriedCarriers := [UPS];
          requestedAt := 5 |}.
Proof.
  destruct (single_carrier_result_is_returned_as_is decimalParsing zodEnglish
              testAuthConfig testClientConfig shopUpstream "A1B2C3" "v2409"
              sampleRateRequest 5 freshWire) as [_ Hsingle].
  destruct (Hsingle eq_refl eq_refl) as (_ & _ & Hok & _).
  destruct (Hok (js_sort byTotalCharges shopQuotes) eq_refl) as (sorted & Hrun & _ & Hsame).
  unfold upsOnly, testUpsCarrier.
  rewrite Hrun, (Hsame shopQuotes_numeric). reflexivity.
Defined.

Lemma first_failure_follows_carrier_order_witness :
  outcome (getQuotes allDown (withCarriers sampleRateRequest (Some [USPS; FEDEX])) 5
             freshWire)
  = Err {| code := UNKNOWN;
           message := "Carrier USPS failed: boom";
           carrier := Some USPS;
           httpStatus := None;
           carrierErrorCode := None;
           carrierErrorMessage := None;
           retryable := false;
           retryAfterMs := None;
           timestamp := 5 |}.
Proof.
  refine (proj1 (@first_failure_follows_carrier_order zodEnglish Wire allDown
                   (withCarriers sampleRateRequest (Some [USPS; FEDEX])) 5 freshWire
                   [] USPS [FEDEX] [] (ThrownError "boom")
                   [Err (ThrownCarrier fedexDown)]
                   eq_refl eq_refl eq_refl eq_refl _ eq_refl)).
  intros r [].
Defined.
